(** * QSchematic wires: a shallow embedding of [lib/items/wire.cpp]

    The wire of a schematic is an ordered polyline of grid points.  This
    development embeds the point-sequence operations of [Wire] (insertion,
    removal, simplification, moves, junction flags), the derived line
    segments and bounding rectangle, and the segment drag of
    [mouseMoveEvent], and states the properties of the specification over
    them.

    Conventions.
    - C++ [int] values (coordinates, indices, counts) are integers of [Z];
      signed overflow is undefined in C++ and grid coordinates stay far from
      the limits, so no wrap-around is written.
    - [qreal] values of [QPointF]/[QRectF] only ever hold integers here
      (grid coordinates times the grid size) and are integers of [Z] too.
    - C++ [float] and [double] values are IEEE 754 binary32 and binary64
      numbers, with the correctly rounded operations of the Standard
      Library's [SpecFloat].  [QVector2D] holds two floats; an [int] that
      goes into one is rounded to 24 significant bits, and [toPoint()]
      rounds back with Qt 5's [qRound].
    - Signals are collected in a log.  A signal carries what its receiver is
      handed: the wire ([*this]) as it is when the signal is emitted, and the
      point. *)

From Stdlib Require Import ZArith List Bool Lia Psatz SpecFloat.
Import ListNotations.
Local Open Scope Z_scope.

(** ** Qt value types *)

Record QPoint : Type := mkQPoint { qx : Z; qy : Z }.

Definition QPoint_add (a b : QPoint) : QPoint := mkQPoint (qx a + qx b) (qy a + qy b).
Definition QPoint_sub (a b : QPoint) : QPoint := mkQPoint (qx a - qx b) (qy a - qy b).

(** ** Floats *)

Definition float : Type := spec_float.
Definition double : Type := spec_float.

(** The operations of [float], binary32: 24 bits of precision. *)
Module Float.
Definition prec : Z := 24.
Definition emax : Z := 128.
Definition add : float -> float -> float := SFadd prec emax.
Definition sub : float -> float -> float := SFsub prec emax.
Definition mul : float -> float -> float := SFmul prec emax.
Definition neg : float -> float := SFopp.
Definition leb : float -> float -> bool := SFleb.
Definition ltb : float -> float -> bool := SFltb.
Definition zero : float := S754_zero false.
End Float.

(** The operations of [double], binary64, that [QVector2D::length] uses. *)
Module Double.
Definition prec : Z := 53.
Definition emax : Z := 1024.
Definition add : double -> double -> double := SFadd prec emax.
Definition mul : double -> double -> double := SFmul prec emax.
Definition sqrt : double -> double := SFsqrt prec emax.
End Double.

(** The conversions of C++: [int] to [float] rounds to nearest, ties to
    even; [float] to [double] is exact; [double] to [float] rounds. *)
Definition float_of_int (n : Z) : float :=
  binary_normalize Float.prec Float.emax n 0 false.

Definition double_of_float (x : float) : double :=
  match x with
  | S754_finite s m e =>
      binary_normalize Double.prec Double.emax (cond_Zopp s (Zpos m)) e false
  | _ => x
  end.

Definition float_of_double (x : double) : float :=
  match x with
  | S754_finite s m e =>
      binary_normalize Float.prec Float.emax (cond_Zopp s (Zpos m)) e false
  | _ => x
  end.

(** [int(d)]: the fraction is dropped.  C++ leaves the conversion undefined
    for a NaN, an infinity or a value outside [int]; the first two give 0
    here, and as elsewhere no wrap-around is written. *)
Definition int_of_float (d : float) : Z :=
  match d with
  | S754_finite s m e =>
      let magnitude := match e with
                       | Z0 => Zpos m
                       | Zpos k => Zpos m * 2 ^ Zpos k
                       | Zneg k => Zpos m / 2 ^ Zpos k
                       end in
      if s then - magnitude else magnitude
  | _ => 0
  end.

(** [0.5f] *)
Definition half : float := S754_finite false 8388608 (-24).

(** [qRound(float d)] of Qt 5's [qglobal.h]:
    [d >= 0.0f ? int(d + 0.5f) : int(d - float(int(d-1)) + 0.5f) + int(d-1)]. *)
Definition qRound (d : float) : Z :=
  if Float.leb Float.zero d then int_of_float (Float.add d half)
  else
    let below := int_of_float (Float.sub d (float_of_int 1)) in
    int_of_float (Float.add (Float.sub d (float_of_int below)) half) + below.

(** [qAbs], [qMin] and [qFuzzyCompare(float p1, float p2)] of [qglobal.h]:
    [qAbs(p1 - p2) * 100000.f <= qMin(qAbs(p1), qAbs(p2))]. *)
Definition qAbs (t : float) : float := if Float.leb Float.zero t then t else Float.neg t.
Definition qMin (a b : float) : float := if Float.ltb a b then a else b.

Definition qFuzzyCompare (p1 p2 : float) : bool :=
  Float.leb (Float.mul (qAbs (Float.sub p1 p2)) (float_of_int 100000))
            (qMin (qAbs p1) (qAbs p2)).

(** [QVector2D]: two floats. *)
Record QVector2D : Type := QVector2D_of_floats { vx : float; vy : float }.

(** [QVector2D(float xpos, float ypos)] called with two [int]s, as this code
    calls it, [QVector2D(const QPoint&)], and [QVector2D::toPoint()]. *)
Definition mkQVector2D (x y : Z) : QVector2D :=
  QVector2D_of_floats (float_of_int x) (float_of_int y).
Definition QVector2D_of_QPoint (p : QPoint) : QVector2D := mkQVector2D (qx p) (qy p).
Definition toPoint2D (v : QVector2D) : QPoint := mkQPoint (qRound (vx v)) (qRound (vy v)).

(** [QRectF] stores its corner and its extent, as Qt does. *)
Record QRectF : Type := mkQRectF { xp : Z; yp : Z; rw : Z; rh : Z }.

(** [QRectF(const QPointF& topLeft, const QPointF& bottomRight)]. *)
Definition QRectF_of_corners (topLeft bottomRight : Z * Z) : QRectF :=
  mkQRectF (fst topLeft) (snd topLeft)
           (fst bottomRight - fst topLeft) (snd bottomRight - snd topLeft).

(** The default-constructed (null) rectangle. *)
Definition QRectF_null : QRectF := mkQRectF 0 0 0 0.

Definition rect_left (r : QRectF) : Z := xp r.
Definition rect_top (r : QRectF) : Z := yp r.
Definition rect_right (r : QRectF) : Z := xp r + rw r.
Definition rect_bottom (r : QRectF) : Z := yp r + rh r.

Definition INT_MAX : Z := 2147483647.
Definition INT_MIN : Z := -2147483648.

(** ** The operations of [QVector] used by the wire, on lists *)

Module QVector.
Section Ops.
Context {T : Type} (eqb : T -> T -> bool).

(** [count()] *)
Definition size (l : list T) : Z := Z.of_nat (length l).

Definition prepend (t : T) (l : list T) : list T := t :: l.
Definition append (t : T) (l : list T) : list T := l ++ [t].

(** [insert(i, t)], for [0 <= i <= size]. *)
Definition insert (i : Z) (t : T) (l : list T) : list T :=
  firstn (Z.to_nat i) l ++ t :: skipn (Z.to_nat i) l.

Definition removeFirst (l : list T) : list T := tl l.
Definition removeLast (l : list T) : list T := removelast l.

(** [removeAll(t)]: every element equal to [t] goes. *)
Definition removeAll (t : T) (l : list T) : list T :=
  filter (fun x => negb (eqb x t)) l.

(** [count(t)]: the number of elements equal to [t]. *)
Definition count (t : T) (l : list T) : Z :=
  Z.of_nat (length (filter (fun x => eqb x t) l)).

(** [indexOf(t)]: the first index holding an element equal to [t]. *)
Fixpoint indexOf (t : T) (l : list T) : option nat :=
  match l with
  | [] => None
  | x :: l' => if eqb x t then Some 0%nat
               else match indexOf t l' with
                    | Some i => Some (S i)
                    | None => None
                    end
  end.

(** [remove(i)] *)
Definition remove (i : nat) (l : list T) : list T := firstn i l ++ skipn (S i) l.

(** [at(i)]; out of range it asserts (debug) or is undefined (release). *)
Definition at_ (i : Z) (l : list T) : option T :=
  if i <? 0 then None else nth_error l (Z.to_nat i).

(** [v[i] = t], for an index in range. *)
Definition assign (i : Z) (t : T) (l : list T) : list T :=
  firstn (Z.to_nat i) l ++ t :: skipn (S (Z.to_nat i)) l.
End Ops.
End QVector.

(** ** WirePoint *)

(** Modelled from the spec: [wirepoint.h] is not among the sources at hand.
    A wire point is a grid coordinate plus a junction flag; a point built
    from a [QPoint] is not a junction; equality is by position only. *)
Record WirePoint : Type := mkWirePoint { wx : Z; wy : Z; isJunction : bool }.

Definition WirePoint_of_QPoint (p : QPoint) : WirePoint := mkWirePoint (qx p) (qy p) false.
Definition toPoint (p : WirePoint) : QPoint := mkQPoint (wx p) (wy p).
Definition setIsJunction (b : bool) (p : WirePoint) : WirePoint := mkWirePoint (wx p) (wy p) b.

(** [WirePoint::operator==] *)
Definition WirePoint_eqb (a b : WirePoint) : bool := (wx a =? wx b) && (wy a =? wy b).

(** ** Line *)

(** Modelled from the spec: [line.h] is not among the sources at hand.  A line
    is the segment between two grid points; it is horizontal when both ends
    have the same y, vertical when both have the same x. *)
Record Line : Type := mkLine { p1 : QPoint; p2 : QPoint }.

Definition isHorizontal (l : Line) : bool := qy (p1 l) =? qy (p2 l).
Definition isVertical (l : Line) : bool := qx (p1 l) =? qx (p2 l).

(** ** The wire *)

(** Modelled from the spec: [wire.h], [item.h] and [settings.h] are not among
    the sources at hand.  The members are those [wire.cpp] uses.  [_points]
    is the ordered, index-addressable point sequence; [wire.cpp] uses it
    through the interface of [QVector] and copies it into
    [QVector<WirePoint>] results, and it is taken to be a
    [QVector<WirePoint>].  From its base class [Item] the wire reads
    [gridPoint()], its own position on the grid (the anchor: stored points
    are relative to it), and from its settings [gridSize], the cell size. *)
Record Wire : Type := mkWire {
  _points : list WirePoint;
  _rect : QRectF;
  _pointToMoveIndex : Z;
  _lineSegmentToMoveIndex : Z;
  _prevMousePos : QPoint;
  gridPoint : QPoint;
  gridSize : Z
}.

Definition set_points (pts : list WirePoint) (w : Wire) : Wire :=
  mkWire pts (_rect w) (_pointToMoveIndex w) (_lineSegmentToMoveIndex w)
         (_prevMousePos w) (gridPoint w) (gridSize w).

Definition set_rect (r : QRectF) (w : Wire) : Wire :=
  mkWire (_points w) r (_pointToMoveIndex w) (_lineSegmentToMoveIndex w)
         (_prevMousePos w) (gridPoint w) (gridSize w).

Definition set_prevMousePos (p : QPoint) (w : Wire) : Wire :=
  mkWire (_points w) (_rect w) (_pointToMoveIndex w) (_lineSegmentToMoveIndex w)
         p (gridPoint w) (gridSize w).

(** [Wire::Wire]: no points, a null rectangle, nothing being dragged.  The
    anchor and the grid size come from the host. *)
Definition Wire_new (anchor : QPoint) (cell : Z) : Wire :=
  mkWire [] QRectF_null (-1) (-1) (mkQPoint 0 0) anchor cell.

(** The signal of [emit pointMoved(this, point)]. *)
Inductive Signal : Type :=
| pointMoved (wire : Wire) (point : WirePoint).

(** ** Member functions as state transformers

    A member function takes the wire and either fails (an out-of-range [at],
    a loop that is cut off) or yields its result, the wire it leaves and the
    signals it emitted, in order. *)
Definition M (A : Type) : Type := Wire -> option (A * Wire * list Signal).

Definition ret {A} (a : A) : M A := fun w => Some (a, w, []).

Definition bind {A B} (m : M A) (f : A -> M B) : M B :=
  fun w =>
    match m w with
    | None => None
    | Some (a, w1, s1) =>
        match f a w1 with
        | None => None
        | Some (b, w2, s2) => Some (b, w2, s1 ++ s2)
        end
    end.

Declare Scope wire_scope.
Delimit Scope wire_scope with wire.
Notation "x <- c ;; k" := (bind c (fun x => k))
  (at level 61, c at next level, right associativity) : wire_scope.
Notation "c ;; k" := (bind c (fun _ => k))
  (at level 61, right associativity) : wire_scope.
Local Open Scope wire_scope.

Definition this : M Wire := fun w => Some (w, w, []).
Definition modify (f : Wire -> Wire) : M unit := fun w => Some (tt, f w, []).
Definition lift {A} (o : option A) : M A :=
  fun w => match o with Some a => Some (a, w, []) | None => None end.

(** [emit s(this, ...)]: the receiver gets the wire as it is now. *)
Definition emit (s : Wire -> Signal) : M unit := fun w => Some (tt, w, [s w]).

(** [QGraphicsItem::prepareGeometryChange()] and [Item::update()] schedule
    repaints in the scene; they do not touch the members of the wire. *)
Definition prepareGeometryChange : M unit := ret tt.
Definition Item_update : M unit := ret tt.

(** *** Bounding rectangle *)

(** The two scans of [calculateBoundingRect], each over all points. *)
Definition topLeftOf (pts : list WirePoint) : Z * Z :=
  fold_left (fun tl point =>
               let tl1 := if wx point <? fst tl then (wx point, snd tl) else tl in
               if wy point <? snd tl1 then (fst tl1, wy point) else tl1)
            pts (INT_MAX, INT_MAX).

Definition bottomRightOf (pts : list WirePoint) : Z * Z :=
  fold_left (fun br point =>
               let br1 := if wx point >? fst br then (wx point, snd br) else br in
               if wy point >? snd br1 then (fst br1, wy point) else br1)
            pts (INT_MIN, INT_MIN).

Definition scale (p : Z * Z) (k : Z) : Z * Z := (fst p * k, snd p * k).

(** The rectangle [calculateBoundingRect] computes from a point list. *)
Definition boundsOf (pts : list WirePoint) (cell : Z) : QRectF :=
  QRectF_of_corners (scale (topLeftOf pts) cell) (scale (bottomRightOf pts) cell).

Definition calculateBoundingRect : M unit :=
  modify (fun w => set_rect (boundsOf (_points w) (gridSize w)) w).

(** [Wire::update] *)
Definition update : M unit :=
  calculateBoundingRect ;; Item_update.

(** *** Insertion *)

Definition prependPoint (point : QPoint) : M unit :=
  prepareGeometryChange ;;
  modify (fun w => set_points
            (QVector.prepend (WirePoint_of_QPoint (QPoint_sub point (gridPoint w))) (_points w)) w) ;;
  calculateBoundingRect ;;
  update ;;
  emit (fun w => pointMoved w (hd (mkWirePoint 0 0 false) (_points w))).

Definition appendPoint (point : QPoint) : M unit :=
  prepareGeometryChange ;;
  modify (fun w => set_points
            (QVector.append (WirePoint_of_QPoint (QPoint_sub point (gridPoint w))) (_points w)) w) ;;
  calculateBoundingRect ;;
  update ;;
  emit (fun w => pointMoved w (last (_points w) (mkWirePoint 0 0 false))).

Definition insertPoint (index : Z) (point : QPoint) : M unit :=
  w <- this ;;
  if (index <? 0) || (index >=? QVector.size (_points w)) then ret tt
  else
    prepareGeometryChange ;;
    modify (fun w => set_points
              (QVector.insert index (WirePoint_of_QPoint (QPoint_sub point (gridPoint w))) (_points w)) w) ;;
    calculateBoundingRect ;;
    update ;;
    emit (fun w => pointMoved w (nth (Z.to_nat index) (_points w) (mkWirePoint 0 0 false))).

(** *** Removal *)

Definition removeFirstPoint : M unit :=
  w <- this ;;
  if QVector.size (_points w) <=? 0 then ret tt
  else
    prepareGeometryChange ;;
    modify (fun w => set_points (QVector.removeFirst (_points w)) w) ;;
    calculateBoundingRect ;;
    update.

Definition removeLastPoint : M unit :=
  w <- this ;;
  if QVector.size (_points w) <=? 0 then ret tt
  else
    prepareGeometryChange ;;
    modify (fun w => set_points (QVector.removeLast (_points w)) w) ;;
    calculateBoundingRect ;;
    update.

Definition removePoint (point : QPoint) : M unit :=
  prepareGeometryChange ;;
  modify (fun w => set_points
            (QVector.removeAll WirePoint_eqb
               (WirePoint_of_QPoint (QPoint_sub point (gridPoint w))) (_points w)) w) ;;
  calculateBoundingRect ;;
  update.

(** *** Duplicate removal

    The first loop of [removeDuplicatePoints] erases from [_points] while
    it iterates over it, which decides what it does:
    - a [QVector] keeps its elements in one array and its iterators are
      pointers into it; the range-for evaluates [begin()] and [end()] once,
      so it visits as many slots of the array as the vector had elements
      when the loop started;
    - [point] is a reference to the slot being visited, not a copy of the
      element: every use of [point] reads the slot again;
    - [removeOne(t)] erases the element at [indexOf(t)], if there is one: the
      elements behind it move down by one slot and the size shrinks by
      one; the array is not reallocated, and the slot that held the last
      element, now past the end, keeps its contents.

    [Slots] is the array: the elements of the vector, then what the slots
    past its end still hold. *)
Record Slots : Type := mkSlots { elements : list WirePoint; pastEnd : list WirePoint }.

(** What a reference to slot [k] reads. *)
Definition slot (k : nat) (s : Slots) : WirePoint :=
  nth k (elements s ++ pastEnd s) (mkWirePoint 0 0 false).

(** [_points.removeOne(t)], with its result. *)
Definition removeOne (t : WirePoint) (s : Slots) : bool * Slots :=
  match QVector.indexOf WirePoint_eqb t (elements s) with
  | None => (false, s)
  | Some i => (true, mkSlots (QVector.remove i (elements s))
                             (last (elements s) t :: pastEnd s))
  end.

(** [for (int i = 0; i < count-1; i++) { _points.removeOne(point); removedCount++; }]
    with [point] the reference to slot [k]; [n] is [count-1]. *)
Fixpoint removeRepeatedly (n k : nat) (s : Slots) (removedCount : Z) : Slots * Z :=
  match n with
  | O => (s, removedCount)
  | S n' => removeRepeatedly n' k (snd (removeOne (slot k s) s)) (removedCount + 1)
  end.

(** The body of the range-for at slot [k]. *)
Definition visitSlot (k : nat) (s : Slots) (removedCount : Z) : Slots * Z :=
  let count := QVector.count WirePoint_eqb (slot k s) (elements s) in
  if count >? 1 then removeRepeatedly (Z.to_nat (count - 1)) k s removedCount
  else (s, removedCount).

(** The range-for from slot [k] on, [todo] slots left before the [end()] it
    was started with. *)
Fixpoint visitSlots (todo k : nat) (s : Slots) (removedCount : Z) : Slots * Z :=
  match todo with
  | O => (s, removedCount)
  | S todo' =>
      let '(s', removedCount') := visitSlot k s removedCount in
      visitSlots todo' (S k) s' removedCount'
  end.

(** One round of the do-while body's first loop over a vector [pts]. *)
Definition removeRound (pts : list WirePoint) (removedCount : Z) : list WirePoint * Z :=
  let '(s, removedCount') := visitSlots (length pts) 0 (mkSlots pts []) removedCount in
  (elements s, removedCount').

(** The second loop: is every point there once only? *)
Definition allUnique (pts : list WirePoint) : bool :=
  forallb (fun point => negb (QVector.count WirePoint_eqb point pts >? 1)) pts.

(** [do { ... } while (!allUnique)], at most [fuel] rounds. *)
Fixpoint removeRounds (fuel : nat) (pts : list WirePoint) (removedCount : Z)
  : option (list WirePoint * Z) :=
  match fuel with
  | O => None
  | S fuel' =>
      let '(pts', removedCount') := removeRound pts removedCount in
      if allUnique pts' then Some (pts', removedCount')
      else removeRounds fuel' pts' removedCount'
  end.

(** [removeDuplicatePoints]: a round over points with a duplicate removes a
    point, so one round more than there are points is enough
    ([removeDuplicatePoints_returns]). *)
Definition removeDuplicatePoints : M Z :=
  w <- this ;;
  r <- lift (removeRounds (S (length (_points w))) (_points w) 0) ;;
  modify (set_points (fst r)) ;;
  ret (snd r).

(** *** Obsolete points *)

(** [QVector2D::dotProduct] of Qt 5: [v1.xp * v2.xp + v1.yp * v2.yp], in
    floats. *)
Definition dotProduct (v1 v2 : QVector2D) : float :=
  Float.add (Float.mul (vx v1) (vx v2)) (Float.mul (vy v1) (vy v2)).

(** [QVector2D::length] of Qt 5:
    [double len = double(xp) * double(xp) + double(yp) * double(yp);
     return float(std::sqrt(len));] *)
Definition length2D (v : QVector2D) : float :=
  let x := double_of_float (vx v) in
  let y := double_of_float (vy v) in
  float_of_double (Double.sqrt (Double.add (Double.mul x x) (Double.mul y y))).

(** [qFuzzyCompare(dotProduct, absProduct)] for
    [dotProduct = QVector2D::dotProduct(v1, v2)] and
    [absProduct = v1.length() * v2.length()]. *)
Definition sameDirection (v1 v2 : QVector2D) : bool :=
  qFuzzyCompare (dotProduct v1 v2) (Float.mul (length2D v1) (length2D v2)).

(** The first loop of [removeObsoletePoints]: for [i = 2 .. count-1] the
    points [p1 = at(i-2)], [p2 = at(i-1)], [p3 = at(i)]; [p2] is collected
    when the test holds. *)
Fixpoint obsoletePoints (pts : list WirePoint) : list WirePoint :=
  match pts with
  | wp1 :: rest =>
      match rest with
      | wp2 :: wp3 :: _ =>
          let v1 := QVector2D_of_QPoint (QPoint_sub (toPoint wp2) (toPoint wp1)) in
          let v2 := QVector2D_of_QPoint (QPoint_sub (toPoint wp3) (toPoint wp2)) in
          if sameDirection v1 v2 then wp2 :: obsoletePoints rest
          else obsoletePoints rest
      | _ => []
      end
  | [] => []
  end.

(** [for (const WirePoint& point : pointsToRemove) removePoint(point.toPoint());] *)
Fixpoint removePoints (pointsToRemove : list WirePoint) : M unit :=
  match pointsToRemove with
  | [] => ret tt
  | point :: rest => removePoint (toPoint point) ;; removePoints rest
  end.

Definition removeObsoletePoints : M Z :=
  w <- this ;;
  if QVector.size (_points w) <? 3 then ret 0
  else
    let pointsToRemove := obsoletePoints (_points w) in
    removePoints pointsToRemove ;;
    ret (QVector.size pointsToRemove).

(** *** Moves *)

Definition pointAt (index : Z) (w : Wire) : WirePoint :=
  nth (Z.to_nat index) (_points w) (mkWirePoint 0 0 false).

Definition movePointBy (index : Z) (moveBy : QVector2D) : M unit :=
  w <- this ;;
  if (index <? 0) || (index >? QVector.size (_points w) - 1) then ret tt
  else
    prepareGeometryChange ;;
    modify (fun w => set_points
              (QVector.assign index
                 (WirePoint_of_QPoint (QPoint_add (toPoint (pointAt index w)) (toPoint2D moveBy)))
                 (_points w)) w) ;;
    calculateBoundingRect ;;
    update ;;
    emit (fun w => pointMoved w (pointAt index w)).

Definition movePointTo (index : Z) (moveTo : QPoint) : M unit :=
  w <- this ;;
  if (index <? 0) || (index >? QVector.size (_points w) - 1) then ret tt
  else
    prepareGeometryChange ;;
    modify (fun w => set_points
              (QVector.assign index
                 (WirePoint_of_QPoint (QPoint_sub moveTo (gridPoint w)))
                 (_points w)) w) ;;
    calculateBoundingRect ;;
    update ;;
    emit (fun w => pointMoved w (pointAt index w)).

Definition moveLineSegmentBy (index : Z) (moveBy : QVector2D) : M unit :=
  w <- this ;;
  if (index <? 0) || (index >? QVector.size (_points w) - 1) then ret tt
  else
    movePointBy index moveBy ;;
    movePointBy (index + 1) moveBy.

Definition setPointIsJunction (index : Z) (isJunction : bool) : M unit :=
  w <- this ;;
  if (index <? 0) || (index >? QVector.size (_points w) - 1) then ret tt
  else
    modify (fun w => set_points
              (QVector.assign index (setIsJunction isJunction (pointAt index w)) (_points w)) w) ;;
    update.

(** *** Queries *)

Definition points (w : Wire) : list QPoint :=
  map (fun wirePoint => QPoint_add (gridPoint w) (toPoint wirePoint)) (_points w).

Definition lineSegments (w : Wire) : list Line :=
  if QVector.size (_points w) <? 2 then []
  else
    map (fun i => mkLine (QPoint_add (gridPoint w) (toPoint (pointAt (Z.of_nat i) w)))
                         (QPoint_add (gridPoint w) (toPoint (pointAt (Z.of_nat i + 1) w))))
        (seq 0 (Z.to_nat (QVector.size (_points w) - 1))).

(** *** Dragging *)

(** What became of a mouse event: accepted by the wire, or handed to
    [Item::mouseMoveEvent] (whose effects on the item are the host's). *)
Inductive Dispatch : Type := accepted | passedToItem.

(** [mouseMoveEvent], given [curPos = _settings.toGridPoint(event->scenePos())]
    and whether the control key is held.  The drag vector is a [QVector2D]:
    the differences of grid coordinates go into its floats here and come
    back through [toPoint2D] in [movePointBy]. *)
Definition mouseMoveEvent (curPos : QPoint) (ctrlPressed : bool) : M Dispatch :=
  w <- this ;;
  r <- (if _pointToMoveIndex w >? -1 then
          movePointTo (_pointToMoveIndex w) curPos ;;
          ret accepted
        else if _lineSegmentToMoveIndex w >? -1 then
          line <- lift (QVector.at_ (_lineSegmentToMoveIndex w) (lineSegments w)) ;;
          let moveLineBy :=
            if isHorizontal line then
              mkQVector2D 0 (qy curPos - qy (_prevMousePos w))
            else if isVertical line then
              mkQVector2D (qx curPos - qx (_prevMousePos w)) 0
            else if ctrlPressed then
              QVector2D_of_QPoint (QPoint_sub curPos (_prevMousePos w))
            else mkQVector2D 0 0 in
          moveLineSegmentBy (_lineSegmentToMoveIndex w) moveLineBy ;;
          ret accepted
        else ret passedToItem) ;;
  modify (set_prevMousePos curPos) ;;
  ret r.

(** Running a member function: the wire it leaves, its signals, its result. *)
Definition wireAfter {A} (m : M A) (w : Wire) : Wire :=
  match m w with Some (_, w', _) => w' | None => w end.

Definition signalsOf {A} (m : M A) (w : Wire) : list Signal :=
  match m w with Some (_, _, s) => s | None => [] end.

Definition resultOf {A} (m : M A) (w : Wire) : option A :=
  match m w with Some (a, _, _) => Some a | None => None end.


(** ** Derived notions used in the statements *)

(** The positions of a point list, junction flags dropped. *)
Definition positions (pts : list WirePoint) : list QPoint := map toPoint pts.

(** The stored rectangle is the one [calculateBoundingRect] would compute
    from the points the wire holds now. *)
Definition boundsCurrent (w : Wire) : Prop :=
  _rect w = boundsOf (_points w) (gridSize w).

(** The wire with new points and the rectangle recomputed from them: what a
    mutation followed by [calculateBoundingRect] leaves. *)
Definition withPoints (pts : list WirePoint) (w : Wire) : Wire :=
  set_rect (boundsOf pts (gridSize w)) (set_points pts w).

(** A point moved by a vector: [WirePoint(p.toPoint() + moveBy.toPoint())]. *)
Definition movedBy (moveBy : QVector2D) (p : WirePoint) : WirePoint :=
  WirePoint_of_QPoint (QPoint_add (toPoint p) (toPoint2D moveBy)).

(** The wire [movePointBy(index, moveBy)] leaves, for an index in range. *)
Definition afterMove (index : Z) (moveBy : QVector2D) (w : Wire) : Wire :=
  withPoints (QVector.assign index (movedBy moveBy (pointAt index w)) (_points w)) w.

(** The points left by [removePoint] called on each of [pointsToRemove] in
    turn, on a wire anchored at [anchor]. *)
Definition removeAllPoints (anchor : QPoint) (pointsToRemove pts : list WirePoint)
  : list WirePoint :=
  fold_left (fun acc point =>
               QVector.removeAll WirePoint_eqb
                 (WirePoint_of_QPoint (QPoint_sub (toPoint point) anchor)) acc)
            pointsToRemove pts.

(** [m] is [l] with some elements left out. *)
Inductive Subseq {T : Type} : list T -> list T -> Prop :=
| Subseq_nil : Subseq [] []
| Subseq_skip (x : T) (m l : list T) : Subseq m l -> Subseq m (x :: l)
| Subseq_take (x : T) (m l : list T) : Subseq m l -> Subseq (x :: m) (x :: l).

(** Does [p] sit at the position of one of the points of [m]? *)
Definition positionIn (m : list WirePoint) (p : WirePoint) : bool :=
  existsb (fun q => WirePoint_eqb p q) m.

(** The number of elements in the array of a vector. *)
Definition len (s : Slots) : nat := length (elements s).

(** ** Wires used as examples *)

Definition origin : QPoint := mkQPoint 0 0.

(** The steps along an axis that the lemmas on the direction test go
    through: the non-zero integers from -64 to 64. *)
Definition gridSteps : list Z :=
  filter (fun n => negb (n =? 0)) (map (fun k => Z.of_nat k - 64) (seq 0 129)).

(** A wire at the origin holding the given points, rectangle up to date. *)
Definition wireOf (anchor : QPoint) (pts : list WirePoint) : Wire :=
  mkWire pts (boundsOf pts 20) (-1) (-1) origin anchor 20.

Definition twoPointWire : Wire :=
  wireOf origin [mkWirePoint 0 0 false; mkWirePoint 4 0 true].

(** A fresh wire at the origin (cell size 20) that is given the points
    (0,0), (5,5), (0,0), (0,0) and then told to remove its duplicates. *)
Definition fourAppends : M unit :=
  appendPoint (mkQPoint 0 0) ;;
  appendPoint (mkQPoint 5 5) ;;
  appendPoint (mkQPoint 0 0) ;;
  appendPoint (mkQPoint 0 0).

Definition fourPointWire : Wire := wireAfter fourAppends (Wire_new origin 20).

Definition dedupedWire : Wire := wireAfter removeDuplicatePoints fourPointWire.


(** The two wires of the collinearity example, and the first of them on an
    item that sits at grid position (1,0). *)
Definition straightWire : Wire :=
  wireOf origin [mkWirePoint 0 0 false; mkWirePoint 0 5 false; mkWirePoint 0 10 false].

Definition cornerWire : Wire :=
  wireOf origin [mkWirePoint 0 0 false; mkWirePoint 5 0 false; mkWirePoint 5 5 false].

Definition straightWireMoved : Wire :=
  wireOf (mkQPoint 1 0)
         [mkWirePoint 0 0 false; mkWirePoint 0 5 false; mkWirePoint 0 10 false].

(** A wire at the origin that ends on itself: its last point lies on its
    first segment, at (1,0), where it also has an interior point. *)
Definition loopWire : Wire :=
  wireOf origin [mkWirePoint 0 0 false; mkWirePoint 1 0 false; mkWirePoint 2 0 false;
                 mkWirePoint 2 1 false; mkWirePoint 1 1 false; mkWirePoint 1 0 false].

(** A wire at the origin that runs three times over the points
    a = (0,0), b = (1,0), c = (1,1): a b c a b c b b c. *)
Definition ninePointWire : Wire :=
  wireOf origin [mkWirePoint 0 0 false; mkWirePoint 1 0 false; mkWirePoint 1 1 false;
                 mkWirePoint 0 0 false; mkWirePoint 1 0 false; mkWirePoint 1 1 false;
                 mkWirePoint 1 0 false; mkWirePoint 1 0 false; mkWirePoint 1 1 false].

(** ** The rest of [wire.cpp]: scene coordinates, padding, mouse and hover *)

From Stdlib Require Import QArith Qround Lqa.
Local Open Scope Z_scope.

Definition BOUNDING_RECT_PADDING : Z := 6.
Definition HANDLE_SIZE : Q := 3 # 1.

(** [QRectF::adjusted(dx1, dy1, dx2, dy2)] *)
Definition adjusted (dx1 dy1 dx2 dy2 : Z) (r : QRectF) : QRectF :=
  mkQRectF (xp r + dx1) (yp r + dy1) (rw r + dx2 - dx1) (rh r + dy2 - dy1).

(** [Wire::boundingRect] *)
Definition boundingRect (w : Wire) : QRectF :=
  adjusted (- BOUNDING_RECT_PADDING) (- BOUNDING_RECT_PADDING)
           BOUNDING_RECT_PADDING BOUNDING_RECT_PADDING (_rect w).

(** [QPoint::operator==] *)
Definition QPoint_eqb (a b : QPoint) : bool := (qx a =? qx b) && (qy a =? qy b).

Definition set_pointToMoveIndex (i : Z) (w : Wire) : Wire :=
  mkWire (_points w) (_rect w) i (_lineSegmentToMoveIndex w)
         (_prevMousePos w) (gridPoint w) (gridSize w).

Definition set_lineSegmentToMoveIndex (i : Z) (w : Wire) : Wire :=
  mkWire (_points w) (_rect w) (_pointToMoveIndex w) i
         (_prevMousePos w) (gridPoint w) (gridSize w).

(** A position in the scene, [event->scenePos()]: its coordinates are
    [qreal]s that need not be integers; they are rationals here. *)
Record QPointF : Type := mkQPointF { fx : Q; fy : Q }.

(** [QRectF] once more, for the rectangles around scene positions. *)
Record SceneRect : Type := mkSceneRect { sx : Q; sy : Q; sw : Q; sh : Q }.

Definition Qlt_bool (a b : Q) : bool := negb (Qle_bool b a).

(** [QRectF::contains(const QPointF&)]: the sides are put in order, a
    rectangle without width or height contains nothing, the border is
    inside. *)
Definition SceneRect_contains (r : SceneRect) (p : QPointF) : bool :=
  let l := if Qlt_bool (sw r) 0 then (sx r + sw r)%Q else sx r in
  let rr := if Qlt_bool (sw r) 0 then sx r else (sx r + sw r)%Q in
  if Qeq_bool l rr then false
  else if Qlt_bool (fx p) l || Qlt_bool rr (fx p) then false
  else
    let t := if Qlt_bool (sh r) 0 then (sy r + sh r)%Q else sy r in
    let b := if Qlt_bool (sh r) 0 then sy r else (sy r + sh r)%Q in
    if Qeq_bool t b then false
    else if Qlt_bool (fy p) t || Qlt_bool b (fy p) then false
    else true.

(** [QRectF handleRect(p.x() - HANDLE_SIZE, p.y() - HANDLE_SIZE,
    2*HANDLE_SIZE, 2*HANDLE_SIZE)] *)
Definition handleRect (p : QPoint) : SceneRect :=
  mkSceneRect (inject_Z (qx p) - HANDLE_SIZE)%Q (inject_Z (qy p) - HANDLE_SIZE)%Q
              (2 * HANDLE_SIZE)%Q (2 * HANDLE_SIZE)%Q.

Inductive CursorShape : Type := SizeAllCursor | SizeVerCursor | SizeHorCursor.

(** What a hover event does to the cursor of the item. *)
Inductive CursorChange : Type :=
| setCursor (shape : CursorShape)
| unsetCursor
| cursorKept.

Section Host.

(** Modelled from the spec: [settings.h] and [line.h] are not among the
    sources at hand.  The settings convert between grid and scene
    coordinates, given the cell size; a line tells whether a grid point lies
    on it, within a tolerance.  The three functions are those of the host,
    whatever they are. *)
Variable toScenePoint : Z -> QPoint -> QPoint.
Variable toGridPoint : Z -> QPointF -> QPoint.
Variable containsPoint : Line -> QPoint -> Z -> bool.

Definition sceneWirePointsRelative (w : Wire) : list WirePoint :=
  map (fun point =>
         setIsJunction (isJunction point)
           (WirePoint_of_QPoint (toScenePoint (gridSize w) (toPoint point))))
      (_points w).

Definition scenePointsRelative (w : Wire) : list QPoint :=
  map (fun point => toScenePoint (gridSize w) (toPoint point)) (_points w).

Definition scenePointsAbsolute (w : Wire) : list QPoint :=
  map (fun point => toScenePoint (gridSize w) (QPoint_add (toPoint point) (gridPoint w)))
      (_points w).

Definition pointIsOnWire (point : QPoint) (w : Wire) : bool :=
  existsb (fun lineSegment => containsPoint lineSegment point 0) (lineSegments w).

(** The first loop of [mousePressEvent], from index [i] on: [true] when the
    function returned from inside the loop. *)
Fixpoint pressHandles (scenePos : QPointF) (points : list QPoint) (i : Z) : M bool :=
  match points with
  | [] => ret false
  | p :: rest =>
      if SceneRect_contains (handleRect p) scenePos then
        modify (set_pointToMoveIndex i) ;; ret true
      else
        modify (set_pointToMoveIndex (-1)) ;;
        pressHandles scenePos rest (i + 1)
  end.

(** Its second loop. *)
Fixpoint pressLines (gridPos : QPoint) (lines : list Line) (i : Z) : M bool :=
  match lines with
  | [] => ret false
  | line :: rest =>
      if containsPoint line gridPos 1 then
        modify (set_lineSegmentToMoveIndex i) ;; ret true
      else
        modify (set_lineSegmentToMoveIndex (-1)) ;;
        pressLines gridPos rest (i + 1)
  end.

(** [mousePressEvent], given [isSelected()] and [event->scenePos()].  The
    result tells whether the event went on to [Item::mousePressEvent]. *)
Definition mousePressEvent (selected : bool) (scenePos : QPointF) : M bool :=
  modify (fun w => set_prevMousePos (toGridPoint (gridSize w) scenePos) w) ;;
  if selected then
    w <- this ;;
    returned <- pressHandles scenePos (scenePointsAbsolute w) 0 ;;
    if returned then ret false
    else
      w <- this ;;
      pressLines (toGridPoint (gridSize w) scenePos) (lineSegments w) 0 ;;
      ret false
  else ret true.

(** [mouseReleaseEvent]; [Item::mouseReleaseEvent] is the host's. *)
Definition mouseReleaseEvent (scenePos : QPointF) : M unit :=
  modify (set_pointToMoveIndex (-1)) ;;
  modify (set_lineSegmentToMoveIndex (-1)) ;;
  modify (fun w => set_prevMousePos (toGridPoint (gridSize w) scenePos) w).

(** The two loops of [hoverMoveEvent]. *)
Fixpoint hoverHandles (scenePos : QPointF) (points : list QPoint) : bool :=
  match points with
  | [] => false
  | p :: rest =>
      if SceneRect_contains (handleRect p) scenePos then true
      else hoverHandles scenePos rest
  end.

Fixpoint hoverLines (gridPos : QPoint) (ctrlPressed : bool) (lines : list Line)
  : option CursorChange :=
  match lines with
  | [] => None
  | line :: rest =>
      if containsPoint line gridPos 1 then
        Some (if isHorizontal line then setCursor SizeVerCursor
              else if isVertical line then setCursor SizeHorCursor
              else if ctrlPressed then setCursor SizeAllCursor
              else cursorKept)
      else hoverLines gridPos ctrlPressed rest
  end.

(** [hoverMoveEvent], given [isSelected()], whether the control key is held
    and [event->scenePos()]: it changes nothing of the wire but its cursor. *)
Definition hoverMoveEvent (selected ctrlPressed : bool) (scenePos : QPointF) (w : Wire)
  : CursorChange :=
  if negb selected then cursorKept
  else if hoverHandles scenePos (scenePointsAbsolute w) then setCursor SizeAllCursor
  else match hoverLines (toGridPoint (gridSize w) scenePos) ctrlPressed (lineSegments w) with
       | Some change => change
       | None => unsetCursor
       end.

End Host.

(** [operator-(const QVector2D&)]: both floats negated. *)
Definition QVector2D_neg (v : QVector2D) : QVector2D :=
  QVector2D_of_floats (Float.neg (vx v)) (Float.neg (vy v)).

(** A wire with rectangle up to date and given drag state. *)
Definition wireDragging (pts : list WirePoint) (pointIndex segmentIndex : Z) (prev : QPoint)
  : Wire :=
  mkWire pts (boundsOf pts 20) pointIndex segmentIndex prev origin 20.

(** The vector [mouseMoveEvent] moves a dragged segment by, in floats. *)
Definition moveLineByOf (line : Line) (curPos prev : QPoint) (ctrlPressed : bool)
  : QVector2D :=
  if isHorizontal line then mkQVector2D 0 (qy curPos - qy prev)
  else if isVertical line then mkQVector2D (qx curPos - qx prev) 0
  else if ctrlPressed then QVector2D_of_QPoint (QPoint_sub curPos prev)
  else mkQVector2D 0 0.

(** The grid vector by which [mouseMoveEvent] means to move a dragged
    segment: what [moveLineByOf] holds when its floats hold it exactly. *)
Definition dragDelta (line : Line) (curPos prev : QPoint) (ctrlPressed : bool) : QPoint :=
  if isHorizontal line then mkQPoint 0 (qy curPos - qy prev)
  else if isVertical line then mkQPoint (qx curPos - qx prev) 0
  else if ctrlPressed then QPoint_sub curPos prev
  else mkQPoint 0 0.

(** A wire in the middle of a drag of its vertical second segment, and one
    whose first segment is diagonal. *)
Definition draggedVertical : Wire :=
  wireDragging [mkWirePoint 0 0 false; mkWirePoint 4 0 false; mkWirePoint 4 3 false]
               (-1) 1 (mkQPoint 4 1).

Definition draggedDiagonal : Wire :=
  wireDragging [mkWirePoint 0 0 false; mkWirePoint 4 2 false; mkWirePoint 4 5 false]
               (-1) 0 (mkQPoint 2 1).

Definition draggedPoint : Wire :=
  wireDragging [mkWirePoint 0 0 false; mkWirePoint 4 2 false; mkWirePoint 4 5 false]
               1 (-1) (mkQPoint 4 2).

(** A host for the examples: scene coordinates are grid coordinates times
    the cell size, a scene position belongs to the grid point below and left
    of it, and a line holds the grid points of the rectangle it spans,
    widened by the tolerance. *)
Definition scaleToScene (cell : Z) (p : QPoint) : QPoint :=
  mkQPoint (qx p * cell) (qy p * cell).

Definition floorToGrid (cell : Z) (p : QPointF) : QPoint :=
  mkQPoint (Qfloor (fx p) / cell) (Qfloor (fy p) / cell).

Definition withinSpan (line : Line) (p : QPoint) (tolerance : Z) : bool :=
  (Z.min (qx (p1 line)) (qx (p2 line)) - tolerance <=? qx p) &&
  (qx p <=? Z.max (qx (p1 line)) (qx (p2 line)) + tolerance) &&
  (Z.min (qy (p1 line)) (qy (p2 line)) - tolerance <=? qy p) &&
  (qy p <=? Z.max (qy (p1 line)) (qy (p2 line)) + tolerance).

(** Scene positions of the examples, for [cornerWire]: next to the handle
    of its second point, on its second segment away from the handles, and
    away from the wire. *)
Definition nearSecondHandle : QPointF := mkQPointF (102 # 1) (-5 # 2).
Definition onSecondSegment : QPointF := mkQPointF (100 # 1) (50 # 1).
Definition awayFromWire : QPointF := mkQPointF (300 # 1) (300 # 1).
(** * Properties *)

(** ** Floats

    What the code relies on when it sends an [int] through a [QVector2D]:
    sums and differences that fit in 24 bits are exact, and so is the trip
    of an [int] within 2^23 of zero through a float and [qRound]. *)

Lemma digits2_pos_size (p : positive) : digits2_pos p = Pos.size p.
Proof. induction p; cbn; congruence. Qed.

Lemma size_iter_xO (p d : positive) : Pos.size (Pos.iter xO p d) = (Pos.size p + d)%positive.
Proof.
  induction d as [|d IH] using Pos.peano_ind.
  - cbn. lia.
  - rewrite Pos.iter_succ. cbn [Pos.size]. rewrite IH. lia.
Qed.

Lemma iter_xO_Z (p d : positive) : Zpos (Pos.iter xO p d) = Zpos p * 2 ^ Zpos d.
Proof.
  induction d as [|d IH] using Pos.peano_ind.
  - cbn. lia.
  - rewrite Pos.iter_succ, Pos2Z.inj_xO, IH, Pos2Z.inj_succ, Z.pow_succ_r by lia. lia.
Qed.

Lemma iter_pos_nat {A} (f : A -> A) (n : positive) (x : A) :
  SpecFloat.iter_pos f n x = Nat.iter (Pos.to_nat n) f x.
Proof.
  revert x. induction n as [n IH|n IH|]; intros x; cbn [SpecFloat.iter_pos].
  - rewrite !IH, Pos2Nat.inj_xI. cbn [Nat.mul]. rewrite Nat.add_0_r.
    rewrite <- Nat.iter_add. rewrite <- Nat.iter_succ_r. reflexivity.
  - rewrite !IH, Pos2Nat.inj_xO. cbn [Nat.mul]. rewrite Nat.add_0_r.
    rewrite <- Nat.iter_add. reflexivity.
  - reflexivity.
Qed.

Lemma shr_exact (q d : positive) :
  SpecFloat.iter_pos shr_1 d (Build_shr_record (Zpos (Pos.iter xO q d)) false false)
  = Build_shr_record (Zpos q) false false.
Proof.
  rewrite iter_pos_nat, Pos2Nat.inj_iter.
  induction (Pos.to_nat d) as [|n IH]; [reflexivity|].
  rewrite Nat.iter_succ_r. cbn [nat_rect shr_1 orb]. exact IH.
Qed.

Lemma shr_fexp_canonical (q : positive) (e : Z) (l : location) :
  Pos.size q = 24%positive -> -149 <= e ->
  shr_fexp 24 128 (Zpos q) e l = (shr_record_of_loc (Zpos q) l, e).
Proof.
  intros Hq He. unfold shr_fexp, Zdigits2. rewrite digits2_pos_size, Hq.
  unfold fexp, emin. replace (Z.max (24 + e - 24) (3 - 128 - 24) - e) with 0 by lia.
  reflexivity.
Qed.

Lemma binary_round_aux_tail (s : bool) (m : Z) (e0 : Z) (l : location) (q : positive) (e : Z) :
  Pos.size q = 24%positive -> -149 <= e <= 104 ->
  shr_fexp 24 128 m e0 l = (Build_shr_record (Zpos q) false false, e) ->
  binary_round_aux 24 128 s m e0 l = S754_finite s q e.
Proof.
  intros Hq He H. unfold binary_round_aux. rewrite H.
  cbn [shr_m loc_of_shr_record round_nearest_even].
  rewrite (shr_fexp_canonical q e loc_Exact Hq) by lia.
  cbn [shr_record_of_loc shr_m].
  replace (e <=? 128 - 24) with true by (symmetry; apply Z.leb_le; lia).
  reflexivity.
Qed.

Lemma binary_round_up (s : bool) (p q : positive) (e e' : Z) :
  Pos.size q = 24%positive -> -149 <= e' <= 104 -> e' <= e ->
  Zpos q = Zpos p * 2 ^ (e - e') ->
  binary_round 24 128 s p e = S754_finite s q e'.
Proof.
  intros Hq He' Hle Hv. unfold binary_round. rewrite digits2_pos_size.
  destruct (e - e') as [|d|d] eqn:Ed; try lia.
  - assert (e = e') by lia. subst e'. rewrite Z.pow_0_r, Z.mul_1_r in Hv.
    injection Hv as <-. rewrite Hq. unfold fexp, emin.
    replace (Z.max (24 + e - 24) (3 - 128 - 24)) with e by lia.
    unfold shl_align. rewrite Z.sub_diag.
    apply binary_round_aux_tail with (q := q) (e := e); try assumption.
    apply (shr_fexp_canonical q e loc_Exact Hq). lia.
  - rewrite <- iter_xO_Z in Hv. injection Hv as ->.
    rewrite size_iter_xO in Hq.
    assert (Hp : Zpos (Pos.size p) = 24 - Zpos d) by lia.
    rewrite Hp. unfold fexp, emin.
    replace (Z.max (24 - Z.pos d + e - 24) (3 - 128 - 24)) with e' by lia.
    unfold shl_align. replace (e' - e) with (Zneg d) by lia.
    apply binary_round_aux_tail with (q := Pos.iter xO p d) (e := e').
    + rewrite size_iter_xO. exact Hq.
    + exact He'.
    + apply shr_fexp_canonical; [rewrite size_iter_xO; exact Hq | lia].
Qed.

Lemma binary_round_down (s : bool) (p q : positive) (e e' : Z) :
  Pos.size q = 24%positive -> -149 <= e' <= 104 -> e < e' ->
  Zpos p = Zpos q * 2 ^ (e' - e) ->
  binary_round 24 128 s p e = S754_finite s q e'.
Proof.
  intros Hq He' Hlt Hv. unfold binary_round. rewrite digits2_pos_size.
  destruct (e' - e) as [|d|d] eqn:Ed; try lia.
  rewrite <- iter_xO_Z in Hv. injection Hv as ->.
  rewrite size_iter_xO, Hq. unfold fexp, emin.
  replace (Z.max (Z.pos (24 + d) + e - 24) (3 - 128 - 24)) with e' by lia.
  unfold shl_align. rewrite Ed.
  apply binary_round_aux_tail with (q := q) (e := e'); try assumption.
  unfold shr_fexp, Zdigits2. rewrite digits2_pos_size, size_iter_xO, Hq.
  unfold fexp, emin.
  replace (Z.max (Z.pos (24 + d) + e - 24) (3 - 128 - 24) - e) with (Zpos d) by lia.
  cbn [shr_record_of_loc shr]. rewrite shr_exact. f_equal. lia.
Qed.

Lemma size_bound (p : positive) : Zpos p < 2 ^ 24 -> (Pos.size p <= 24)%positive.
Proof.
  intros H. destruct (Pos.leb_spec (Pos.size p) 24) as [|Hgt]; [assumption|].
  pose proof (Pos.size_le p) as Hle.
  assert (H1 : 2 ^ Zpos (Pos.size p) <= Zpos p~0).
  { rewrite <- Pos2Z.inj_pow. apply Pos2Z.pos_le_pos. exact Hle. }
  assert (H2 : 2 ^ 25 <= 2 ^ Zpos (Pos.size p)) by (apply Z.pow_le_mono_r; lia).
  rewrite Pos2Z.inj_xO in H1. lia.
Qed.

(** The canonical form of the float for [p * 2^e], [p < 2^24], whatever the
    sign. *)
Lemma binary_round_small (p : positive) (e : Z) :
  Zpos p < 2 ^ 24 -> -100 <= e <= 100 ->
  exists q e',
    (forall s, binary_round 24 128 s p e = S754_finite s q e') /\
    Pos.size q = 24%positive /\ e - 23 <= e' <= e /\
    Zpos q = Zpos p * 2 ^ (e - e').
Proof.
  intros Hp He. pose proof (size_bound p Hp) as Hs.
  destruct (Pos.eq_dec (Pos.size p) 24) as [E|E].
  - exists p, e. split.
    + intros s. apply binary_round_up; try assumption; try lia. rewrite Z.sub_diag. cbn. lia.
    + rewrite Z.sub_diag. cbn. repeat split; try assumption; lia.
  - assert (Hd : (Pos.size p < 24)%positive) by lia.
    set (d := (24 - Pos.size p)%positive).
    assert (Hsz : Pos.size (Pos.iter xO p d) = 24%positive).
    { rewrite size_iter_xO. unfold d. lia. }
    exists (Pos.iter xO p d), (e - Zpos d).
    assert (Hv : Zpos (Pos.iter xO p d) = Zpos p * 2 ^ (e - (e - Zpos d))).
    { rewrite iter_xO_Z. f_equal. f_equal. lia. }
    split; [intros s; apply binary_round_up; try assumption; unfold d; lia|].
    split; [exact Hsz|]. split; [unfold d; lia | exact Hv].
Qed.

Lemma normalize_rep (z e : Z) :
  z <> 0 -> Z.abs z < 2 ^ 24 -> -100 <= e <= 100 ->
  exists q e',
    binary_normalize 24 128 z e false = S754_finite (z <? 0) q e' /\
    Pos.size q = 24%positive /\ e - 23 <= e' <= e /\
    Zpos q = Z.abs z * 2 ^ (e - e').
Proof.
  intros Hz Hlt He.
  destruct z as [|p|p]; [congruence| |]; cbn [binary_normalize Z.abs Z.ltb Z.compare] in *;
    destruct (binary_round_small p e Hlt He) as (q & e' & E & H);
    exists q, e'; (split; [apply E | exact H]).
Qed.

Lemma normalize_opp (z e : Z) :
  z <> 0 -> Z.abs z < 2 ^ 24 -> -100 <= e <= 100 ->
  SFopp (binary_normalize 24 128 z e false) = binary_normalize 24 128 (- z) e false.
Proof.
  intros Hz Hlt He.
  destruct z as [|p|p]; [congruence| |]; cbn [binary_normalize Z.abs Z.opp] in *;
    destruct (binary_round_small p e Hlt He) as (q & e' & E & _);
    rewrite !E; reflexivity.
Qed.

Lemma normalize_scaled (c e T : Z) :
  c <> 0 -> Z.abs c < 2 ^ 24 -> -100 <= e <= 100 -> 0 <= T <= 100 ->
  binary_normalize 24 128 (c * 2 ^ T) (e - T) false = binary_normalize 24 128 c e false.
Proof.
  intros Hc Hlt He HT.
  destruct (normalize_rep c e Hc Hlt He) as (q & e' & E & Hq & He' & Hv).
  rewrite E.
  assert (Hpow : 0 < 2 ^ T) by (apply Z.pow_pos_nonneg; lia).
  assert (G : forall (s : bool) (p pc : positive),
              Zpos pc = Z.abs c -> Zpos p = Zpos pc * 2 ^ T ->
              binary_round 24 128 s p (e - T) = S754_finite s q e').
  { intros s p pc Hpc Hp. rewrite <- Hpc in Hv.
    destruct (Z_le_gt_dec e' (e - T)) as [Hle|Hgt].
    - apply binary_round_up; try assumption; try lia.
      rewrite Hv, Hp, <- Z.mul_assoc, <- Z.pow_add_r by lia. f_equal. f_equal. lia.
    - apply binary_round_down; try assumption; try lia.
      rewrite Hv, Hp, <- Z.mul_assoc, <- Z.pow_add_r by lia. f_equal. f_equal. lia. }
  destruct c as [|pc|pc]; [congruence| |].
  - destruct (Zpos pc * 2 ^ T) as [|p|p] eqn:Ep; try lia.
    cbn [binary_normalize Z.ltb Z.compare]. apply (G false p pc); [reflexivity | lia].
  - destruct (Zneg pc * 2 ^ T) as [|p|p] eqn:Ep; try lia.
    cbn [binary_normalize Z.ltb Z.compare]. apply (G true p pc); [reflexivity | lia].
Qed.

Lemma shl_align_fst (q : positive) (ex ez : Z) :
  ez <= ex -> Zpos (fst (shl_align q ex ez)) = Zpos q * 2 ^ (ex - ez).
Proof.
  intros H. unfold shl_align. destruct (ez - ex) as [|d|d] eqn:E; try lia; cbn [fst].
  - replace (ex - ez) with 0 by lia. cbn. lia.
  - rewrite iter_xO_Z. f_equal. f_equal. lia.
Qed.

Lemma cond_Zopp_abs (z X : Z) : cond_Zopp (z <? 0) (Z.abs z * X) = z * X.
Proof. unfold cond_Zopp. destruct (Z.ltb_spec z 0); lia. Qed.

(** Sums and differences that a float holds are exact. *)
Lemma add_sub_exact (a b e : Z) :
  a <> 0 -> b <> 0 -> Z.abs a < 2 ^ 24 -> Z.abs b < 2 ^ 24 -> -50 <= e <= 50 ->
  (Z.abs (a + b) < 2 ^ 24 ->
   Float.add (binary_normalize 24 128 a e false) (binary_normalize 24 128 b e false)
   = binary_normalize 24 128 (a + b) e false) /\
  (Z.abs (a - b) < 2 ^ 24 ->
   Float.sub (binary_normalize 24 128 a e false) (binary_normalize 24 128 b e false)
   = binary_normalize 24 128 (a - b) e false).
Proof.
  intros Ha Hb Hla Hlb He.
  destruct (normalize_rep a e Ha Hla ltac:(lia)) as (qa & ea & Ea & Hqa & Hea & Hva).
  destruct (normalize_rep b e Hb Hlb ltac:(lia)) as (qb & eb & Eb & Hqb & Heb & Hvb).
  rewrite Ea, Eb. unfold Float.add, Float.sub, SFadd, SFsub, Float.prec, Float.emax.
  set (ez := Z.min ea eb).
  rewrite (shl_align_fst qa ea ez) by (unfold ez; lia).
  rewrite (shl_align_fst qb eb ez) by (unfold ez; lia).
  rewrite Hva, Hvb, <- !Z.mul_assoc, <- !Z.pow_add_r by (unfold ez; lia).
  replace (e - ea + (ea - ez)) with (e - ez) by lia.
  replace (e - eb + (eb - ez)) with (e - ez) by lia.
  rewrite !cond_Zopp_abs.
  assert (HT : 0 <= e - ez <= 100) by (unfold ez; lia).
  split; intros Hc.
  - rewrite <- Z.mul_add_distr_r.
    destruct (Z.eq_dec (a + b) 0) as [E0|E0]; [rewrite E0; reflexivity|].
    replace ez with (e - (e - ez)) at 2 by lia.
    apply normalize_scaled; try assumption; lia.
  - rewrite <- Z.mul_sub_distr_r.
    destruct (Z.eq_dec (a - b) 0) as [E0|E0]; [rewrite E0; reflexivity|].
    replace ez with (e - (e - ez)) at 2 by lia.
    apply normalize_scaled; try assumption; lia.
Qed.

Lemma int_of_float_int (n : Z) : Z.abs n < 2 ^ 24 -> int_of_float (float_of_int n) = n.
Proof.
  intros H. destruct (Z.eq_dec n 0) as [->|Hn]; [reflexivity|].
  unfold float_of_int, Float.prec, Float.emax.
  destruct (normalize_rep n 0 Hn H ltac:(lia)) as (q & e' & E & _ & He' & Hv).
  rewrite E. unfold int_of_float.
  assert (Hm : match e' with
               | 0 => Zpos q
               | Zpos k => Zpos q * 2 ^ Zpos k
               | Zneg k => Zpos q / 2 ^ Zpos k
               end = Z.abs n).
  { destruct e' as [|k|k]; try lia.
    rewrite Hv. replace (0 - Zneg k) with (Zpos k) by lia.
    apply Z.div_mul. apply Z.pow_nonzero; lia. }
  rewrite Hm. destruct (Z.ltb_spec n 0); lia.
Qed.

Lemma int_of_float_halves (h : Z) :
  0 < h < 2 ^ 24 -> int_of_float (binary_normalize 24 128 h (-1) false) = h / 2.
Proof.
  intros H.
  destruct (normalize_rep h (-1) ltac:(lia) ltac:(lia) ltac:(lia)) as (q & e' & E & _ & He' & Hv).
  rewrite E. unfold int_of_float.
  replace (h <? 0) with false by (symmetry; apply Z.ltb_ge; lia).
  destruct e' as [|k|k]; try lia.
  rewrite Hv, Z.abs_eq by lia.
  replace (Zpos k) with (1 + (-1 - Zneg k)) by lia.
  rewrite Z.pow_add_r by lia. change (2 ^ 1) with 2.
  apply Z.div_mul_cancel_r; [lia|]. apply Z.pow_nonzero; lia.
Qed.

(** An [int] within 2^23 of zero survives the trip through a float and
    [qRound]. *)
Lemma qRound_float_of_int (n : Z) : Z.abs n <= 2 ^ 23 -> qRound (float_of_int n) = n.
Proof.
  intros H.
  destruct (Z.eq_dec n 0) as [->|Hn]; [reflexivity|].
  destruct (Z.eq_dec n (2 ^ 23)) as [->|Hmax]; [vm_compute; reflexivity|].
  assert (Hlt : Z.abs n < 2 ^ 24) by lia.
  unfold qRound, float_of_int, Float.prec, Float.emax.
  destruct (normalize_rep n 0 Hn Hlt ltac:(lia)) as (q & e' & E & _).
  destruct (Z.ltb_spec n 0) as [Hneg|Hpos].
  - replace (Float.leb Float.zero (binary_normalize 24 128 n 0 false)) with false
      by (rewrite E; reflexivity).
    destruct (add_sub_exact n 1 0 Hn ltac:(lia) Hlt ltac:(lia) ltac:(lia)) as (_ & S1).
    rewrite (S1 ltac:(lia)).
    change (binary_normalize 24 128 (n - 1) 0 false) with (float_of_int (n - 1)).
    rewrite (int_of_float_int (n - 1)) by lia.
    destruct (add_sub_exact n (n - 1) 0 Hn ltac:(lia) Hlt ltac:(lia) ltac:(lia)) as (_ & S2).
    rewrite (S2 ltac:(lia)). replace (n - (n - 1)) with 1 by lia.
    change (int_of_float (Float.add (binary_normalize 24 128 1 0 false) half)) with 1. lia.
  - replace (Float.leb Float.zero (binary_normalize 24 128 n 0 false)) with true
      by (rewrite E; reflexivity).
    rewrite <- (normalize_scaled n 0 1 Hn Hlt ltac:(lia) ltac:(lia)).
    change (0 - 1) with (-1). change (2 ^ 1) with 2.
    change half with (binary_normalize 24 128 1 (-1) false).
    destruct (add_sub_exact (n * 2) 1 (-1) ltac:(lia) ltac:(lia) ltac:(lia) ltac:(lia) ltac:(lia))
      as (A1 & _).
    rewrite (A1 ltac:(lia)), int_of_float_halves by lia.
    replace (n * 2 + 1) with (1 + n * 2) by lia. rewrite Z.div_add by lia. reflexivity.
Qed.

Lemma qRound_neg_float_of_int (n : Z) :
  Z.abs n <= 2 ^ 23 -> qRound (Float.neg (float_of_int n)) = - n.
Proof.
  intros H. destruct (Z.eq_dec n 0) as [->|Hn]; [reflexivity|].
  unfold Float.neg, float_of_int, Float.prec, Float.emax.
  rewrite normalize_opp by lia.
  apply (qRound_float_of_int (- n)). lia.
Qed.

(** Beyond 2^23 the trip is no longer exact, and [qRound] rounds halves up,
    so that the rounding of [-d] is not minus the rounding of [d]. *)
Lemma qRound_inexact :
  qRound (float_of_int 8388609) = 8388610 /\
  qRound (float_of_int (-8388609)) = -8388609 /\
  qRound half = 1 /\
  qRound (Float.neg half) = 0.
Proof. vm_compute. repeat split. Qed.

Lemma toPoint2D_mkQVector2D (x y : Z) :
  Z.abs x <= 2 ^ 23 -> Z.abs y <= 2 ^ 23 -> toPoint2D (mkQVector2D x y) = mkQPoint x y.
Proof.
  intros Hx Hy. unfold toPoint2D, mkQVector2D. cbn [vx vy].
  rewrite !qRound_float_of_int by assumption. reflexivity.
Qed.

Lemma toPoint2D_neg_mkQVector2D (x y : Z) :
  Z.abs x <= 2 ^ 23 -> Z.abs y <= 2 ^ 23 ->
  toPoint2D (QVector2D_neg (mkQVector2D x y)) = mkQPoint (- x) (- y).
Proof.
  intros Hx Hy. unfold toPoint2D, QVector2D_neg, mkQVector2D. cbn [vx vy].
  rewrite !qRound_neg_float_of_int by assumption. reflexivity.
Qed.

(** ** Basic facts *)

Ltac run_wire :=
  unfold bind, ret, this, modify, emit, lift,
         prepareGeometryChange, Item_update, update, calculateBoundingRect;
  cbn [fst snd].

Lemma size_nonneg {T} (l : list T) : 0 <= QVector.size l.
Proof. unfold QVector.size. lia. Qed.

Lemma size_assign {T} (i : Z) (t : T) (l : list T) :
  0 <= i < QVector.size l -> QVector.size (QVector.assign i t l) = QVector.size l.
Proof.
  unfold QVector.size, QVector.assign. intros H.
  rewrite length_app. cbn [length]. rewrite length_firstn, length_skipn. lia.
Qed.

Lemma nth_assign_same {T} (i : Z) (t d : T) (l : list T) :
  0 <= i < QVector.size l -> nth (Z.to_nat i) (QVector.assign i t l) d = t.
Proof.
  unfold QVector.size, QVector.assign. intros H.
  rewrite app_nth2; rewrite length_firstn; [|lia].
  replace (Z.to_nat i - Nat.min (Z.to_nat i) (length l))%nat with 0%nat by lia.
  reflexivity.
Qed.

Lemma nth_assign_other {T} (i : Z) (j : nat) (t d : T) (l : list T) :
  0 <= i < QVector.size l -> j <> Z.to_nat i ->
  nth j (QVector.assign i t l) d = nth j l d.
Proof.
  unfold QVector.size, QVector.assign. intros H Hj.
  destruct (Nat.lt_ge_cases j (Z.to_nat i)) as [Hlt|Hge].
  - rewrite app_nth1 by (rewrite length_firstn; lia).
    rewrite <- (firstn_skipn (Z.to_nat i) l) at 2.
    rewrite app_nth1 by (rewrite length_firstn; lia). reflexivity.
  - rewrite app_nth2 by (rewrite length_firstn; lia).
    rewrite length_firstn.
    replace (Nat.min (Z.to_nat i) (length l)) with (Z.to_nat i) by lia.
    destruct (j - Z.to_nat i)%nat as [|m] eqn:E; [lia|].
    cbn [nth]. rewrite nth_skipn. f_equal. lia.
Qed.

(** ** Line segments (C9) *)

(** C9. The number of line segments [lineSegments] returns is
    [max(pointCount - 1, 0)]: none for an empty or one-point wire, one less
    than the number of points otherwise. *)
Theorem lineSegments_count (w : Wire) :
  QVector.size (lineSegments w) = Z.max (QVector.size (_points w) - 1) 0.
Proof.
  unfold lineSegments.
  destruct (QVector.size (_points w) <? 2) eqn:E.
  - apply Z.ltb_lt in E. pose proof (size_nonneg (_points w)).
    unfold QVector.size in *. cbn [length]. lia.
  - apply Z.ltb_ge in E. unfold QVector.size in *.
    rewrite length_map, length_seq. lia.
Qed.

(** ** Insertion out of range (C7) *)

(** C7. [insertPoint(index, point)] with [index < 0] or
    [index >= pointCount] returns at once: the wire is left exactly as it
    was (points, order, junction flags, bounding rectangle) and no signal
    is emitted.  [index = pointCount] is such an index: inserting at the
    end is refused, not treated as an append. *)
Theorem insertPoint_out_of_range (w : Wire) (index : Z) (point : QPoint) :
  index < 0 \/ index >= QVector.size (_points w) ->
  insertPoint index point w = Some (tt, w, []).
Proof.
  intros H. unfold insertPoint. run_wire.
  replace ((index <? 0) || (index >=? QVector.size (_points w))) with true; [reflexivity|].
  symmetry. apply orb_true_iff.
  destruct H as [H|H]; [left; apply Z.ltb_lt; lia | right; apply Z.geb_le; lia].
Qed.

Lemma insertPoint_out_of_range_witness :
  (2 < 0 \/ 2 >= QVector.size (_points twoPointWire)) /\
  insertPoint 2 (mkQPoint 9 9) twoPointWire = Some (tt, twoPointWire, []).
Proof.
  assert (H : 2 < 0 \/ 2 >= QVector.size (_points twoPointWire))
    by (right; vm_compute; discriminate).
  split; [exact H | exact (insertPoint_out_of_range twoPointWire 2 (mkQPoint 9 9) H)].
Defined.

(** ** Running the member functions *)

Lemma guard_in_range (index : Z) {T} (l : list T) :
  0 <= index < QVector.size l ->
  (index <? 0) || (index >? QVector.size l - 1) = false.
Proof.
  intros H. apply orb_false_iff. split; [apply Z.ltb_ge; lia|].
  rewrite Z.gtb_ltb. apply Z.ltb_ge. lia.
Qed.

Lemma guard_out_of_range (index : Z) {T} (l : list T) :
  index < 0 \/ index >= QVector.size l ->
  (index <? 0) || (index >? QVector.size l - 1) = true.
Proof.
  intros H. apply orb_true_iff. rewrite Z.gtb_ltb.
  destruct H; [left; apply Z.ltb_lt | right; apply Z.ltb_lt]; lia.
Qed.

Lemma prependPoint_run (w : Wire) (point : QPoint) :
  let w' := withPoints (WirePoint_of_QPoint (QPoint_sub point (gridPoint w)) :: _points w) w in
  prependPoint point w
  = Some (tt, w', [pointMoved w' (WirePoint_of_QPoint (QPoint_sub point (gridPoint w)))]).
Proof. reflexivity. Qed.

Lemma appendPoint_run (w : Wire) (point : QPoint) :
  let w' := withPoints (_points w ++ [WirePoint_of_QPoint (QPoint_sub point (gridPoint w))]) w in
  appendPoint point w
  = Some (tt, w', [pointMoved w' (WirePoint_of_QPoint (QPoint_sub point (gridPoint w)))]).
Proof.
  cbv zeta. unfold appendPoint. run_wire. unfold withPoints, QVector.append. cbn.
  rewrite last_last. reflexivity.
Qed.

Lemma insertPoint_in_range (w : Wire) (index : Z) (point : QPoint) :
  0 <= index < QVector.size (_points w) ->
  let p := WirePoint_of_QPoint (QPoint_sub point (gridPoint w)) in
  let w' := withPoints (QVector.insert index p (_points w)) w in
  insertPoint index point w = Some (tt, w', [pointMoved w' p]).
Proof.
  intros H. cbv zeta. unfold insertPoint. run_wire.
  replace ((index <? 0) || (index >=? QVector.size (_points w))) with false.
  2:{ symmetry. apply orb_false_iff. split; [apply Z.ltb_ge; lia|].
      rewrite Z.geb_leb. apply Z.leb_gt. lia. }
  unfold withPoints. cbn. do 4 f_equal.
  unfold QVector.insert, QVector.size in *.
  rewrite app_nth2; rewrite length_firstn; [|lia].
  replace (Z.to_nat index - Nat.min (Z.to_nat index) (length (_points w)))%nat with 0%nat by lia.
  reflexivity.
Qed.

Lemma removeFirstPoint_run (w : Wire) :
  removeFirstPoint w
  = Some (tt, match _points w with [] => w | _ :: rest => withPoints rest w end, []).
Proof.
  unfold removeFirstPoint. run_wire. destruct (_points w) eqn:E.
  - reflexivity.
  - unfold QVector.size. cbn [length].
    destruct (Z.of_nat (S (length l)) <=? 0) eqn:G; [apply Z.leb_le in G; lia|].
    unfold withPoints. cbn. rewrite E. reflexivity.
Qed.

Lemma removeLastPoint_run (w : Wire) :
  removeLastPoint w
  = Some (tt, match _points w with [] => w | _ => withPoints (removelast (_points w)) w end, []).
Proof.
  unfold removeLastPoint. run_wire. destruct (_points w) eqn:E.
  - reflexivity.
  - unfold QVector.size. cbn [length].
    destruct (Z.of_nat (S (length l)) <=? 0) eqn:G; [apply Z.leb_le in G; lia|].
    unfold withPoints. cbn. rewrite E. reflexivity.
Qed.

Lemma removePoint_run (w : Wire) (point : QPoint) :
  removePoint point w
  = Some (tt, withPoints (QVector.removeAll WirePoint_eqb
                            (WirePoint_of_QPoint (QPoint_sub point (gridPoint w))) (_points w)) w,
          []).
Proof. reflexivity. Qed.

Lemma movePointBy_in_range (w : Wire) (index : Z) (moveBy : QVector2D) :
  0 <= index < QVector.size (_points w) ->
  let w' := withPoints (QVector.assign index (movedBy moveBy (pointAt index w)) (_points w)) w in
  movePointBy index moveBy w = Some (tt, w', [pointMoved w' (movedBy moveBy (pointAt index w))]).
Proof.
  intros H. cbv zeta. unfold movePointBy. run_wire.
  rewrite (guard_in_range index (_points w) H).
  unfold withPoints, movedBy. cbn. do 4 f_equal.
  unfold pointAt at 1. cbn. apply nth_assign_same. exact H.
Qed.

Lemma movePointBy_out_of_range (w : Wire) (index : Z) (moveBy : QVector2D) :
  index < 0 \/ index >= QVector.size (_points w) ->
  movePointBy index moveBy w = Some (tt, w, []).
Proof.
  intros H. unfold movePointBy. run_wire.
  rewrite (guard_out_of_range index (_points w) H). reflexivity.
Qed.

Lemma movePointTo_in_range (w : Wire) (index : Z) (moveTo : QPoint) :
  0 <= index < QVector.size (_points w) ->
  let p := WirePoint_of_QPoint (QPoint_sub moveTo (gridPoint w)) in
  let w' := withPoints (QVector.assign index p (_points w)) w in
  movePointTo index moveTo w = Some (tt, w', [pointMoved w' p]).
Proof.
  intros H. cbv zeta. unfold movePointTo. run_wire.
  rewrite (guard_in_range index (_points w) H).
  unfold withPoints. cbn. do 4 f_equal.
  unfold pointAt. cbn. apply nth_assign_same. exact H.
Qed.

Lemma movePointTo_out_of_range (w : Wire) (index : Z) (moveTo : QPoint) :
  index < 0 \/ index >= QVector.size (_points w) ->
  movePointTo index moveTo w = Some (tt, w, []).
Proof.
  intros H. unfold movePointTo. run_wire.
  rewrite (guard_out_of_range index (_points w) H). reflexivity.
Qed.

Lemma setPointIsJunction_in_range (w : Wire) (index : Z) (b : bool) :
  0 <= index < QVector.size (_points w) ->
  setPointIsJunction index b w
  = Some (tt, withPoints (QVector.assign index (setIsJunction b (pointAt index w)) (_points w)) w, []).
Proof.
  intros H. unfold setPointIsJunction. run_wire.
  rewrite (guard_in_range index (_points w) H). reflexivity.
Qed.

Lemma setPointIsJunction_out_of_range (w : Wire) (index : Z) (b : bool) :
  index < 0 \/ index >= QVector.size (_points w) ->
  setPointIsJunction index b w = Some (tt, w, []).
Proof.
  intros H. unfold setPointIsJunction. run_wire.
  rewrite (guard_out_of_range index (_points w) H). reflexivity.
Qed.

(** ** Positions and the bounding rectangle *)

Lemma toPoint_movedBy (moveBy : QVector2D) (p : WirePoint) :
  toPoint (movedBy moveBy p) = QPoint_add (toPoint p) (toPoint2D moveBy).
Proof. reflexivity. Qed.

Lemma toPoint_setIsJunction (b : bool) (p : WirePoint) :
  toPoint (setIsJunction b p) = toPoint p.
Proof. reflexivity. Qed.

Lemma map_assign {A B} (f : A -> B) (i : Z) (t : A) (l : list A) :
  map f (QVector.assign i t l) = QVector.assign i (f t) (map f l).
Proof.
  unfold QVector.assign. rewrite map_app. cbn [map].
  rewrite firstn_map, skipn_map. reflexivity.
Qed.

Lemma assign_nth_self {T} (i : Z) (d : T) (l : list T) :
  0 <= i < QVector.size l -> QVector.assign i (nth (Z.to_nat i) l d) l = l.
Proof.
  unfold QVector.size, QVector.assign. intros H.
  assert (Hlt : (Z.to_nat i < length l)%nat) by lia.
  revert Hlt. generalize (Z.to_nat i) as n. clear H.
  induction l as [|x l IH]; intros n Hn; cbn in Hn; [lia|].
  destruct n as [|n]; [reflexivity|].
  cbn [firstn nth skipn app]. f_equal. apply IH. lia.
Qed.

Lemma positions_setIsJunction (w : Wire) (index : Z) (b : bool) :
  0 <= index < QVector.size (_points w) ->
  positions (QVector.assign index (setIsJunction b (pointAt index w)) (_points w))
  = positions (_points w).
Proof.
  intros H. unfold positions. rewrite map_assign, toPoint_setIsJunction.
  unfold pointAt.
  rewrite <- (map_nth toPoint).
  apply assign_nth_self. unfold QVector.size in *. rewrite length_map. exact H.
Qed.

Lemma topLeftOf_positions (l1 l2 : list WirePoint) :
  positions l1 = positions l2 -> topLeftOf l1 = topLeftOf l2.
Proof.
  unfold topLeftOf. generalize (INT_MAX, INT_MAX).
  revert l2. induction l1 as [|a l1 IH]; intros [|b l2] acc H; cbn in H; try discriminate.
  - reflexivity.
  - injection H as Hx Hy Hrest. cbn [fold_left]. rewrite Hx, Hy. apply IH. exact Hrest.
Qed.

Lemma bottomRightOf_positions (l1 l2 : list WirePoint) :
  positions l1 = positions l2 -> bottomRightOf l1 = bottomRightOf l2.
Proof.
  unfold bottomRightOf. generalize (INT_MIN, INT_MIN).
  revert l2. induction l1 as [|a l1 IH]; intros [|b l2] acc H; cbn in H; try discriminate.
  - reflexivity.
  - injection H as Hx Hy Hrest. cbn [fold_left]. rewrite Hx, Hy. apply IH. exact Hrest.
Qed.

Lemma boundsOf_positions (l1 l2 : list WirePoint) (cell : Z) :
  positions l1 = positions l2 -> boundsOf l1 cell = boundsOf l2 cell.
Proof.
  intros H. unfold boundsOf.
  rewrite (topLeftOf_positions l1 l2 H), (bottomRightOf_positions l1 l2 H). reflexivity.
Qed.

Lemma pointAt_withPoints (j : Z) (pts : list WirePoint) (w : Wire) :
  pointAt j (withPoints pts w) = nth (Z.to_nat j) pts (mkWirePoint 0 0 false).
Proof. reflexivity. Qed.

(** ** Junction flags (C10) *)

(** C10 (amended).  For an index in range, [setPointIsJunction(index, b)]
    sets the junction flag of the point at [index] and nothing else of the
    point list: the number of points, every position, the order and the
    other points are as before, and no signal is emitted.  It then calls
    [update()], which recomputes the stored bounding rectangle from the
    (unchanged) positions: the rectangle is the same as before whenever it
    was up to date before the call, and is brought up to date otherwise. *)
Theorem setPointIsJunction_frame (w : Wire) (index : Z) (b : bool) :
  0 <= index < QVector.size (_points w) ->
  exists w',
    setPointIsJunction index b w = Some (tt, w', []) /\
    QVector.size (_points w') = QVector.size (_points w) /\
    positions (_points w') = positions (_points w) /\
    isJunction (pointAt index w') = b /\
    (forall j, 0 <= j -> j <> index -> pointAt j w' = pointAt j w) /\
    _rect w' = boundsOf (_points w) (gridSize w) /\
    (boundsCurrent w -> _rect w' = _rect w) /\
    gridPoint w' = gridPoint w /\ gridSize w' = gridSize w /\
    _pointToMoveIndex w' = _pointToMoveIndex w /\
    _lineSegmentToMoveIndex w' = _lineSegmentToMoveIndex w /\
    _prevMousePos w' = _prevMousePos w.
Proof.
  intros H. eexists. split; [apply setPointIsJunction_in_range; exact H|].
  pose proof (positions_setIsJunction w index b H) as Hpos.
  assert (Hrect : boundsOf (QVector.assign index (setIsJunction b (pointAt index w)) (_points w))
                           (gridSize w) = boundsOf (_points w) (gridSize w))
    by (apply boundsOf_positions; exact Hpos).
  repeat split; try reflexivity.
  - apply size_assign; exact H.
  - exact Hpos.
  - rewrite pointAt_withPoints, nth_assign_same by exact H. reflexivity.
  - intros j Hj Hne. rewrite pointAt_withPoints. unfold pointAt.
    apply nth_assign_other; [exact H | lia].
  - exact Hrect.
  - intros Hcur. unfold boundsCurrent in Hcur. rewrite Hcur. exact Hrect.
Qed.

Lemma setPointIsJunction_frame_witness :
  0 <= 1 < QVector.size (_points twoPointWire) /\
  exists w',
    setPointIsJunction 1 false twoPointWire = Some (tt, w', []) /\
    QVector.size (_points w') = QVector.size (_points twoPointWire) /\
    positions (_points w') = positions (_points twoPointWire) /\
    isJunction (pointAt 1 w') = false /\
    (forall j, 0 <= j -> j <> 1 -> pointAt j w' = pointAt j twoPointWire) /\
    _rect w' = boundsOf (_points twoPointWire) (gridSize twoPointWire) /\
    (boundsCurrent twoPointWire -> _rect w' = _rect twoPointWire) /\
    gridPoint w' = gridPoint twoPointWire /\ gridSize w' = gridSize twoPointWire /\
    _pointToMoveIndex w' = _pointToMoveIndex twoPointWire /\
    _lineSegmentToMoveIndex w' = _lineSegmentToMoveIndex twoPointWire /\
    _prevMousePos w' = _prevMousePos twoPointWire.
Proof.
  assert (H : 0 <= 1 < QVector.size (_points twoPointWire)) by (unfold QVector.size; cbn; lia).
  split; [exact H | exact (setPointIsJunction_frame twoPointWire 1 false H)].
Defined.

(** The wire that was given (0,0), (5,5), (0,0), (0,0) and has had its
    duplicates removed holds the single point (0,0), with the rectangle of
    the four points still stored. *)
Lemma dedupedWire_state :
  _points dedupedWire = [mkWirePoint 0 0 false] /\
  _rect dedupedWire = mkQRectF 0 0 100 100.
Proof. vm_compute. split; reflexivity. Qed.

(** C10, as stated, fails: on that wire, setting the junction flag of its
    only point changes the stored bounding rectangle. *)
Lemma setPointIsJunction_changes_stale_rect :
  0 <= 0 < QVector.size (_points dedupedWire) /\
  _rect (wireAfter (setPointIsJunction 0 true) dedupedWire) = mkQRectF 0 0 0 0 /\
  _rect dedupedWire = mkQRectF 0 0 100 100 /\
  _rect (wireAfter (setPointIsJunction 0 true) dedupedWire) <> _rect dedupedWire.
Proof. vm_compute. repeat split; discriminate. Qed.

(** ** Moving a line segment (C1) *)

Lemma moveLineSegmentBy_out_of_range (w : Wire) (index : Z) (moveBy : QVector2D) :
  index < 0 \/ index >= QVector.size (_points w) ->
  moveLineSegmentBy index moveBy w = Some (tt, w, []).
Proof.
  intros H. unfold moveLineSegmentBy. run_wire.
  rewrite (guard_out_of_range index (_points w) H). reflexivity.
Qed.

(** Past the guard, [moveLineSegmentBy] is its two calls in sequence. *)
Lemma moveLineSegmentBy_in_guard (w : Wire) (index : Z) (moveBy : QVector2D) :
  0 <= index < QVector.size (_points w) ->
  moveLineSegmentBy index moveBy w
  = (movePointBy index moveBy ;; movePointBy (index + 1) moveBy) w.
Proof.
  intros H. unfold moveLineSegmentBy. unfold bind at 1. unfold this.
  rewrite (guard_in_range index (_points w) H).
  destruct ((movePointBy index moveBy;; movePointBy (index + 1) moveBy) w)
    as [[[[] w'] s]|]; reflexivity.
Qed.

(** For the index of the last point, which is not the index of a segment,
    the guard lets the call through: the last point moves, alone. *)
Lemma moveLineSegmentBy_last_index (w : Wire) (index : Z) (moveBy : QVector2D) :
  0 <= index -> index = QVector.size (_points w) - 1 ->
  moveLineSegmentBy index moveBy w = movePointBy index moveBy w.
Proof.
  intros H0 Hi.
  assert (H : 0 <= index < QVector.size (_points w)) by lia.
  rewrite moveLineSegmentBy_in_guard by exact H. unfold bind.
  rewrite (movePointBy_in_range w index moveBy H). cbv zeta.
  rewrite movePointBy_out_of_range; [rewrite app_nil_r; reflexivity|].
  right. unfold withPoints. cbn [_points set_rect set_points].
  rewrite size_assign by exact H. lia.
Qed.

(** What [moveLineSegmentBy] does for the index of a segment, with the two
    wires it goes through made explicit. *)
Lemma moveLineSegmentBy_segment (w : Wire) (index : Z) (moveBy : QVector2D) :
  0 <= index <= QVector.size (_points w) - 2 ->
  let w1 := afterMove index moveBy w in
  let w2 := afterMove (index + 1) moveBy w1 in
  movePointBy index moveBy w = Some (tt, w1, [pointMoved w1 (pointAt index w1)]) /\
  movePointBy (index + 1) moveBy w1
    = Some (tt, w2, [pointMoved w2 (pointAt (index + 1) w2)]) /\
  moveLineSegmentBy index moveBy w
    = Some (tt, w2, [pointMoved w1 (pointAt index w1);
                     pointMoved w2 (pointAt (index + 1) w2)]) /\
  QVector.size (_points w2) = QVector.size (_points w) /\
  pointAt index w2 = movedBy moveBy (pointAt index w) /\
  pointAt (index + 1) w2 = movedBy moveBy (pointAt (index + 1) w) /\
  (forall j, 0 <= j -> j <> index -> j <> index + 1 -> pointAt j w2 = pointAt j w) /\
  pointAt index w1 = movedBy moveBy (pointAt index w) /\
  pointAt (index + 1) w1 = pointAt (index + 1) w.
Proof.
  intros H. cbv zeta.
  assert (H0 : 0 <= index < QVector.size (_points w)) by lia.
  pose proof (movePointBy_in_range w index moveBy H0) as E1. cbv zeta in E1.
  fold (afterMove index moveBy w) in E1.
  set (w1 := afterMove index moveBy w) in *.
  assert (Hsz1 : QVector.size (_points w1) = QVector.size (_points w))
    by (apply size_assign; exact H0).
  assert (H1 : 0 <= index + 1 < QVector.size (_points w1)) by lia.
  pose proof (movePointBy_in_range w1 (index + 1) moveBy H1) as E2. cbv zeta in E2.
  fold (afterMove (index + 1) moveBy w1) in E2.
  set (w2 := afterMove (index + 1) moveBy w1) in *.
  assert (P1 : pointAt index w1 = movedBy moveBy (pointAt index w))
    by (unfold w1, afterMove; rewrite pointAt_withPoints; apply nth_assign_same; exact H0).
  assert (P1' : pointAt (index + 1) w1 = pointAt (index + 1) w)
    by (unfold w1, afterMove; rewrite pointAt_withPoints; unfold pointAt;
        apply nth_assign_other; [exact H0 | lia]).
  assert (P2 : pointAt (index + 1) w2 = movedBy moveBy (pointAt (index + 1) w))
    by (unfold w2, afterMove; rewrite pointAt_withPoints, nth_assign_same by exact H1;
        rewrite P1'; reflexivity).
  assert (P2' : pointAt index w2 = movedBy moveBy (pointAt index w))
    by (unfold w2, afterMove; rewrite pointAt_withPoints;
        rewrite nth_assign_other by (try exact H1; lia); exact P1).
  repeat split.
  - rewrite E1, P1. reflexivity.
  - rewrite E2, P2, P1'. reflexivity.
  - rewrite moveLineSegmentBy_in_guard by exact H0.
    unfold bind. rewrite E1, E2, P1, P2, P1'. reflexivity.
  - unfold w2, afterMove. cbn [withPoints _points set_rect set_points].
    rewrite size_assign by exact H1. exact Hsz1.
  - exact P2'.
  - exact P2.
  - intros j Hj Hn1 Hn2. unfold w2, afterMove. rewrite pointAt_withPoints.
    rewrite nth_assign_other by (try exact H1; lia).
    change (nth (Z.to_nat j) (_points w1) (mkWirePoint 0 0 false)) with (pointAt j w1).
    unfold w1, afterMove. rewrite pointAt_withPoints. unfold pointAt.
    apply nth_assign_other; [exact H0 | lia].
  - exact P1.
  - exact P1'.
Qed.

(** C1 (amended).  [moveLineSegmentBy(index, moveBy)] returns at once, the
    wire untouched and no signal emitted, when [index < 0] or
    [index >= pointCount].  For the index of a segment,
    [0 <= index <= pointCount - 2], it is [movePointBy(index, moveBy)]
    followed by [movePointBy(index + 1, moveBy)]: when it returns both end
    points of the segment have moved by [moveBy] and every other point is as
    before; each of the two calls emits [pointMoved], and the receivers of
    the first signal are handed the wire with the point at [index] moved and
    the point at [index + 1] not yet moved. *)
Theorem moveLineSegmentBy_spec (w : Wire) (index : Z) (moveBy : QVector2D) :
  (index < 0 \/ index >= QVector.size (_points w) ->
   moveLineSegmentBy index moveBy w = Some (tt, w, [])) /\
  (0 <= index <= QVector.size (_points w) - 2 ->
   exists w1 w2,
     movePointBy index moveBy w = Some (tt, w1, [pointMoved w1 (pointAt index w1)]) /\
     movePointBy (index + 1) moveBy w1
       = Some (tt, w2, [pointMoved w2 (pointAt (index + 1) w2)]) /\
     moveLineSegmentBy index moveBy w
       = Some (tt, w2, [pointMoved w1 (pointAt index w1);
                        pointMoved w2 (pointAt (index + 1) w2)]) /\
     QVector.size (_points w2) = QVector.size (_points w) /\
     pointAt index w2 = movedBy moveBy (pointAt index w) /\
     pointAt (index + 1) w2 = movedBy moveBy (pointAt (index + 1) w) /\
     (forall j, 0 <= j -> j <> index -> j <> index + 1 -> pointAt j w2 = pointAt j w) /\
     pointAt index w1 = movedBy moveBy (pointAt index w) /\
     pointAt (index + 1) w1 = pointAt (index + 1) w).
Proof.
  split; [apply moveLineSegmentBy_out_of_range|].
  intros H. exists (afterMove index moveBy w), (afterMove (index + 1) moveBy (afterMove index moveBy w)).
  exact (moveLineSegmentBy_segment w index moveBy H).
Qed.

Lemma moveLineSegmentBy_spec_witness :
  0 <= 0 <= QVector.size (_points twoPointWire) - 2 /\
  exists w1 w2,
    moveLineSegmentBy 0 (mkQVector2D 0 1) twoPointWire
      = Some (tt, w2, [pointMoved w1 (pointAt 0 w1); pointMoved w2 (pointAt (0 + 1) w2)]) /\
    pointAt 0 w2 = movedBy (mkQVector2D 0 1) (pointAt 0 twoPointWire) /\
    pointAt (0 + 1) w2 = movedBy (mkQVector2D 0 1) (pointAt (0 + 1) twoPointWire).
Proof.
  assert (H : 0 <= 0 <= QVector.size (_points twoPointWire) - 2)
    by (unfold QVector.size; cbn; lia).
  split; [exact H|].
  destruct (proj2 (moveLineSegmentBy_spec twoPointWire 0 (mkQVector2D 0 1)) H)
    as (w1 & w2 & _ & _ & E & _ & A & B & _).
  exists w1, w2. repeat split; assumption.
Defined.

(** C1, as stated, fails twice on the wire [(0,0), (4,0)] moved by (0,1).
    For segment 0, the first of the two signals hands its receivers the
    wire with the first end point at (0,1) and the second still at (4,0).
    For index 1, which is [pointCount - 1] and not the index of a segment,
    the call is not a no-op: the last point moves to (4,1). *)
Lemma moveLineSegmentBy_not_atomic_nor_guarded :
  (exists w1 p rest,
     signalsOf (moveLineSegmentBy 0 (mkQVector2D 0 1)) twoPointWire = pointMoved w1 p :: rest /\
     positions (_points twoPointWire) = [mkQPoint 0 0; mkQPoint 4 0] /\
     positions (_points w1) = [mkQPoint 0 1; mkQPoint 4 0]) /\
  ~ (0 <= 1 <= QVector.size (_points twoPointWire) - 2) /\
  positions (_points (wireAfter (moveLineSegmentBy 1 (mkQVector2D 0 1)) twoPointWire))
  = [mkQPoint 0 0; mkQPoint 4 1].
Proof.
  split; [|split].
  - vm_compute. do 3 eexists. repeat split.
  - unfold QVector.size. cbn. lia.
  - vm_compute. reflexivity.
Qed.

(** ** Signals (C3) *)

Lemma withPoints_withPoints (p q : list WirePoint) (w : Wire) :
  withPoints p (withPoints q w) = withPoints p w.
Proof. reflexivity. Qed.

Lemma removePoints_run (pointsToRemove : list WirePoint) (w : Wire) :
  removePoints pointsToRemove w
  = Some (tt,
          match pointsToRemove with
          | [] => w
          | _ => withPoints (removeAllPoints (gridPoint w) pointsToRemove (_points w)) w
          end,
          []).
Proof.
  revert w. induction pointsToRemove as [|point rest IH]; intros w; [reflexivity|].
  cbn [removePoints]. unfold bind. rewrite removePoint_run, IH.
  destruct rest; reflexivity.
Qed.

Lemma removeObsoletePoints_run (w : Wire) :
  removeObsoletePoints w
  = if QVector.size (_points w) <? 3 then Some (0, w, [])
    else Some (QVector.size (obsoletePoints (_points w)),
               match obsoletePoints (_points w) with
               | [] => w
               | _ => withPoints (removeAllPoints (gridPoint w) (obsoletePoints (_points w))
                                    (_points w)) w
               end,
               []).
Proof.
  unfold removeObsoletePoints. unfold bind at 1. unfold this.
  destruct (QVector.size (_points w) <? 3); [reflexivity|].
  unfold bind. rewrite removePoints_run. reflexivity.
Qed.

Lemma removeDuplicatePoints_run (w : Wire) :
  removeDuplicatePoints w
  = match removeRounds (S (length (_points w))) (_points w) 0 with
    | Some (pts, removedCount) => Some (removedCount, set_points pts w, [])
    | None => None
    end.
Proof.
  unfold removeDuplicatePoints. run_wire.
  destruct (removeRounds (S (length (_points w))) (_points w) 0) as [[pts n]|]; reflexivity.
Qed.

(** C3 (amended).  A [pointMoved] signal, carrying the wire and the point
    concerned as it is stored after the change, is emitted by every
    insertion ([prependPoint], [appendPoint], [insertPoint] in range) and by
    every move of a point in range ([movePointBy], [movePointTo]).  The
    removals ([removeFirstPoint], [removeLastPoint], [removePoint],
    [removeDuplicatePoints], [removeObsoletePoints]) and
    [setPointIsJunction] emit no signal. *)
Theorem pointMoved_emitted (w : Wire) (index : Z) (point : QPoint)
        (moveBy : QVector2D) (b : bool) :
  (exists w', prependPoint point w = Some (tt, w', [pointMoved w' (pointAt 0 w')])) /\
  (exists w', appendPoint point w
              = Some (tt, w', [pointMoved w' (pointAt (QVector.size (_points w') - 1) w')])) /\
  (0 <= index < QVector.size (_points w) ->
   (exists w', insertPoint index point w = Some (tt, w', [pointMoved w' (pointAt index w')])) /\
   (exists w', movePointBy index moveBy w = Some (tt, w', [pointMoved w' (pointAt index w')])) /\
   (exists w', movePointTo index point w = Some (tt, w', [pointMoved w' (pointAt index w')]))) /\
  signalsOf removeFirstPoint w = [] /\
  signalsOf removeLastPoint w = [] /\
  signalsOf (removePoint point) w = [] /\
  signalsOf removeDuplicatePoints w = [] /\
  signalsOf removeObsoletePoints w = [] /\
  signalsOf (setPointIsJunction index b) w = [].
Proof.
  split; [|split; [|split; [|repeat split]]].
  - exists (withPoints (WirePoint_of_QPoint (QPoint_sub point (gridPoint w)) :: _points w) w).
    rewrite prependPoint_run. reflexivity.
  - eexists. rewrite appendPoint_run. cbv zeta. do 4 f_equal.
    unfold pointAt, withPoints, QVector.size. cbn [_points set_rect set_points].
    rewrite length_app. cbn [length].
    replace (Z.to_nat (Z.of_nat (length (_points w) + 1) - 1)) with (length (_points w)) by lia.
    rewrite app_nth2 by lia. rewrite Nat.sub_diag. reflexivity.
  - intros H. split; [|split]; eexists.
    + rewrite (insertPoint_in_range w index point H). cbv zeta. do 4 f_equal.
      rewrite pointAt_withPoints. unfold QVector.insert, QVector.size in *.
      rewrite app_nth2; rewrite length_firstn; [|lia].
      replace (Z.to_nat index - Nat.min (Z.to_nat index) (length (_points w)))%nat
        with 0%nat by lia.
      reflexivity.
    + rewrite (movePointBy_in_range w index moveBy H). cbv zeta. do 4 f_equal.
      rewrite pointAt_withPoints, nth_assign_same by exact H. reflexivity.
    + rewrite (movePointTo_in_range w index point H). cbv zeta. do 4 f_equal.
      rewrite pointAt_withPoints, nth_assign_same by exact H. reflexivity.
  - unfold signalsOf. rewrite removeFirstPoint_run. reflexivity.
  - unfold signalsOf. rewrite removeLastPoint_run. reflexivity.
  - unfold signalsOf. rewrite removeDuplicatePoints_run.
    destruct (removeRounds _ _ _) as [[pts n]|]; reflexivity.
  - unfold signalsOf. rewrite removeObsoletePoints_run.
    destruct (_ <? 3); reflexivity.
  - unfold signalsOf.
    destruct (Z_lt_ge_dec index 0) as [Hneg|Hpos];
      [rewrite setPointIsJunction_out_of_range by (left; exact Hneg); reflexivity|].
    destruct (Z_lt_ge_dec index (QVector.size (_points w))) as [Hlt|Hge].
    + rewrite setPointIsJunction_in_range by lia. reflexivity.
    + rewrite setPointIsJunction_out_of_range by (right; exact Hge). reflexivity.
Qed.

Lemma pointMoved_emitted_witness :
  0 <= 1 < QVector.size (_points twoPointWire) /\
  (exists w', insertPoint 1 (mkQPoint 2 0) twoPointWire
              = Some (tt, w', [pointMoved w' (pointAt 1 w')])) /\
  (exists w', movePointBy 1 (mkQVector2D 0 3) twoPointWire
              = Some (tt, w', [pointMoved w' (pointAt 1 w')])) /\
  (exists w', movePointTo 1 (mkQPoint 2 0) twoPointWire
              = Some (tt, w', [pointMoved w' (pointAt 1 w')])).
Proof.
  assert (H : 0 <= 1 < QVector.size (_points twoPointWire))
    by (unfold QVector.size; cbn; lia).
  split; [exact H|].
  destruct (pointMoved_emitted twoPointWire 1 (mkQPoint 2 0) (mkQVector2D 0 3) true)
    as (_ & _ & Hin & _).
  exact (Hin H).
Defined.

(** C3, as stated, fails: [removeFirstPoint] on the wire [(0,0), (4,0)]
    removes a point and [setPointIsJunction] changes a flag, and neither
    emits a signal. *)
Lemma mutations_without_signal :
  _points (wireAfter removeFirstPoint twoPointWire) = [mkWirePoint 4 0 true] /\
  signalsOf removeFirstPoint twoPointWire = [] /\
  _points (wireAfter (setPointIsJunction 0 true) twoPointWire)
  = [mkWirePoint 0 0 true; mkWirePoint 4 0 true] /\
  _points twoPointWire = [mkWirePoint 0 0 false; mkWirePoint 4 0 true] /\
  signalsOf (setPointIsJunction 0 true) twoPointWire = [].
Proof. vm_compute. repeat split. Qed.

(** ** Dragging a horizontal segment (C8) *)

Lemma QPoint_add_zero (p : QPoint) : QPoint_add p (mkQPoint 0 0) = p.
Proof. destruct p as [x y]. unfold QPoint_add. cbn. f_equal; lia. Qed.

Lemma at_lineSegments (w : Wire) (i : Z) (line : Line) :
  QVector.at_ i (lineSegments w) = Some line ->
  0 <= i <= QVector.size (_points w) - 2 /\
  line = mkLine (QPoint_add (gridPoint w) (toPoint (pointAt i w)))
                (QPoint_add (gridPoint w) (toPoint (pointAt (i + 1) w))).
Proof.
  unfold QVector.at_, lineSegments. intros H.
  destruct (i <? 0) eqn:Hi; [discriminate|]. apply Z.ltb_ge in Hi.
  destruct (QVector.size (_points w) <? 2) eqn:Hs.
  - destruct (Z.to_nat i); discriminate.
  - rewrite nth_error_map, nth_error_seq in H.
    destruct (Z.to_nat i <? Z.to_nat (QVector.size (_points w) - 1))%nat eqn:Hb;
      [|discriminate].
    apply Nat.ltb_lt in Hb. cbn in H. injection H as <-.
    rewrite Z2Nat.id by lia. split; [lia | reflexivity].
Qed.

Lemma positions_afterMove_zero (w : Wire) (index : Z) :
  0 <= index < QVector.size (_points w) ->
  positions (_points (afterMove index (mkQVector2D 0 0) w)) = positions (_points w).
Proof.
  intros H. unfold afterMove, withPoints. cbn [_points set_rect set_points].
  unfold positions. rewrite map_assign, toPoint_movedBy.
  change (toPoint2D (mkQVector2D 0 0)) with (mkQPoint 0 0). rewrite QPoint_add_zero.
  unfold pointAt. rewrite <- (map_nth toPoint).
  apply assign_nth_self. unfold QVector.size in *. rewrite length_map. exact H.
Qed.



(** ** Obsolete points (C4, C5) *)

Lemma WirePoint_eqb_eq (a b : WirePoint) :
  WirePoint_eqb a b = true <-> toPoint a = toPoint b.
Proof.
  unfold WirePoint_eqb, toPoint. rewrite andb_true_iff, !Z.eqb_eq. split.
  - intros [-> ->]. reflexivity.
  - intros H. injection H. auto.
Qed.

Lemma WirePoint_eqb_refl (a : WirePoint) : WirePoint_eqb a a = true.
Proof. apply WirePoint_eqb_eq. reflexivity. Qed.

Lemma WirePoint_eqb_origin (x p : WirePoint) :
  WirePoint_eqb x (WirePoint_of_QPoint (QPoint_sub (toPoint p) origin)) = WirePoint_eqb x p.
Proof.
  unfold WirePoint_eqb, WirePoint_of_QPoint, QPoint_sub, toPoint, origin. cbn.
  rewrite !Z.sub_0_r. reflexivity.
Qed.

Lemma filter_filter {T} (f g : T -> bool) (l : list T) :
  filter f (filter g l) = filter (fun x => g x && f x) l.
Proof.
  induction l as [|x l IH]; [reflexivity|]. cbn.
  destruct (g x); cbn; [destruct (f x)|]; rewrite IH; reflexivity.
Qed.

(** On a wire at the origin, removing each of [m] by [removePoint] leaves
    the points that sit at none of the positions of [m]. *)
Lemma removeAllPoints_origin (m pts : list WirePoint) :
  removeAllPoints origin m pts = filter (fun p => negb (positionIn m p)) pts.
Proof.
  revert pts. induction m as [|q m IH]; intros pts.
  - cbn. induction pts as [|x pts IHp]; [reflexivity|]. cbn. f_equal. exact IHp.
  - unfold removeAllPoints in *. cbn [fold_left]. rewrite IH.
    unfold QVector.removeAll. rewrite filter_filter. apply filter_ext.
    intros x. rewrite WirePoint_eqb_origin. unfold positionIn. cbn [existsb].
    rewrite negb_orb. reflexivity.
Qed.

Lemma Subseq_nil_l {T} (l : list T) : Subseq [] l.
Proof. induction l; constructor; assumption. Qed.

Lemma Subseq_In {T} (m l : list T) : Subseq m l -> forall x, In x m -> In x l.
Proof.
  induction 1 as [|x m l _ IH|x m l _ IH]; intros y Hy.
  - exact Hy.
  - right. apply IH. exact Hy.
  - destruct Hy as [->|Hy]; [left; reflexivity | right; apply IH; exact Hy].
Qed.

(** The obsolete points are interior points of the sequence, in order. *)
Lemma obsoletePoints_Subseq_tl (pts : list WirePoint) :
  Subseq (obsoletePoints pts) (tl pts).
Proof.
  induction pts as [|a rest IH]; [constructor|].
  destruct rest as [|b [|c rest']]; cbn [obsoletePoints tl]; try apply Subseq_nil_l.
  cbn [tl] in IH.
  destruct (sameDirection _ _).
  - apply Subseq_take. exact IH.
  - apply Subseq_skip. exact IH.
Qed.

Lemma obsoletePoints_Subseq (pts : list WirePoint) : Subseq (obsoletePoints pts) pts.
Proof.
  destruct pts as [|a rest]; [constructor|].
  apply Subseq_skip. exact (obsoletePoints_Subseq_tl (a :: rest)).
Qed.

Lemma filter_length_mono {T} (f g : T -> bool) (l : list T) :
  (forall x, f x = true -> g x = true) ->
  (length (filter f l) <= length (filter g l))%nat.
Proof.
  intros H. induction l as [|x l IH]; [apply Nat.le_refl|]. cbn.
  destruct (f x) eqn:E.
  - rewrite (H x E). cbn. lia.
  - destruct (g x); cbn; lia.
Qed.

(** Removing by position removes at least the points chosen... *)
Lemma Subseq_positionIn_ge (m l : list WirePoint) :
  Subseq m l -> (length m <= length (filter (positionIn m) l))%nat.
Proof.
  induction 1 as [|x m l _ IH|x m l _ IH].
  - apply Nat.le_refl.
  - cbn. destruct (positionIn m x); cbn; lia.
  - cbn [filter]. unfold positionIn at 1. cbn [existsb].
    rewrite WirePoint_eqb_refl. cbn [orb length].
    apply le_n_S. etransitivity; [exact IH|].
    apply filter_length_mono. intros y Hy. unfold positionIn in *. cbn [existsb].
    rewrite Hy. apply orb_true_r.
Qed.

Lemma positionIn_false (m l : list WirePoint) (x : WirePoint) :
  Subseq m l -> ~ In (toPoint x) (positions l) -> positionIn m x = false.
Proof.
  intros Hs Hx. unfold positionIn.
  destruct (existsb (fun q => WirePoint_eqb x q) m) eqn:E; [|reflexivity].
  exfalso. apply existsb_exists in E. destruct E as (q & Hq & Hqe).
  apply Hx. apply WirePoint_eqb_eq in Hqe. rewrite Hqe.
  unfold positions. apply in_map. exact (Subseq_In m l Hs q Hq).
Qed.

(** ... and no more than those when no two points share a position. *)
Lemma Subseq_positionIn_eq (m l : list WirePoint) :
  Subseq m l -> NoDup (positions l) ->
  length (filter (positionIn m) l) = length m.
Proof.
  induction 1 as [|x m l Hs IH|x m l Hs IH]; intros Hnd.
  - reflexivity.
  - cbn [positions map] in Hnd. apply NoDup_cons_iff in Hnd. destruct Hnd as [Hx Hnd].
    cbn [filter]. rewrite (positionIn_false m l x Hs Hx). apply IH. exact Hnd.
  - cbn [positions map] in Hnd. apply NoDup_cons_iff in Hnd. destruct Hnd as [Hx Hnd].
    cbn [filter]. unfold positionIn at 1. cbn [existsb].
    rewrite WirePoint_eqb_refl. cbn [orb length]. f_equal.
    rewrite <- (IH Hnd). f_equal. apply filter_ext_in.
    intros y Hy. unfold positionIn. cbn [existsb].
    destruct (WirePoint_eqb y x) eqn:E; [|reflexivity].
    exfalso. apply Hx. apply WirePoint_eqb_eq in E. rewrite <- E.
    unfold positions. apply in_map. exact Hy.
Qed.

Lemma filter_all {T} (l : list T) : filter (fun _ => true) l = l.
Proof. induction l as [|x l IH]; [reflexivity|]. cbn. f_equal. exact IH. Qed.

(** What [removeObsoletePoints] does.  With fewer than three points it
    returns 0 and leaves the wire as it is.  With three or more, the points
    to remove are chosen in one pass over the sequence as it is on entry,
    before anything is removed, and the value returned is the number of
    points chosen.  They are then removed by position, each through
    [removePoint], which removes every point at that position: on a wire at
    the origin the points left are those at none of the chosen positions,
    so the number of points actually removed is at least the value
    returned, and equal to it when no two points of the wire share a
    position. *)
Lemma removeObsoletePoints_spec (w : Wire) :
  (QVector.size (_points w) < 3 -> removeObsoletePoints w = Some (0, w, [])) /\
  (3 <= QVector.size (_points w) ->
   let pointsToRemove := obsoletePoints (_points w) in
   exists w',
     removeObsoletePoints w = Some (QVector.size pointsToRemove, w', []) /\
     Subseq pointsToRemove (_points w) /\
     _points w' = removeAllPoints (gridPoint w) pointsToRemove (_points w) /\
     (gridPoint w = origin ->
      _points w' = filter (fun p => negb (positionIn pointsToRemove p)) (_points w) /\
      QVector.size pointsToRemove <= QVector.size (_points w) - QVector.size (_points w') /\
      (NoDup (positions (_points w)) ->
       QVector.size pointsToRemove = QVector.size (_points w) - QVector.size (_points w')))).
Proof.
  split.
  - intros H. rewrite removeObsoletePoints_run.
    apply Z.ltb_lt in H. rewrite H. reflexivity.
  - intros H pointsToRemove.
    pose proof (obsoletePoints_Subseq (_points w)) as Hsub. fold pointsToRemove in Hsub.
    exists (match pointsToRemove with
            | [] => w
            | _ => withPoints (removeAllPoints (gridPoint w) pointsToRemove (_points w)) w
            end).
    assert (Hpts : _points (match pointsToRemove with
                            | [] => w
                            | _ => withPoints (removeAllPoints (gridPoint w) pointsToRemove
                                                 (_points w)) w
                            end)
                   = removeAllPoints (gridPoint w) pointsToRemove (_points w))
      by (destruct pointsToRemove; reflexivity).
    split; [|split; [exact Hsub | split; [exact Hpts|]]].
    + rewrite removeObsoletePoints_run.
      apply Z.ltb_ge in H. rewrite H. reflexivity.
    + intros Ho. rewrite Hpts, Ho, removeAllPoints_origin.
      pose proof (filter_length (positionIn pointsToRemove) (_points w)) as Hlen.
      pose proof (Subseq_positionIn_ge _ _ Hsub) as Hge.
      unfold QVector.size. repeat split.
      * lia.
      * intros Hnd. pose proof (Subseq_positionIn_eq _ _ Hsub Hnd) as Heq. lia.
Qed.

(** C5.  On a wire at the origin that ends on its own first segment one
    point is chosen, the interior point at (1,0), and 1 is returned; but the
    removal goes by position, so two points are removed: that point and the
    end point of the wire, which is the middle of no triple. *)
Theorem removeObsoletePoints_loopWire :
  gridPoint loopWire = origin /\
  positions (_points loopWire)
  = [mkQPoint 0 0; mkQPoint 1 0; mkQPoint 2 0; mkQPoint 2 1; mkQPoint 1 1; mkQPoint 1 0] /\
  obsoletePoints (_points loopWire) = [mkWirePoint 1 0 false] /\
  resultOf removeObsoletePoints loopWire = Some 1 /\
  positions (_points (wireAfter removeObsoletePoints loopWire))
  = [mkQPoint 0 0; mkQPoint 2 0; mkQPoint 2 1; mkQPoint 1 1] /\
  QVector.size (_points loopWire)
  - QVector.size (_points (wireAfter removeObsoletePoints loopWire)) = 2.
Proof. vm_compute. repeat split. Qed.

(** The two examples of the collinearity test, on wires at the origin. *)
Lemma removeObsoletePoints_straightWire :
  removeObsoletePoints straightWire
  = Some (1, wireOf origin [mkWirePoint 0 0 false; mkWirePoint 0 10 false], []).
Proof. vm_compute. reflexivity. Qed.

Lemma removeObsoletePoints_cornerWire :
  removeObsoletePoints cornerWire = Some (0, cornerWire, []).
Proof. vm_compute. reflexivity. Qed.

(** C4.  The same three points on a wire whose item sits at grid position
    (1,0): (0,5) is chosen and 1 is returned, but [removePoint] is handed
    the stored (item-relative) position and subtracts [gridPoint()] from it
    once more, so it looks for (-1,5) and removes nothing. *)
Theorem removeObsoletePoints_straightWireMoved :
  gridPoint straightWireMoved = mkQPoint 1 0 /\
  positions (_points straightWireMoved) = [mkQPoint 0 0; mkQPoint 0 5; mkQPoint 0 10] /\
  obsoletePoints (_points straightWireMoved) = [mkWirePoint 0 5 false] /\
  removeObsoletePoints straightWireMoved = Some (1, straightWireMoved, []).
Proof. vm_compute. repeat split. Qed.

(** *** The direction test *)

Lemma In_gridSteps (a : Z) : 1 <= Z.abs a <= 64 -> In a gridSteps.
Proof.
  intros H. unfold gridSteps. apply filter_In. split.
  - apply in_map_iff. exists (Z.to_nat (a + 64)). split; [lia|]. apply in_seq. lia.
  - apply negb_true_iff, Z.eqb_neq. lia.
Qed.

Lemma axisTests_all (test : Z -> Z -> bool) :
  forallb (fun a => forallb (test a) gridSteps) gridSteps = true ->
  forall a b, 1 <= Z.abs a <= 64 -> 1 <= Z.abs b <= 64 -> test a b = true.
Proof.
  intros H a b Ha Hb.
  rewrite forallb_forall in H. specialize (H a (In_gridSteps a Ha)).
  rewrite forallb_forall in H. exact (H b (In_gridSteps b Hb)).
Qed.

(** Along the axes, for steps of up to 64 cells: neighbours that turn back
    are never chosen... *)
Lemma sameDirection_opposite (a b : Z) :
  1 <= Z.abs a <= 64 -> 1 <= Z.abs b <= 64 -> a * b < 0 ->
  sameDirection (mkQVector2D a 0) (mkQVector2D b 0) = false /\
  sameDirection (mkQVector2D 0 a) (mkQVector2D 0 b) = false.
Proof.
  intros Ha Hb Hab.
  pose proof (axisTests_all
                (fun a b => (0 <=? a * b) ||
                            (negb (sameDirection (mkQVector2D a 0) (mkQVector2D b 0)) &&
                             negb (sameDirection (mkQVector2D 0 a) (mkQVector2D 0 b))))
                ltac:(vm_compute; reflexivity) a b Ha Hb) as H.
  cbv beta in H. replace (0 <=? a * b) with false in H by (symmetry; apply Z.leb_gt; exact Hab).
  cbn [orb] in H. apply andb_true_iff in H. destruct H as [H1 H2].
  apply negb_true_iff in H1, H2. split; assumption.
Qed.

(** ... nor are orthogonal ones... *)
Lemma sameDirection_orthogonal (a b : Z) :
  1 <= Z.abs a <= 64 -> 1 <= Z.abs b <= 64 ->
  sameDirection (mkQVector2D a 0) (mkQVector2D 0 b) = false /\
  sameDirection (mkQVector2D 0 a) (mkQVector2D b 0) = false.
Proof.
  intros Ha Hb.
  pose proof (axisTests_all
                (fun a b => negb (sameDirection (mkQVector2D a 0) (mkQVector2D 0 b)) &&
                            negb (sameDirection (mkQVector2D 0 a) (mkQVector2D b 0)))
                ltac:(vm_compute; reflexivity) a b Ha Hb) as H.
  cbv beta in H. apply andb_true_iff in H. destruct H as [H1 H2].
  apply negb_true_iff in H1, H2. split; assumption.
Qed.

(** ... while neighbours that go the same way always are. *)
Lemma sameDirection_collinear (a b : Z) :
  1 <= Z.abs a <= 64 -> 1 <= Z.abs b <= 64 -> 0 < a * b ->
  sameDirection (mkQVector2D a 0) (mkQVector2D b 0) = true /\
  sameDirection (mkQVector2D 0 a) (mkQVector2D 0 b) = true.
Proof.
  intros Ha Hb Hab.
  pose proof (axisTests_all
                (fun a b => (a * b <=? 0) ||
                            (sameDirection (mkQVector2D a 0) (mkQVector2D b 0) &&
                             sameDirection (mkQVector2D 0 a) (mkQVector2D 0 b)))
                ltac:(vm_compute; reflexivity) a b Ha Hb) as H.
  cbv beta in H. replace (a * b <=? 0) with false in H by (symmetry; apply Z.leb_gt; exact Hab).
  cbn [orb] in H. apply andb_true_iff in H. exact H.
Qed.

(** Off the axes the rounding of the floats decides near the tolerance:
    the angle between (1,0) and (671,3) is smaller than the one between
    (1,0) and (1563,7), and yet only the second pair passes. *)
Lemma sameDirection_near_tolerance :
  sameDirection (mkQVector2D 1 0) (mkQVector2D 671 3) = false /\
  sameDirection (mkQVector2D 1 0) (mkQVector2D 1563 7) = true.
Proof. vm_compute. split; reflexivity. Qed.

(** A point is chosen only as the middle one of three consecutive points
    that pass the test. *)
Lemma obsoletePoints_In (pts : list WirePoint) (wp2 : WirePoint) :
  In wp2 (obsoletePoints pts) ->
  exists front wp1 wp3 back,
    pts = front ++ wp1 :: wp2 :: wp3 :: back /\
    sameDirection (QVector2D_of_QPoint (QPoint_sub (toPoint wp2) (toPoint wp1)))
                  (QVector2D_of_QPoint (QPoint_sub (toPoint wp3) (toPoint wp2))) = true.
Proof.
  induction pts as [|a rest IH]; [intros []|].
  destruct rest as [|b [|c rest']]; cbn [obsoletePoints]; try (intros []).
  destruct (sameDirection _ _) eqn:E.
  - intros [<-|Hin].
    + exists [], a, c, rest'. split; [reflexivity | exact E].
    + destruct (IH Hin) as (front & wp1 & wp3 & back & Hpts & Hs).
      exists (a :: front), wp1, wp3, back. split; [cbn; rewrite Hpts; reflexivity | exact Hs].
  - intros Hin.
    destruct (IH Hin) as (front & wp1 & wp3 & back & Hpts & Hs).
    exists (a :: front), wp1, wp3, back. split; [cbn; rewrite Hpts; reflexivity | exact Hs].
Qed.

(** ** Duplicate removal (C2, C6) *)

Lemma indexOf_lt (t : WirePoint) (l : list WirePoint) (i : nat) :
  QVector.indexOf WirePoint_eqb t l = Some i -> (i < length l)%nat.
Proof.
  revert i. induction l as [|x l IH]; intros i H; [discriminate|].
  cbn in H. destruct (WirePoint_eqb x t).
  - injection H as <-. cbn. lia.
  - destruct (QVector.indexOf WirePoint_eqb t l) as [j|]; [|discriminate].
    injection H as <-. specialize (IH j eq_refl). cbn. lia.
Qed.

Lemma count_pos_indexOf (t : WirePoint) (l : list WirePoint) :
  0 < QVector.count WirePoint_eqb t l ->
  exists i, QVector.indexOf WirePoint_eqb t l = Some i.
Proof.
  unfold QVector.count. induction l as [|x l IH]; cbn; [lia|].
  destruct (WirePoint_eqb x t); [intros _; eexists; reflexivity|].
  intros H. destruct (IH H) as [i ->]. eexists; reflexivity.
Qed.

Lemma length_remove {T} (i : nat) (l : list T) :
  (i < length l)%nat -> S (length (QVector.remove i l)) = length l.
Proof.
  intros H. unfold QVector.remove.
  rewrite length_app, length_firstn, length_skipn. lia.
Qed.

Lemma removeOne_len (t : WirePoint) (s : Slots) :
  (len (snd (removeOne t s)) <= len s <= S (len (snd (removeOne t s))))%nat.
Proof.
  unfold removeOne, len.
  destruct (QVector.indexOf WirePoint_eqb t (elements s)) as [i|] eqn:E; cbn; [|lia].
  pose proof (length_remove i (elements s) (indexOf_lt _ _ _ E)). lia.
Qed.

Lemma removeOne_found (t : WirePoint) (s : Slots) :
  0 < QVector.count WirePoint_eqb t (elements s) ->
  S (len (snd (removeOne t s))) = len s.
Proof.
  intros H. destruct (count_pos_indexOf _ _ H) as [i E].
  unfold removeOne, len. rewrite E. cbn.
  apply length_remove. exact (indexOf_lt _ _ _ E).
Qed.

Lemma removeRepeatedly_len (n k : nat) (s : Slots) (r : Z) :
  (len (fst (removeRepeatedly n k s r)) <= len s)%nat /\
  Z.of_nat (len s) - Z.of_nat (len (fst (removeRepeatedly n k s r)))
  <= snd (removeRepeatedly n k s r) - r.
Proof.
  revert s r. induction n as [|n IH]; intros s r; cbn [removeRepeatedly fst snd]; [lia|].
  specialize (IH (snd (removeOne (slot k s) s)) (r + 1)).
  pose proof (removeOne_len (slot k s) s). lia.
Qed.

Lemma visitSlot_len (k : nat) (s : Slots) (r : Z) :
  (len (fst (visitSlot k s r)) <= len s)%nat /\
  Z.of_nat (len s) - Z.of_nat (len (fst (visitSlot k s r))) <= snd (visitSlot k s r) - r.
Proof.
  unfold visitSlot. destruct (_ >? 1); [apply removeRepeatedly_len | cbn; lia].
Qed.

Lemma visitSlot_shrinks (k : nat) (s : Slots) (r : Z) :
  QVector.count WirePoint_eqb (slot k s) (elements s) > 1 ->
  (len (fst (visitSlot k s r)) < len s)%nat.
Proof.
  intros H. unfold visitSlot.
  replace (QVector.count WirePoint_eqb (slot k s) (elements s) >? 1) with true
    by (symmetry; rewrite Z.gtb_ltb; apply Z.ltb_lt; lia).
  destruct (Z.to_nat (QVector.count WirePoint_eqb (slot k s) (elements s) - 1)) as [|n] eqn:E;
    [lia|].
  cbn [removeRepeatedly].
  pose proof (removeOne_found (slot k s) s ltac:(lia)) as Hf.
  pose proof (removeRepeatedly_len n k (snd (removeOne (slot k s) s)) (r + 1)) as [Hl _].
  lia.
Qed.

Lemma visitSlot_unchanged (k : nat) (s : Slots) (r : Z) :
  QVector.count WirePoint_eqb (slot k s) (elements s) <= 1 ->
  visitSlot k s r = (s, r).
Proof.
  intros H. unfold visitSlot.
  replace (QVector.count WirePoint_eqb (slot k s) (elements s) >? 1) with false
    by (symmetry; rewrite Z.gtb_ltb; apply Z.ltb_ge; lia).
  reflexivity.
Qed.

Lemma visitSlots_len (todo k : nat) (s : Slots) (r : Z) :
  (len (fst (visitSlots todo k s r)) <= len s)%nat /\
  Z.of_nat (len s) - Z.of_nat (len (fst (visitSlots todo k s r)))
  <= snd (visitSlots todo k s r) - r.
Proof.
  revert k s r. induction todo as [|todo IH]; intros k s r; cbn [visitSlots fst snd]; [lia|].
  pose proof (visitSlot_len k s r) as Hv.
  destruct (visitSlot k s r) as [s' r']. cbn [fst snd] in Hv.
  specialize (IH (S k) s' r'). lia.
Qed.

Lemma visitSlots_shrinks (todo k : nat) (s : Slots) (r : Z) (j : nat) :
  (k <= j < k + todo)%nat ->
  QVector.count WirePoint_eqb (slot j s) (elements s) > 1 ->
  (len (fst (visitSlots todo k s r)) < len s)%nat.
Proof.
  revert k s r. induction todo as [|todo IH]; intros k s r Hj Hc; [lia|].
  cbn [visitSlots].
  destruct (Z_le_gt_dec (QVector.count WirePoint_eqb (slot k s) (elements s)) 1) as [Hle|Hgt].
  - rewrite (visitSlot_unchanged k s r Hle).
    apply IH; [|exact Hc].
    destruct (Nat.eq_dec j k) as [->|Hne]; [lia|lia].
  - pose proof (visitSlot_shrinks k s r Hgt) as Hs.
    destruct (visitSlot k s r) as [s' r']. cbn [fst] in Hs.
    pose proof (visitSlots_len todo (S k) s' r') as [Hl _]. lia.
Qed.

Lemma visitSlots_unchanged (todo k : nat) (s : Slots) (r : Z) :
  (forall j, (k <= j < k + todo)%nat ->
             QVector.count WirePoint_eqb (slot j s) (elements s) <= 1) ->
  visitSlots todo k s r = (s, r).
Proof.
  revert k. induction todo as [|todo IH]; intros k H; [reflexivity|].
  cbn [visitSlots]. rewrite (visitSlot_unchanged k s r) by (apply H; lia).
  apply IH. intros j Hj. apply H. lia.
Qed.

Lemma slot_fresh (j : nat) (pts : list WirePoint) :
  slot j (mkSlots pts []) = nth j pts (mkWirePoint 0 0 false).
Proof. unfold slot. cbn. rewrite app_nil_r. reflexivity. Qed.

Lemma allUnique_true (pts : list WirePoint) :
  allUnique pts = true <->
  forall p, In p pts -> QVector.count WirePoint_eqb p pts <= 1.
Proof.
  unfold allUnique. rewrite forallb_forall. split; intros H p Hp; specialize (H p Hp).
  - apply negb_true_iff in H. rewrite Z.gtb_ltb in H. apply Z.ltb_ge in H. exact H.
  - apply negb_true_iff. rewrite Z.gtb_ltb. apply Z.ltb_ge. exact H.
Qed.

Lemma allUnique_false (pts : list WirePoint) :
  allUnique pts = false ->
  exists p, In p pts /\ QVector.count WirePoint_eqb p pts > 1.
Proof.
  unfold allUnique. intros H.
  assert (G : forall whole l,
             forallb (fun point => negb (QVector.count WirePoint_eqb point whole >? 1)) l = false ->
             exists p, In p l /\ QVector.count WirePoint_eqb p whole > 1).
  { intros whole l. induction l as [|x l IH]; intros Hl; [discriminate|].
    cbn [forallb] in Hl. apply andb_false_iff in Hl. destruct Hl as [Hl|Hl].
    - exists x. split; [left; reflexivity|].
      apply negb_false_iff in Hl. rewrite Z.gtb_ltb in Hl. apply Z.ltb_lt in Hl. lia.
    - destruct (IH Hl) as (p & Hp & Hc). exists p. split; [right; exact Hp | exact Hc]. }
  exact (G pts pts H).
Qed.

(** A round over points that are all different changes nothing. *)
Lemma removeRound_unique (pts : list WirePoint) (r : Z) :
  allUnique pts = true -> removeRound pts r = (pts, r).
Proof.
  intros H. unfold removeRound.
  rewrite visitSlots_unchanged; [reflexivity|].
  intros j Hj. rewrite slot_fresh. cbn [elements].
  apply (proj1 (allUnique_true pts) H). apply nth_In. lia.
Qed.

(** A round over points with a duplicate removes a point. *)
Lemma removeRound_shrinks (pts : list WirePoint) (r : Z) :
  allUnique pts = false -> (length (fst (removeRound pts r)) < length pts)%nat.
Proof.
  intros H. destruct (allUnique_false pts H) as (p & Hp & Hc).
  destruct (In_nth pts p (mkWirePoint 0 0 false) Hp) as (j & Hj & Hnth).
  pose proof (visitSlots_shrinks (length pts) 0 (mkSlots pts []) r j ltac:(lia)) as Hs.
  rewrite slot_fresh, Hnth in Hs. specialize (Hs Hc).
  unfold removeRound. destruct (visitSlots _ _ _ _) as [s r']. exact Hs.
Qed.

Lemma removeRound_len (pts : list WirePoint) (r : Z) :
  (length (fst (removeRound pts r)) <= length pts)%nat /\
  Z.of_nat (length pts) - Z.of_nat (length (fst (removeRound pts r)))
  <= snd (removeRound pts r) - r.
Proof.
  pose proof (visitSlots_len (length pts) 0 (mkSlots pts []) r) as H.
  unfold removeRound. destruct (visitSlots _ _ _ _) as [s r']. exact H.
Qed.

(** The do-while loop ends within the rounds it is given: with points that
    are all different, having removed no more points than it counted. *)
Lemma removeRounds_returns (fuel : nat) (pts : list WirePoint) (r : Z) :
  (length pts < fuel)%nat ->
  exists pts' r',
    removeRounds fuel pts r = Some (pts', r') /\
    allUnique pts' = true /\
    (length pts' <= length pts)%nat /\
    Z.of_nat (length pts) - Z.of_nat (length pts') <= r' - r.
Proof.
  revert pts r. induction fuel as [|fuel IH]; intros pts r Hf; [lia|].
  cbn [removeRounds].
  pose proof (removeRound_len pts r) as [Hl Hr].
  destruct (removeRound pts r) as [pts1 r1] eqn:E. cbn [fst snd] in Hl, Hr.
  destruct (allUnique pts1) eqn:U.
  - exists pts1, r1. repeat split; assumption.
  - assert (Hlt : (length pts1 < length pts)%nat).
    { destruct (allUnique pts) eqn:U0.
      - rewrite (removeRound_unique pts r U0) in E. injection E as <- <-. congruence.
      - pose proof (removeRound_shrinks pts r U0) as Hs. rewrite E in Hs. exact Hs. }
    destruct (IH pts1 r1 ltac:(lia)) as (pts' & r' & E' & U' & Hl' & Hr').
    exists pts', r'. repeat split; try assumption; lia.
Qed.

Lemma Subseq_refl {T} (l : list T) : Subseq l l.
Proof. induction l; constructor; assumption. Qed.

Lemma Subseq_trans {T} (a b c : list T) : Subseq a b -> Subseq b c -> Subseq a c.
Proof.
  intros Hab Hbc. revert a Hab.
  induction Hbc as [|x b c _ IH|x b c _ IH]; intros a Hab.
  - exact Hab.
  - apply Subseq_skip. apply IH. exact Hab.
  - inversion Hab as [|y a' b' Ha|y a' b' Ha]; subst.
    + apply Subseq_skip. apply IH. exact Ha.
    + apply Subseq_take. apply IH. exact Ha.
Qed.

Lemma Subseq_remove {T} (i : nat) (l : list T) : Subseq (QVector.remove i l) l.
Proof.
  unfold QVector.remove. revert i. induction l as [|x l IH]; intros i.
  - destruct i; constructor.
  - destruct i as [|i]; cbn [firstn skipn app].
    + apply Subseq_skip. apply Subseq_refl.
    + apply Subseq_take. apply IH.
Qed.

Lemma removeOne_Subseq (t : WirePoint) (s : Slots) :
  Subseq (elements (snd (removeOne t s))) (elements s).
Proof.
  unfold removeOne. destruct (QVector.indexOf _ _ _); cbn [snd elements].
  - apply Subseq_remove.
  - apply Subseq_refl.
Qed.

Lemma removeRepeatedly_Subseq (n k : nat) (s : Slots) (r : Z) :
  Subseq (elements (fst (removeRepeatedly n k s r))) (elements s).
Proof.
  revert s r. induction n as [|n IH]; intros s r; cbn [removeRepeatedly fst].
  - apply Subseq_refl.
  - eapply Subseq_trans; [apply IH | apply removeOne_Subseq].
Qed.

Lemma visitSlots_Subseq (todo k : nat) (s : Slots) (r : Z) :
  Subseq (elements (fst (visitSlots todo k s r))) (elements s).
Proof.
  revert k s r. induction todo as [|todo IH]; intros k s r; cbn [visitSlots fst].
  - apply Subseq_refl.
  - assert (Hv : Subseq (elements (fst (visitSlot k s r))) (elements s)).
    { unfold visitSlot. destruct (_ >? 1); [apply removeRepeatedly_Subseq | apply Subseq_refl]. }
    destruct (visitSlot k s r) as [s' r']. cbn [fst] in Hv.
    eapply Subseq_trans; [apply IH | exact Hv].
Qed.

Lemma removeRounds_Subseq (fuel : nat) (pts pts' : list WirePoint) (r r' : Z) :
  removeRounds fuel pts r = Some (pts', r') -> Subseq pts' pts.
Proof.
  revert pts r. induction fuel as [|fuel IH]; intros pts r H; [discriminate|].
  cbn [removeRounds] in H.
  assert (Hs : Subseq (fst (removeRound pts r)) pts).
  { pose proof (visitSlots_Subseq (length pts) 0 (mkSlots pts []) r) as Hv.
    unfold removeRound. destruct (visitSlots _ _ _ _) as [s r1]. exact Hv. }
  destruct (removeRound pts r) as [pts1 r1]. cbn [fst] in Hs.
  destruct (allUnique pts1).
  - injection H as <- <-. exact Hs.
  - eapply Subseq_trans; [exact (IH _ _ H) | exact Hs].
Qed.

Lemma count_le_cons (p x : WirePoint) (l : list WirePoint) :
  QVector.count WirePoint_eqb p l <= QVector.count WirePoint_eqb p (x :: l).
Proof. unfold QVector.count. cbn. destruct (WirePoint_eqb x p); cbn [length]; lia. Qed.

Lemma count_zero_not_In (a : WirePoint) (l : list WirePoint) :
  QVector.count WirePoint_eqb a l = 0 -> ~ In (toPoint a) (positions l).
Proof.
  unfold QVector.count, positions. induction l as [|x l IH]; intros H; [intros []|].
  cbn in H. destruct (WirePoint_eqb x a) eqn:E; [cbn in H; lia|].
  intros [Hx|Hin]; [|exact (IH H Hin)].
  assert (WirePoint_eqb x a = true) by (apply WirePoint_eqb_eq; exact Hx). congruence.
Qed.

(** Points that pass the second loop of [removeDuplicatePoints] have
    pairwise different positions. *)
Lemma allUnique_NoDup (pts : list WirePoint) :
  allUnique pts = true -> NoDup (positions pts).
Proof.
  rewrite allUnique_true. induction pts as [|a l IH]; intros H; [constructor|].
  cbn [positions map]. constructor.
  - apply count_zero_not_In.
    pose proof (H a (or_introl eq_refl)) as Ha.
    unfold QVector.count in *. cbn in Ha. rewrite WirePoint_eqb_refl in Ha.
    cbn [length] in Ha. lia.
  - apply IH. intros p Hp. pose proof (H p (or_intror Hp)) as Hc.
    pose proof (count_le_cons p a l). lia.
Qed.

(** X13.  [removeDuplicatePoints] returns, whatever the wire.  The points it
    leaves are points of the wire, in the order they had, at pairwise
    different positions; the count it returns is at least the number of
    points that went; nothing else of the wire changes and no signal is
    emitted. *)
Lemma removeDuplicatePoints_returns (w : Wire) :
  exists removedCount pts,
    removeDuplicatePoints w = Some (removedCount, set_points pts w, []) /\
    Subseq pts (_points w) /\
    NoDup (positions pts) /\
    QVector.size (_points w) - QVector.size pts <= removedCount.
Proof.
  destruct (removeRounds_returns (S (length (_points w))) (_points w) 0 ltac:(lia))
    as (pts & r & E & U & _ & Hr).
  exists r, pts. rewrite removeDuplicatePoints_run, E.
  split; [reflexivity|]. split; [exact (removeRounds_Subseq _ _ _ _ _ E)|].
  split; [apply allUnique_NoDup; exact U|].
  unfold QVector.size. lia.
Qed.

(** In particular it leaves the stored rectangle as it finds it. *)
Lemma removeDuplicatePoints_keeps_rect (w : Wire) :
  _rect (wireAfter removeDuplicatePoints w) = _rect w.
Proof.
  unfold wireAfter. rewrite removeDuplicatePoints_run.
  destruct (removeRounds _ _ _) as [[pts n]|]; reflexivity.
Qed.

(** *** The wire a b c a b c b b c (C6) *)

(** The first round, slot by slot.  Slots 0 to 2 leave b b b b c, four
    calls counted.  At slot 3 the point b is there four times, so three
    calls follow through the reference to slot 3: the first removes the b of
    slot 0, and slot 3 now holds c; the second removes that c, the last
    element, so that slot 3 is past the end and still holds c; the third
    looks for c, finds none and removes nothing, and is counted. *)
Lemma ninePointWire_first_round :
  let a := mkWirePoint 0 0 false in
  let b := mkWirePoint 1 0 false in
  let c := mkWirePoint 1 1 false in
  let s3 := fst (visitSlots 3 0 (mkSlots (_points ninePointWire) []) 0) in
  let s3' := snd (removeOne (slot 3 s3) s3) in
  let s3'' := snd (removeOne (slot 3 s3') s3') in
  _points ninePointWire = [a; b; c; a; b; c; b; b; c] /\
  visitSlots 3 0 (mkSlots (_points ninePointWire) []) 0
  = (mkSlots [b; b; b; b; c] [c; c; c; c], 4) /\
  slot 3 s3 = b /\ QVector.count WirePoint_eqb b (elements s3) = 4 /\
  fst (removeOne (slot 3 s3) s3) = true /\ elements s3' = [b; b; b; c] /\
  slot 3 s3' = c /\
  fst (removeOne (slot 3 s3') s3') = true /\ elements s3'' = [b; b; b] /\
  slot 3 s3'' = c /\
  removeOne (slot 3 s3'') s3'' = (false, s3'') /\
  removeRound (_points ninePointWire) 0 = ([b; b; b], 7) /\
  removeRound [b; b; b] 7 = ([b], 9).
Proof. vm_compute. repeat split. Qed.

(** C6.  On the wire a b c a b c b b c, [removeDuplicatePoints] leaves the
    single point b, so eight of the nine points went, and returns 9. *)
Theorem removeDuplicatePoints_ninePointWire :
  QVector.size (_points ninePointWire) = 9 /\
  removeDuplicatePoints ninePointWire
  = Some (9, set_points [mkWirePoint 1 0 false] ninePointWire, []) /\
  QVector.size (_points (wireAfter removeDuplicatePoints ninePointWire)) = 1 /\
  resultOf removeDuplicatePoints ninePointWire
  <> Some (QVector.size (_points ninePointWire)
           - QVector.size (_points (wireAfter removeDuplicatePoints ninePointWire))).
Proof. vm_compute. repeat split. discriminate. Qed.

(** *** The bounding rectangle (C2) *)

Lemma boundsCurrent_withPoints (pts : list WirePoint) (w : Wire) :
  boundsCurrent (withPoints pts w).
Proof. reflexivity. Qed.

(** X11.  Every member function that changes the points and ends with
    [calculateBoundingRect()] leaves the stored rectangle up to date. *)
Lemma mutators_recompute_bounds (w : Wire) (index : Z) (point : QPoint) (moveBy : QVector2D) :
  boundsCurrent (wireAfter (prependPoint point) w) /\
  boundsCurrent (wireAfter (appendPoint point) w) /\
  boundsCurrent (wireAfter (removePoint point) w) /\
  (_points w <> [] ->
   boundsCurrent (wireAfter removeFirstPoint w) /\
   boundsCurrent (wireAfter removeLastPoint w)) /\
  (obsoletePoints (_points w) <> [] -> 3 <= QVector.size (_points w) ->
   boundsCurrent (wireAfter removeObsoletePoints w)) /\
  (0 <= index < QVector.size (_points w) ->
   boundsCurrent (wireAfter (insertPoint index point) w) /\
   boundsCurrent (wireAfter (movePointBy index moveBy) w) /\
   boundsCurrent (wireAfter (movePointTo index point) w) /\
   boundsCurrent (wireAfter (moveLineSegmentBy index moveBy) w)).
Proof.
  unfold wireAfter.
  repeat match goal with
         | |- _ /\ _ => split
         | |- _ -> _ => intro
         end.
  - rewrite prependPoint_run. apply boundsCurrent_withPoints.
  - rewrite appendPoint_run. apply boundsCurrent_withPoints.
  - rewrite removePoint_run. apply boundsCurrent_withPoints.
  - rewrite removeFirstPoint_run. destruct (_points w); [congruence|].
    apply boundsCurrent_withPoints.
  - rewrite removeLastPoint_run. destruct (_points w); [congruence|].
    apply boundsCurrent_withPoints.
  - rewrite removeObsoletePoints_run.
    replace (QVector.size (_points w) <? 3) with false by (symmetry; apply Z.ltb_ge; lia).
    destruct (obsoletePoints (_points w)); [congruence|]. apply boundsCurrent_withPoints.
  - rewrite insertPoint_in_range by assumption. apply boundsCurrent_withPoints.
  - rewrite movePointBy_in_range by assumption. apply boundsCurrent_withPoints.
  - rewrite movePointTo_in_range by assumption. apply boundsCurrent_withPoints.
  - rewrite moveLineSegmentBy_in_guard by assumption. unfold bind.
    rewrite movePointBy_in_range by assumption. cbv zeta.
    set (w1 := withPoints _ w).
    destruct (Z_lt_ge_dec (index + 1) (QVector.size (_points w1))) as [Hlt|Hge].
    + rewrite movePointBy_in_range by lia. apply boundsCurrent_withPoints.
    + rewrite movePointBy_out_of_range by (right; exact Hge).
      apply boundsCurrent_withPoints.
Qed.

(** C2.  A fresh wire is given the points (0,0), (5,5), (0,0), (0,0); its
    rectangle is up to date.  [removeDuplicatePoints] then leaves the single
    point (0,0): at slot 0 the point (0,0) is there three times, the first
    of the two calls removes it and moves (5,5) into slot 0, and the second
    call, through the same reference, removes (5,5).  The function does not
    call [calculateBoundingRect()], so the rectangle stored is still that of
    the four points. *)
Theorem removeDuplicatePoints_stale_rect :
  (forall w, _rect (wireAfter removeDuplicatePoints w) = _rect w) /\
  positions (_points fourPointWire)
  = [mkQPoint 0 0; mkQPoint 5 5; mkQPoint 0 0; mkQPoint 0 0] /\
  boundsCurrent fourPointWire /\
  removeDuplicatePoints fourPointWire = Some (3, dedupedWire, []) /\
  positions (_points dedupedWire) = [mkQPoint 0 0] /\
  _rect dedupedWire = mkQRectF 0 0 100 100 /\
  boundsOf (_points dedupedWire) (gridSize dedupedWire) = mkQRectF 0 0 0 0 /\
  ~ boundsCurrent dedupedWire.
Proof.
  split; [exact removeDuplicatePoints_keeps_rect|].
  unfold boundsCurrent. vm_compute. repeat split. discriminate.
Qed.

(** The round on the four points, call by call. *)
Lemma fourPointWire_round :
  let a := mkWirePoint 0 0 false in
  let b := mkWirePoint 5 5 false in
  let s0 := mkSlots (_points fourPointWire) [] in
  let s0' := snd (removeOne (slot 0 s0) s0) in
  let s0'' := snd (removeOne (slot 0 s0') s0') in
  _points fourPointWire = [a; b; a; a] /\
  slot 0 s0 = a /\ QVector.count WirePoint_eqb a (elements s0) = 3 /\
  elements s0' = [b; a; a] /\ slot 0 s0' = b /\
  elements s0'' = [a; a] /\
  visitSlot 0 s0 0 = (s0'', 2) /\
  removeRound (_points fourPointWire) 0 = ([a], 3).
Proof. vm_compute. repeat split. Qed.

(** *** What the rectangle is *)

Lemma topLeftOf_fold (pts : list WirePoint) :
  topLeftOf pts
  = (fold_left Z.min (map wx pts) INT_MAX, fold_left Z.min (map wy pts) INT_MAX).
Proof.
  unfold topLeftOf. generalize INT_MAX at 1 3 as ax. generalize INT_MAX as ay.
  induction pts as [|p pts IH]; intros ay ax; [reflexivity|].
  cbn [fold_left map fst snd].
  match goal with
  | |- fold_left _ pts ?acc = _ =>
      replace acc with (Z.min ax (wx p), Z.min ay (wy p)); [apply IH|]
  end.
  destruct (wx p <? ax) eqn:Ex; cbn [fst snd];
    destruct (wy p <? ay) eqn:Ey;
    try apply Z.ltb_lt in Ex; try apply Z.ltb_ge in Ex;
    try apply Z.ltb_lt in Ey; try apply Z.ltb_ge in Ey;
    f_equal; lia.
Qed.

Lemma bottomRightOf_fold (pts : list WirePoint) :
  bottomRightOf pts
  = (fold_left Z.max (map wx pts) INT_MIN, fold_left Z.max (map wy pts) INT_MIN).
Proof.
  unfold bottomRightOf. generalize INT_MIN at 1 3 as ax. generalize INT_MIN as ay.
  induction pts as [|p pts IH]; intros ay ax; [reflexivity|].
  cbn [fold_left map fst snd].
  match goal with
  | |- fold_left _ pts ?acc = _ =>
      replace acc with (Z.max ax (wx p), Z.max ay (wy p)); [apply IH|]
  end.
  rewrite !Z.gtb_ltb.
  destruct (ax <? wx p) eqn:Ex; cbn [fst snd];
    destruct (ay <? wy p) eqn:Ey;
    try apply Z.ltb_lt in Ex; try apply Z.ltb_ge in Ex;
    try apply Z.ltb_lt in Ey; try apply Z.ltb_ge in Ey;
    f_equal; lia.
Qed.

Lemma fold_min_spec (l : list Z) (a : Z) :
  fold_left Z.min l a <= a /\
  (forall x, In x l -> fold_left Z.min l a <= x) /\
  (fold_left Z.min l a = a \/ In (fold_left Z.min l a) l).
Proof.
  revert a. induction l as [|y l IH]; intros a; cbn [fold_left].
  - repeat split; [lia | intros x [] | left; reflexivity].
  - destruct (IH (Z.min a y)) as (H1 & H2 & H3). repeat split.
    + lia.
    + intros x [<-|Hx]; [lia | apply H2; exact Hx].
    + destruct H3 as [H3|H3]; [|right; right; exact H3].
      destruct (Z.min_spec a y) as [[_ E]|[_ E]].
      * left. rewrite H3. exact E.
      * right; left. rewrite H3. symmetry. exact E.
Qed.

Lemma fold_max_spec (l : list Z) (a : Z) :
  a <= fold_left Z.max l a /\
  (forall x, In x l -> x <= fold_left Z.max l a) /\
  (fold_left Z.max l a = a \/ In (fold_left Z.max l a) l).
Proof.
  revert a. induction l as [|y l IH]; intros a; cbn [fold_left].
  - repeat split; [lia | intros x [] | left; reflexivity].
  - destruct (IH (Z.max a y)) as (H1 & H2 & H3). repeat split.
    + lia.
    + intros x [<-|Hx]; [lia | apply H2; exact Hx].
    + destruct H3 as [H3|H3]; [|right; right; exact H3].
      destruct (Z.max_spec a y) as [[_ E]|[_ E]].
      * right; left. rewrite H3. symmetry. exact E.
      * left. rewrite H3. exact E.
Qed.

(** The rectangle computed from a point list contains the scaled position of
    each of its points (for a cell size that is not negative)... *)
Lemma boundsOf_contains (pts : list WirePoint) (cell : Z) (p : WirePoint) :
  0 <= cell -> In p pts ->
  rect_left (boundsOf pts cell) <= wx p * cell <= rect_right (boundsOf pts cell) /\
  rect_top (boundsOf pts cell) <= wy p * cell <= rect_bottom (boundsOf pts cell).
Proof.
  intros Hc Hp.
  unfold boundsOf, rect_left, rect_right, rect_top, rect_bottom, QRectF_of_corners, scale.
  rewrite topLeftOf_fold, bottomRightOf_fold. cbn [fst snd xp yp rw rh].
  pose proof (proj1 (proj2 (fold_min_spec (map wx pts) INT_MAX)) (wx p) (in_map wx _ _ Hp)).
  pose proof (proj1 (proj2 (fold_min_spec (map wy pts) INT_MAX)) (wy p) (in_map wy _ _ Hp)).
  pose proof (proj1 (proj2 (fold_max_spec (map wx pts) INT_MIN)) (wx p) (in_map wx _ _ Hp)).
  pose proof (proj1 (proj2 (fold_max_spec (map wy pts) INT_MIN)) (wy p) (in_map wy _ _ Hp)).
  nia.
Qed.


(** * More of [wire.cpp] *)

(** ** Absolute positions: [points()] and the functions that take them *)

Lemma QPoint_add_sub (anchor p : QPoint) :
  QPoint_add anchor (toPoint (WirePoint_of_QPoint (QPoint_sub p anchor))) = p.
Proof.
  destruct anchor as [ax ay], p as [x y].
  unfold QPoint_add, QPoint_sub, toPoint, WirePoint_of_QPoint. cbn. f_equal; lia.
Qed.

Lemma points_withPoints (pts : list WirePoint) (w : Wire) :
  points (withPoints pts w)
  = map (fun wirePoint => QPoint_add (gridPoint w) (toPoint wirePoint)) pts.
Proof. reflexivity. Qed.

(** X1.  [appendPoint] and [prependPoint] take a position in absolute grid
    coordinates and store it relative to the item; [points()] gives it back:
    after [appendPoint(p)] the absolute points are the old ones followed by
    [p], after [prependPoint(p)] they are [p] followed by the old ones,
    wherever the item sits. *)
Theorem points_after_appendPoint_prependPoint (w : Wire) (p : QPoint) :
  points (wireAfter (appendPoint p) w) = points w ++ [p] /\
  points (wireAfter (prependPoint p) w) = p :: points w.
Proof.
  unfold wireAfter. rewrite appendPoint_run, prependPoint_run. cbv zeta.
  rewrite !points_withPoints. split.
  - rewrite map_app. cbn [map]. rewrite QPoint_add_sub. reflexivity.
  - cbn [map]. rewrite QPoint_add_sub. reflexivity.
Qed.

(** X2.  For an index in range, [insertPoint(index, p)] puts the absolute
    position [p] before the point that was at [index]: the absolute points
    before [index] stay, [p] follows, then the rest in their order. *)
Theorem points_after_insertPoint (w : Wire) (index : Z) (p : QPoint) :
  0 <= index < QVector.size (_points w) ->
  points (wireAfter (insertPoint index p) w)
  = firstn (Z.to_nat index) (points w) ++ p :: skipn (Z.to_nat index) (points w).
Proof.
  intros H. unfold wireAfter. rewrite (insertPoint_in_range w index p H). cbv zeta.
  rewrite points_withPoints. unfold QVector.insert, points.
  rewrite map_app. cbn [map]. rewrite QPoint_add_sub, firstn_map, skipn_map. reflexivity.
Qed.

Lemma points_after_insertPoint_witness :
  0 <= 1 < QVector.size (_points twoPointWire) /\
  points (wireAfter (insertPoint 1 (mkQPoint 2 0)) twoPointWire)
  = firstn (Z.to_nat 1) (points twoPointWire)
    ++ mkQPoint 2 0 :: skipn (Z.to_nat 1) (points twoPointWire).
Proof.
  assert (H : 0 <= 1 < QVector.size (_points twoPointWire))
    by (unfold QVector.size; cbn; lia).
  split; [exact H | exact (points_after_insertPoint twoPointWire 1 (mkQPoint 2 0) H)].
Defined.

Lemma withPoints_same (w : Wire) : boundsCurrent w -> withPoints (_points w) w = w.
Proof.
  unfold boundsCurrent, withPoints, set_rect, set_points. destruct w; cbn.
  intros <-. reflexivity.
Qed.

(** X3.  [appendPoint(p)] followed by [removeLastPoint()], and
    [prependPoint(p)] followed by [removeFirstPoint()], give back the point
    list as it was, and the whole wire when its rectangle was up to date;
    one [pointMoved] signal, for the point that came and went, is all that
    is left of the pair. *)
Theorem append_removeLast_round_trip (w : Wire) (p : QPoint) :
  let w1 := wireAfter (appendPoint p ;; removeLastPoint) w in
  let w2 := wireAfter (prependPoint p ;; removeFirstPoint) w in
  _points w1 = _points w /\ _points w2 = _points w /\
  length (signalsOf (appendPoint p ;; removeLastPoint) w) = 1%nat /\
  length (signalsOf (prependPoint p ;; removeFirstPoint) w) = 1%nat /\
  (boundsCurrent w -> w1 = w /\ w2 = w).
Proof.
  assert (E1 : (appendPoint p ;; removeLastPoint) w
               = Some (tt, withPoints (_points w) w,
                       [pointMoved (withPoints (_points w ++ [WirePoint_of_QPoint
                                                  (QPoint_sub p (gridPoint w))]) w)
                                   (WirePoint_of_QPoint (QPoint_sub p (gridPoint w)))])).
  { unfold bind. rewrite appendPoint_run. cbv zeta. rewrite removeLastPoint_run.
    cbn [withPoints _points set_rect set_points].
    destruct (_points w ++ [WirePoint_of_QPoint (QPoint_sub p (gridPoint w))]) eqn:E;
      [destruct (_points w); discriminate|].
    rewrite <- E, removelast_last. reflexivity. }
  assert (E2 : (prependPoint p ;; removeFirstPoint) w
               = Some (tt, withPoints (_points w) w,
                       [pointMoved (withPoints (WirePoint_of_QPoint
                                                  (QPoint_sub p (gridPoint w)) :: _points w) w)
                                   (WirePoint_of_QPoint (QPoint_sub p (gridPoint w)))])).
  { unfold bind. rewrite prependPoint_run. cbv zeta. rewrite removeFirstPoint_run.
    reflexivity. }
  cbv zeta. unfold wireAfter, signalsOf. rewrite E1, E2.
  repeat match goal with |- _ /\ _ => split end; try reflexivity.
  intros Hc. rewrite (withPoints_same w Hc). split; reflexivity.
Qed.

Lemma append_removeLast_round_trip_witness :
  boundsCurrent twoPointWire /\
  wireAfter (appendPoint (mkQPoint 7 7) ;; removeLastPoint) twoPointWire = twoPointWire /\
  wireAfter (prependPoint (mkQPoint 7 7) ;; removeFirstPoint) twoPointWire = twoPointWire.
Proof.
  assert (H : boundsCurrent twoPointWire) by reflexivity.
  split; [exact H|].
  destruct (append_removeLast_round_trip twoPointWire (mkQPoint 7 7)) as (_ & _ & _ & _ & R).
  exact (R H).
Defined.

(** X4.  For an index in range, [movePointTo(index, moveTo)] makes [moveTo]
    the absolute position of the point at [index] and leaves the absolute
    positions of the others. *)
Theorem points_after_movePointTo (w : Wire) (index : Z) (moveTo : QPoint) :
  0 <= index < QVector.size (_points w) ->
  points (wireAfter (movePointTo index moveTo) w) = QVector.assign index moveTo (points w).
Proof.
  intros H. unfold wireAfter. rewrite (movePointTo_in_range w index moveTo H). cbv zeta.
  rewrite points_withPoints. unfold points. rewrite map_assign, QPoint_add_sub. reflexivity.
Qed.

Lemma points_after_movePointTo_witness :
  0 <= 1 < QVector.size (_points twoPointWire) /\
  points (wireAfter (movePointTo 1 (mkQPoint 9 2)) twoPointWire)
  = QVector.assign 1 (mkQPoint 9 2) (points twoPointWire).
Proof.
  assert (H : 0 <= 1 < QVector.size (_points twoPointWire))
    by (unfold QVector.size; cbn; lia).
  split; [exact H | exact (points_after_movePointTo twoPointWire 1 (mkQPoint 9 2) H)].
Defined.

Lemma assign_assign {T} (i : Z) (a b : T) (l : list T) :
  0 <= i < QVector.size l ->
  QVector.assign i a (QVector.assign i b l) = QVector.assign i a l.
Proof.
  unfold QVector.size, QVector.assign. intros H.
  assert (Hn : (Z.to_nat i <= length l)%nat) by lia.
  rewrite firstn_app, firstn_firstn, length_firstn.
  replace (Nat.min (Z.to_nat i) (Z.to_nat i)) with (Z.to_nat i) by lia.
  replace (Z.to_nat i - Nat.min (Z.to_nat i) (length l))%nat with 0%nat by lia.
  cbn [firstn]. rewrite app_nil_r. f_equal. f_equal.
  rewrite skipn_app, length_firstn.
  replace (S (Z.to_nat i) - Nat.min (Z.to_nat i) (length l))%nat with 1%nat by lia.
  rewrite skipn_all2 by (rewrite length_firstn; lia). reflexivity.
Qed.

(** X5.  For an index in range and a vector [d] built from two [int]s
    within 2^23 of zero, [movePointBy(index, d)] followed by
    [movePointBy(index, -d)] puts every point back at its position. *)
Theorem movePointBy_there_and_back (w : Wire) (index dx dy : Z) :
  0 <= index < QVector.size (_points w) ->
  Z.abs dx <= 2 ^ 23 -> Z.abs dy <= 2 ^ 23 ->
  let moveBy := mkQVector2D dx dy in
  positions (_points (wireAfter (movePointBy index moveBy ;;
                                 movePointBy index (QVector2D_neg moveBy)) w))
  = positions (_points w).
Proof.
  intros H Hdx Hdy moveBy. unfold wireAfter, bind.
  rewrite (movePointBy_in_range w index moveBy H). cbv zeta.
  set (w1 := withPoints _ w).
  assert (H1 : 0 <= index < QVector.size (_points w1))
    by (unfold w1; cbn [withPoints _points set_rect set_points]; rewrite size_assign; lia).
  rewrite (movePointBy_in_range w1 index (QVector2D_neg moveBy) H1). cbv zeta.
  cbn [withPoints _points set_rect set_points].
  unfold w1 at 2. cbn [withPoints _points set_rect set_points].
  rewrite assign_assign by exact H.
  unfold positions. rewrite map_assign.
  replace (toPoint (movedBy (QVector2D_neg moveBy) (pointAt index w1)))
    with (toPoint (pointAt index w)).
  - unfold pointAt. rewrite <- (map_nth toPoint). apply assign_nth_self.
    unfold QVector.size in *. rewrite length_map. exact H.
  - unfold w1. rewrite pointAt_withPoints, nth_assign_same by exact H.
    rewrite !toPoint_movedBy. unfold moveBy.
    rewrite toPoint2D_neg_mkQVector2D, toPoint2D_mkQVector2D by assumption.
    destruct (toPoint (pointAt index w)) as [x y].
    unfold QPoint_add. cbn. f_equal; lia.
Qed.

Lemma movePointBy_there_and_back_witness :
  0 <= 1 < QVector.size (_points twoPointWire) /\
  Z.abs 3 <= 2 ^ 23 /\ Z.abs (-2) <= 2 ^ 23 /\
  positions (_points (wireAfter (movePointBy 1 (mkQVector2D 3 (-2)) ;;
                                 movePointBy 1 (QVector2D_neg (mkQVector2D 3 (-2))))
                                twoPointWire))
  = positions (_points twoPointWire).
Proof.
  assert (H : 0 <= 1 < QVector.size (_points twoPointWire))
    by (unfold QVector.size; cbn; lia).
  assert (H1 : Z.abs 3 <= 2 ^ 23) by (cbn; lia).
  assert (H2 : Z.abs (-2) <= 2 ^ 23) by (cbn; lia).
  repeat (split; [assumption|]).
  exact (movePointBy_there_and_back twoPointWire 1 3 (-2) H H1 H2).
Defined.

(** A vector of half a cell shows why the components have to be whole: there
    the point goes one cell to the right, and back it stays. *)
Lemma movePointBy_half_cell_and_back :
  positions (_points (wireAfter (movePointBy 1 (QVector2D_of_floats half Float.zero) ;;
                                 movePointBy 1 (QVector2D_neg
                                                  (QVector2D_of_floats half Float.zero)))
                                twoPointWire))
  = [mkQPoint 0 0; mkQPoint 5 0] /\
  positions (_points twoPointWire) = [mkQPoint 0 0; mkQPoint 4 0].
Proof. vm_compute. split; reflexivity. Qed.

Lemma QPoint_eqb_eq (a b : QPoint) : QPoint_eqb a b = true <-> a = b.
Proof.
  destruct a as [ax ay], b as [bx by']. unfold QPoint_eqb. cbn.
  rewrite andb_true_iff, !Z.eqb_eq. split.
  - intros [-> ->]. reflexivity.
  - intros H. injection H. auto.
Qed.

Lemma filter_map_commute {A B} (f : A -> B) (g : B -> bool) (l : list A) :
  filter g (map f l) = map f (filter (fun x => g (f x)) l).
Proof.
  induction l as [|x l IH]; [reflexivity|]. cbn.
  destruct (g (f x)); cbn; rewrite IH; reflexivity.
Qed.

(** X6.  [removePoint(p)] removes every point whose absolute position is
    [p], junction or not, and nothing else: the absolute points left are
    the old ones that differ from [p], in their order. *)
Theorem points_after_removePoint (w : Wire) (p : QPoint) :
  points (wireAfter (removePoint p) w)
  = filter (fun q => negb (QPoint_eqb q p)) (points w) /\
  ~ In p (points (wireAfter (removePoint p) w)).
Proof.
  assert (E : points (wireAfter (removePoint p) w)
              = filter (fun q => negb (QPoint_eqb q p)) (points w)).
  { unfold wireAfter. rewrite removePoint_run, points_withPoints.
    unfold points, QVector.removeAll. rewrite filter_map_commute. f_equal.
    apply filter_ext. intros x. f_equal.
    assert (Hshift : forall a b c, (a =? b - c) = (c + a =? b))
      by (intros a b c; destruct (Z.eqb_spec a (b - c)), (Z.eqb_spec (c + a) b);
          try reflexivity; lia).
    unfold WirePoint_eqb, QPoint_eqb, WirePoint_of_QPoint, QPoint_sub, QPoint_add, toPoint.
    cbn. rewrite !Hshift. reflexivity. }
  split; [exact E|].
  rewrite E. intros Hin. apply filter_In in Hin. destruct Hin as [_ Hne].
  apply negb_true_iff in Hne.
  assert (QPoint_eqb p p = true) by (apply QPoint_eqb_eq; reflexivity). congruence.
Qed.

(** X7.  The edge of emptiness.  On a wire without points [removeFirstPoint]
    and [removeLastPoint] return at once, the wire untouched.  Taking the
    only point of a one-point wire leaves no point and the rectangle of
    no points: its corners are [INT_MAX] and [INT_MIN] times the cell size,
    the wrong way round. *)
Theorem removing_at_the_edge (w : Wire) (only : WirePoint) :
  (_points w = [] ->
   removeFirstPoint w = Some (tt, w, []) /\ removeLastPoint w = Some (tt, w, [])) /\
  (_points w = [only] ->
   let w' := wireAfter removeFirstPoint w in
   wireAfter removeLastPoint w = w' /\
   _points w' = [] /\
   rect_left (_rect w') = INT_MAX * gridSize w /\
   rect_top (_rect w') = INT_MAX * gridSize w /\
   rect_right (_rect w') = INT_MIN * gridSize w /\
   rect_bottom (_rect w') = INT_MIN * gridSize w).
Proof.
  split.
  - intros H. rewrite removeFirstPoint_run, removeLastPoint_run, H. split; reflexivity.
  - intros H. cbv zeta. unfold wireAfter.
    rewrite removeFirstPoint_run, removeLastPoint_run, H.
    cbn [removelast withPoints _points _rect set_rect set_points].
    unfold rect_left, rect_top, rect_right, rect_bottom, boundsOf, QRectF_of_corners, scale.
    cbn [topLeftOf bottomRightOf fold_left fst snd xp yp rw rh].
    repeat split; ring.
Qed.

Lemma removing_at_the_edge_witness :
  _points (Wire_new origin 20) = [] /\
  removeFirstPoint (Wire_new origin 20) = Some (tt, Wire_new origin 20, []) /\
  removeLastPoint (Wire_new origin 20) = Some (tt, Wire_new origin 20, []).
Proof.
  assert (H : _points (Wire_new origin 20) = []) by reflexivity.
  split; [exact H|].
  exact (proj1 (removing_at_the_edge (Wire_new origin 20) (mkWirePoint 0 0 false)) H).
Defined.

(** X8.  [movePointBy], [movePointTo] and [setPointIsJunction] with an index
    below 0 or not below the number of points return at once: the wire is
    left as it was and no signal is emitted. *)
Theorem index_out_of_range_is_ignored (w : Wire) (index : Z) (moveBy : QVector2D)
        (moveTo : QPoint) (b : bool) :
  index < 0 \/ index >= QVector.size (_points w) ->
  movePointBy index moveBy w = Some (tt, w, []) /\
  movePointTo index moveTo w = Some (tt, w, []) /\
  setPointIsJunction index b w = Some (tt, w, []).
Proof.
  intros H. repeat split.
  - apply movePointBy_out_of_range; exact H.
  - apply movePointTo_out_of_range; exact H.
  - apply setPointIsJunction_out_of_range; exact H.
Qed.

Lemma index_out_of_range_is_ignored_witness :
  (2 < 0 \/ 2 >= QVector.size (_points twoPointWire)) /\
  movePointBy 2 (mkQVector2D 1 1) twoPointWire = Some (tt, twoPointWire, []) /\
  movePointTo 2 (mkQPoint 5 5) twoPointWire = Some (tt, twoPointWire, []) /\
  setPointIsJunction 2 true twoPointWire = Some (tt, twoPointWire, []).
Proof.
  assert (H : 2 < 0 \/ 2 >= QVector.size (_points twoPointWire))
    by (right; unfold QVector.size; cbn; lia).
  split; [exact H|].
  exact (index_out_of_range_is_ignored twoPointWire 2 (mkQVector2D 1 1) (mkQPoint 5 5) true H).
Defined.

(** ** Line segments *)

Lemma at_points (w : Wire) (i : Z) :
  0 <= i < QVector.size (_points w) ->
  QVector.at_ i (points w) = Some (QPoint_add (gridPoint w) (toPoint (pointAt i w))).
Proof.
  intros H. unfold QVector.at_, points, pointAt, QVector.size in *.
  replace (i <? 0) with false by (symmetry; apply Z.ltb_ge; lia).
  rewrite nth_error_map.
  rewrite (nth_error_nth' (_points w) (mkWirePoint 0 0 false)) by lia. reflexivity.
Qed.

Lemma at_in_range {T} (i : Z) (l : list T) (x : T) :
  QVector.at_ i l = Some x -> 0 <= i < QVector.size l.
Proof.
  unfold QVector.at_, QVector.size. destruct (i <? 0) eqn:E; [discriminate|].
  apply Z.ltb_ge in E. intros H.
  assert (Hn : nth_error l (Z.to_nat i) <> None) by congruence.
  apply nth_error_Some in Hn. lia.
Qed.

(** X9.  The segments [lineSegments] returns are the polyline through
    [points()]: there is a segment at index [i] exactly when [points()] has
    points at [i] and [i + 1], and it runs from the one to the other.  So
    each segment starts where the one before it ends. *)
Theorem lineSegments_join_points (w : Wire) (i : Z) (line : Line) :
  QVector.at_ i (lineSegments w) = Some line <->
  QVector.at_ i (points w) = Some (p1 line) /\
  QVector.at_ (i + 1) (points w) = Some (p2 line).
Proof.
  split.
  - intros H. destruct (at_lineSegments w i line H) as [Hi ->]. cbn [p1 p2].
    split; apply at_points; lia.
  - intros [H1 H2].
    pose proof (at_in_range _ _ _ H1) as R1. pose proof (at_in_range _ _ _ H2) as R2.
    unfold points, QVector.size in R1, R2. rewrite length_map in R1, R2.
    rewrite at_points in H1, H2 by (unfold QVector.size; lia).
    injection H1 as E1. injection H2 as E2.
    unfold QVector.at_, lineSegments.
    replace (i <? 0) with false by (symmetry; apply Z.ltb_ge; lia).
    replace (QVector.size (_points w) <? 2) with false
      by (symmetry; apply Z.ltb_ge; unfold QVector.size; lia).
    rewrite nth_error_map, nth_error_seq.
    replace (Z.to_nat i <? Z.to_nat (QVector.size (_points w) - 1))%nat with true
      by (symmetry; apply Nat.ltb_lt; unfold QVector.size; lia).
    cbn [option_map Nat.add]. rewrite Z2Nat.id by lia. rewrite E1, E2.
    destruct line; reflexivity.
Qed.

(** ** The padded rectangle *)

(** X10.  When the stored rectangle is up to date and the cell size is not
    negative, [boundingRect()] holds the scene position of every point of
    the wire with room to spare: each lies at least [BOUNDING_RECT_PADDING]
    inside every side. *)
Theorem boundingRect_pads_points (w : Wire) (q : WirePoint) :
  boundsCurrent w -> 0 <= gridSize w -> In q (_points w) ->
  rect_left (boundingRect w) + BOUNDING_RECT_PADDING <= wx q * gridSize w
    <= rect_right (boundingRect w) - BOUNDING_RECT_PADDING /\
  rect_top (boundingRect w) + BOUNDING_RECT_PADDING <= wy q * gridSize w
    <= rect_bottom (boundingRect w) - BOUNDING_RECT_PADDING.
Proof.
  intros Hc Hg Hq.
  pose proof (boundsOf_contains (_points w) (gridSize w) q Hg Hq) as Hb.
  unfold boundingRect, adjusted, rect_left, rect_right, rect_top, rect_bottom,
    BOUNDING_RECT_PADDING in *.
  rewrite Hc. cbn [xp yp rw rh]. lia.
Qed.

Lemma boundingRect_pads_points_witness :
  boundsCurrent twoPointWire /\ 0 <= gridSize twoPointWire /\
  In (mkWirePoint 4 0 true) (_points twoPointWire) /\
  (rect_left (boundingRect twoPointWire) + BOUNDING_RECT_PADDING <= 4 * gridSize twoPointWire
     <= rect_right (boundingRect twoPointWire) - BOUNDING_RECT_PADDING /\
   rect_top (boundingRect twoPointWire) + BOUNDING_RECT_PADDING <= 0 * gridSize twoPointWire
     <= rect_bottom (boundingRect twoPointWire) - BOUNDING_RECT_PADDING).
Proof.
  assert (H1 : boundsCurrent twoPointWire) by reflexivity.
  assert (H2 : 0 <= gridSize twoPointWire) by (cbn; lia).
  assert (H3 : In (mkWirePoint 4 0 true) (_points twoPointWire)) by (right; left; reflexivity).
  repeat (split; [assumption|]).
  exact (boundingRect_pads_points twoPointWire (mkWirePoint 4 0 true) H1 H2 H3).
Defined.

Lemma mutators_recompute_bounds_witness :
  0 <= 1 < QVector.size (_points twoPointWire) /\
  boundsCurrent (wireAfter (insertPoint 1 (mkQPoint 2 2)) twoPointWire) /\
  boundsCurrent (wireAfter (movePointBy 1 (mkQVector2D 0 3)) twoPointWire) /\
  boundsCurrent (wireAfter (movePointTo 1 (mkQPoint 2 2)) twoPointWire) /\
  boundsCurrent (wireAfter (moveLineSegmentBy 1 (mkQVector2D 0 3)) twoPointWire).
Proof.
  assert (H : 0 <= 1 < QVector.size (_points twoPointWire))
    by (unfold QVector.size; cbn; lia).
  split; [exact H|].
  destruct (mutators_recompute_bounds twoPointWire 1 (mkQPoint 2 2) (mkQVector2D 0 3))
    as (_ & _ & _ & _ & _ & R).
  exact (R H).
Defined.


(** ** Duplicates, again *)

Lemma not_In_count_zero (p : WirePoint) (l : list WirePoint) :
  ~ In (toPoint p) (positions l) -> QVector.count WirePoint_eqb p l = 0.
Proof.
  unfold QVector.count, positions. induction l as [|x l IH]; intros H; [reflexivity|].
  cbn [filter map] in *. destruct (WirePoint_eqb x p) eqn:E.
  - exfalso. apply H. left. apply WirePoint_eqb_eq. exact E.
  - apply IH. intros Hin. apply H. right. exact Hin.
Qed.

Lemma NoDup_count_le (l : list WirePoint) (p : WirePoint) :
  NoDup (positions l) -> QVector.count WirePoint_eqb p l <= 1.
Proof.
  induction l as [|x l IH]; intros Hnd; [unfold QVector.count; cbn; lia|].
  cbn [positions map] in Hnd. apply NoDup_cons_iff in Hnd. destruct Hnd as [Hx Hnd].
  specialize (IH Hnd). unfold QVector.count in *. cbn [filter].
  destruct (WirePoint_eqb x p) eqn:E; [|exact IH].
  apply WirePoint_eqb_eq in E. rewrite E in Hx.
  pose proof (not_In_count_zero p l Hx) as Hz. unfold QVector.count in Hz.
  cbn [length]. lia.
Qed.

Lemma NoDup_allUnique (l : list WirePoint) : NoDup (positions l) -> allUnique l = true.
Proof. intros H. apply allUnique_true. intros p _. apply NoDup_count_le. exact H. Qed.

Lemma set_points_same (w : Wire) : set_points (_points w) w = w.
Proof. destruct w; reflexivity. Qed.

(** X14.  On a wire whose points sit at pairwise different positions
    [removeDuplicatePoints] removes nothing: it returns 0 and the wire is as
    it was. *)
Theorem removeDuplicatePoints_nothing_to_do (w : Wire) :
  NoDup (positions (_points w)) -> removeDuplicatePoints w = Some (0, w, []).
Proof.
  intros H. rewrite removeDuplicatePoints_run. cbn [removeRounds].
  rewrite (removeRound_unique _ 0 (NoDup_allUnique _ H)), (NoDup_allUnique _ H).
  rewrite set_points_same. reflexivity.
Qed.

Lemma removeDuplicatePoints_nothing_to_do_witness :
  NoDup (positions (_points twoPointWire)) /\
  removeDuplicatePoints twoPointWire = Some (0, twoPointWire, []).
Proof.
  assert (H : NoDup (positions (_points twoPointWire))).
  { cbn. repeat constructor; cbn; intuition discriminate. }
  split; [exact H | exact (removeDuplicatePoints_nothing_to_do twoPointWire H)].
Defined.

(** X15.  [removeDuplicatePoints] twice in a row: whatever the first call
    did, the second returns 0 and changes nothing. *)
Theorem removeDuplicatePoints_twice (w : Wire) :
  exists removedCount w',
    removeDuplicatePoints w = Some (removedCount, w', []) /\
    removeDuplicatePoints w' = Some (0, w', []).
Proof.
  destruct (removeRounds_returns (S (length (_points w))) (_points w) 0 ltac:(lia))
    as (pts & r & E & U & _ & _).
  exists r, (set_points pts w). rewrite removeDuplicatePoints_run, E.
  split; [reflexivity|].
  rewrite removeDuplicatePoints_run. cbn [_points set_points removeRounds].
  rewrite (removeRound_unique pts 0 U), U. reflexivity.
Qed.

(** ** Obsolete points, again *)

Lemma Subseq_removelast {T} (l : list T) : Subseq (removelast l) l.
Proof.
  induction l as [|x l IH]; [constructor|].
  destruct l as [|y l]; [apply Subseq_skip; constructor|].
  cbn [removelast] in *. apply Subseq_take. exact IH.
Qed.

Lemma Subseq_interior_removelast {T} (l : list T) :
  Subseq (removelast (tl l)) (removelast l).
Proof.
  destruct l as [|x [|y l]]; cbn [tl removelast]; try constructor.
  apply Subseq_refl.
Qed.

(** Only interior points are chosen. *)
Lemma obsoletePoints_interior (pts : list WirePoint) :
  Subseq (obsoletePoints pts) (removelast (tl pts)).
Proof.
  induction pts as [|a rest IH]; [constructor|].
  destruct rest as [|b [|c rest']]; cbn [obsoletePoints tl]; try apply Subseq_nil_l.
  cbn [tl] in IH.
  change (removelast (b :: c :: rest')) with (b :: removelast (c :: rest')).
  destruct (sameDirection _ _).
  - apply Subseq_take. exact IH.
  - apply Subseq_skip. exact IH.
Qed.

Lemma filter_app_last {T} (f : T -> bool) (l : list T) (z d : T) :
  f z = true -> last (filter f (l ++ [z])) d = z.
Proof.
  intros H. rewrite filter_app. cbn [filter]. rewrite H. apply last_last.
Qed.

(** X16.  On a wire at the origin whose points sit at pairwise different
    positions, [removeObsoletePoints] never takes an end of the wire: the
    first point stays the first and the last stays the last. *)
Theorem removeObsoletePoints_keeps_ends (w : Wire) (d : WirePoint) :
  gridPoint w = origin -> NoDup (positions (_points w)) ->
  hd d (_points (wireAfter removeObsoletePoints w)) = hd d (_points w) /\
  last (_points (wireAfter removeObsoletePoints w)) d = last (_points w) d.
Proof.
  intros Ho Hnd. unfold wireAfter. rewrite removeObsoletePoints_run.
  destruct (QVector.size (_points w) <? 3); [split; reflexivity|].
  pose proof (obsoletePoints_interior (_points w)) as Hint.
  set (marks := obsoletePoints (_points w)) in *.
  assert (Hpts : _points (match marks with
                          | [] => w
                          | _ => withPoints (removeAllPoints (gridPoint w) marks (_points w)) w
                          end)
                 = filter (fun p => negb (positionIn marks p)) (_points w)).
  { rewrite <- removeAllPoints_origin, <- Ho. destruct marks; reflexivity. }
  rewrite Hpts. clear Hpts. split.
  - destruct (_points w) as [|a rest] eqn:E; [reflexivity|].
    cbn [positions map] in Hnd. apply NoDup_cons_iff in Hnd. destruct Hnd as [Ha _].
    assert (Hs : Subseq marks rest)
      by (eapply Subseq_trans; [exact Hint | apply Subseq_removelast]).
    cbn [filter]. rewrite (positionIn_false marks rest a Hs Ha). reflexivity.
  - destruct (_points w) as [|a rest] eqn:E; [reflexivity|].
    assert (Hne : a :: rest <> []) by discriminate.
    destruct (exists_last Hne) as (init & z & Ez). rewrite Ez in *.
    rewrite last_last.
    assert (Hz : ~ In (toPoint z) (positions init)).
    { unfold positions in *. rewrite map_app in Hnd. cbn [map] in Hnd.
      apply NoDup_remove_2 in Hnd. rewrite app_nil_r in Hnd. exact Hnd. }
    assert (Hs : Subseq marks init).
    { eapply Subseq_trans; [exact Hint|].
      eapply Subseq_trans; [apply Subseq_interior_removelast|].
      rewrite removelast_last. apply Subseq_refl. }
    apply filter_app_last. rewrite (positionIn_false marks init z Hs Hz). reflexivity.
Qed.

Lemma removeObsoletePoints_keeps_ends_witness :
  gridPoint straightWire = origin /\ NoDup (positions (_points straightWire)) /\
  hd (mkWirePoint 9 9 false) (_points (wireAfter removeObsoletePoints straightWire))
  = hd (mkWirePoint 9 9 false) (_points straightWire) /\
  last (_points (wireAfter removeObsoletePoints straightWire)) (mkWirePoint 9 9 false)
  = last (_points straightWire) (mkWirePoint 9 9 false).
Proof.
  assert (Ho : gridPoint straightWire = origin) by reflexivity.
  assert (Hnd : NoDup (positions (_points straightWire))).
  { cbn. repeat constructor; cbn; intuition discriminate. }
  split; [exact Ho|]. split; [exact Hnd|].
  exact (removeObsoletePoints_keeps_ends straightWire (mkWirePoint 9 9 false) Ho Hnd).
Defined.

(** ** Mouse moves *)

(** A segment drag, whatever the segment: both ends move by the vector
    chosen for the line. *)
Lemma mouseMoveEvent_segment (w : Wire) (i : Z) (line : Line)
      (curPos : QPoint) (ctrlPressed : bool) :
  _pointToMoveIndex w <= -1 ->
  _lineSegmentToMoveIndex w = i ->
  QVector.at_ i (lineSegments w) = Some line ->
  let moveBy := moveLineByOf line curPos (_prevMousePos w) ctrlPressed in
  exists w' signals,
    mouseMoveEvent curPos ctrlPressed w = Some (accepted, w', signals) /\
    QVector.size (_points w') = QVector.size (_points w) /\
    pointAt i w' = movedBy moveBy (pointAt i w) /\
    pointAt (i + 1) w' = movedBy moveBy (pointAt (i + 1) w) /\
    (forall j, 0 <= j -> j <> i -> j <> i + 1 -> pointAt j w' = pointAt j w) /\
    _points w' = _points (afterMove (i + 1) moveBy (afterMove i moveBy w)) /\
    _prevMousePos w' = curPos.
Proof.
  intros Hp Hs Hat moveBy.
  destruct (at_lineSegments w i line Hat) as [Hi _].
  destruct (moveLineSegmentBy_segment w i moveBy Hi)
    as (_ & _ & E & Hsz & A & B & Hother & _).
  set (w2 := afterMove (i + 1) moveBy (afterMove i moveBy w)) in *.
  exists (set_prevMousePos curPos w2). eexists. split.
  - unfold mouseMoveEvent. unfold bind at 1. unfold this.
    replace (_pointToMoveIndex w >? -1) with false
      by (symmetry; rewrite Z.gtb_ltb; apply Z.ltb_ge; lia).
    replace (_lineSegmentToMoveIndex w >? -1) with true
      by (symmetry; rewrite Z.gtb_ltb; apply Z.ltb_lt; lia).
    rewrite Hs. unfold bind, lift, ret, modify. rewrite Hat.
    fold (moveLineByOf line curPos (_prevMousePos w) ctrlPressed). fold moveBy.
    rewrite E. reflexivity.
  - repeat split; try assumption; try reflexivity.
Qed.

Lemma positions_unmoved (w : Wire) (i : Z) :
  0 <= i <= QVector.size (_points w) - 2 ->
  positions (_points (afterMove (i + 1) (mkQVector2D 0 0) (afterMove i (mkQVector2D 0 0) w)))
  = positions (_points w).
Proof.
  intros H. rewrite positions_afterMove_zero.
  - apply positions_afterMove_zero. lia.
  - unfold afterMove, withPoints. cbn [_points set_rect set_points].
    rewrite size_assign; lia.
Qed.

(** Within 2^23 of the previous position the floats of the drag vector hold
    the grid vector exactly. *)
Lemma toPoint2D_moveLineByOf (line : Line) (curPos prev : QPoint) (ctrlPressed : bool) :
  Z.abs (qx curPos - qx prev) <= 2 ^ 23 -> Z.abs (qy curPos - qy prev) <= 2 ^ 23 ->
  toPoint2D (moveLineByOf line curPos prev ctrlPressed)
  = dragDelta line curPos prev ctrlPressed.
Proof.
  intros Hx Hy. unfold moveLineByOf, dragDelta.
  destruct (isHorizontal line); [apply toPoint2D_mkQVector2D; [cbn; lia | exact Hy]|].
  destruct (isVertical line); [apply toPoint2D_mkQVector2D; [exact Hx | cbn; lia]|].
  destruct ctrlPressed.
  - unfold QVector2D_of_QPoint, QPoint_sub. cbn [qx qy].
    apply toPoint2D_mkQVector2D; assumption.
  - reflexivity.
Qed.

(** X17.  While a segment that is vertical (and not horizontal) is being
    dragged, a mouse move whose grid position differs from the previous one
    by [(dx, dy)], [dx] within 2^23 of zero, moves both end points of the
    segment by [(dx, 0)]: their x coordinates change by [dx], their y
    coordinates stay, and no other point moves.  With [dx = 0] no position
    changes. *)
Theorem drag_vertical_segment (w : Wire) (i : Z) (line : Line)
        (curPos : QPoint) (ctrlPressed : bool) :
  _pointToMoveIndex w <= -1 ->
  _lineSegmentToMoveIndex w = i ->
  QVector.at_ i (lineSegments w) = Some line ->
  isHorizontal line = false -> isVertical line = true ->
  let dx := qx curPos - qx (_prevMousePos w) in
  Z.abs dx <= 2 ^ 23 ->
  exists w' signals,
    mouseMoveEvent curPos ctrlPressed w = Some (accepted, w', signals) /\
    toPoint (pointAt i w') = mkQPoint (wx (pointAt i w) + dx) (wy (pointAt i w)) /\
    toPoint (pointAt (i + 1) w')
    = mkQPoint (wx (pointAt (i + 1) w) + dx) (wy (pointAt (i + 1) w)) /\
    (forall j, 0 <= j -> j <> i -> j <> i + 1 -> pointAt j w' = pointAt j w) /\
    (dx = 0 -> positions (_points w') = positions (_points w)).
Proof.
  intros Hp Hs Hat Hh Hv dx Hdx.
  destruct (mouseMoveEvent_segment w i line curPos ctrlPressed Hp Hs Hat)
    as (w' & signals & E & _ & A & B & Ho & Hpts & _).
  unfold moveLineByOf in A, B, Hpts. rewrite Hh, Hv in A, B, Hpts. fold dx in A, B, Hpts.
  assert (HmoveBy : toPoint2D (mkQVector2D dx 0) = mkQPoint dx 0)
    by (apply toPoint2D_mkQVector2D; [exact Hdx | cbn; lia]).
  exists w', signals. repeat split.
  - exact E.
  - rewrite A, toPoint_movedBy, HmoveBy. unfold QPoint_add. cbn. f_equal. lia.
  - rewrite B, toPoint_movedBy, HmoveBy. unfold QPoint_add. cbn. f_equal. lia.
  - exact Ho.
  - intros Hz. rewrite Hpts, Hz. apply positions_unmoved.
    exact (proj1 (at_lineSegments w i line Hat)).
Qed.

Lemma drag_vertical_segment_witness :
  _pointToMoveIndex draggedVertical <= -1 /\
  _lineSegmentToMoveIndex draggedVertical = 1 /\
  QVector.at_ 1 (lineSegments draggedVertical) = Some (mkLine (mkQPoint 4 0) (mkQPoint 4 3)) /\
  isHorizontal (mkLine (mkQPoint 4 0) (mkQPoint 4 3)) = false /\
  isVertical (mkLine (mkQPoint 4 0) (mkQPoint 4 3)) = true /\
  Z.abs (qx (mkQPoint 6 9) - qx (_prevMousePos draggedVertical)) <= 2 ^ 23 /\
  exists w' signals,
    mouseMoveEvent (mkQPoint 6 9) false draggedVertical = Some (accepted, w', signals) /\
    toPoint (pointAt 1 w') = mkQPoint 6 0 /\
    toPoint (pointAt 2 w') = mkQPoint 6 3.
Proof.
  assert (H1 : _pointToMoveIndex draggedVertical <= -1) by (cbn; lia).
  assert (H2 : _lineSegmentToMoveIndex draggedVertical = 1) by reflexivity.
  assert (H3 : QVector.at_ 1 (lineSegments draggedVertical)
               = Some (mkLine (mkQPoint 4 0) (mkQPoint 4 3))) by reflexivity.
  assert (H4 : isHorizontal (mkLine (mkQPoint 4 0) (mkQPoint 4 3)) = false) by reflexivity.
  assert (H5 : isVertical (mkLine (mkQPoint 4 0) (mkQPoint 4 3)) = true) by reflexivity.
  assert (H6 : Z.abs (qx (mkQPoint 6 9) - qx (_prevMousePos draggedVertical)) <= 2 ^ 23)
    by (cbn; lia).
  repeat (split; [assumption|]).
  destruct (drag_vertical_segment draggedVertical 1 _ (mkQPoint 6 9) false H1 H2 H3 H4 H5 H6)
    as (w' & signals & E & A & B & _).
  exists w', signals. repeat split; assumption.
Defined.

(** X18.  While a segment that is neither horizontal nor vertical is being
    dragged, a mouse move changes no position unless the control key is
    held; with the key held it moves both end points of the segment by the
    whole difference [(dx, dy)] between the grid position and the previous
    one, [dx] and [dy] within 2^23 of zero, and no other point. *)
Theorem drag_diagonal_segment (w : Wire) (i : Z) (line : Line)
        (curPos : QPoint) (ctrlPressed : bool) :
  _pointToMoveIndex w <= -1 ->
  _lineSegmentToMoveIndex w = i ->
  QVector.at_ i (lineSegments w) = Some line ->
  isHorizontal line = false -> isVertical line = false ->
  let dx := qx curPos - qx (_prevMousePos w) in
  let dy := qy curPos - qy (_prevMousePos w) in
  exists w' signals,
    mouseMoveEvent curPos ctrlPressed w = Some (accepted, w', signals) /\
    (ctrlPressed = false -> positions (_points w') = positions (_points w)) /\
    (ctrlPressed = true -> Z.abs dx <= 2 ^ 23 -> Z.abs dy <= 2 ^ 23 ->
     toPoint (pointAt i w') = mkQPoint (wx (pointAt i w) + dx) (wy (pointAt i w) + dy) /\
     toPoint (pointAt (i + 1) w')
     = mkQPoint (wx (pointAt (i + 1) w) + dx) (wy (pointAt (i + 1) w) + dy) /\
     (forall j, 0 <= j -> j <> i -> j <> i + 1 -> pointAt j w' = pointAt j w)).
Proof.
  intros Hp Hs Hat Hh Hv dx dy.
  destruct (mouseMoveEvent_segment w i line curPos ctrlPressed Hp Hs Hat)
    as (w' & signals & E & _ & A & B & Ho & Hpts & _).
  unfold moveLineByOf in A, B, Hpts. rewrite Hh, Hv in A, B, Hpts.
  exists w', signals. split; [exact E|]. split.
  - intros ->. rewrite Hpts. apply positions_unmoved.
    exact (proj1 (at_lineSegments w i line Hat)).
  - intros -> Hdx Hdy.
    assert (HmoveBy : toPoint2D (QVector2D_of_QPoint (QPoint_sub curPos (_prevMousePos w)))
                      = mkQPoint dx dy)
      by (apply toPoint2D_mkQVector2D; assumption).
    repeat split.
    + rewrite A, toPoint_movedBy, HmoveBy. reflexivity.
    + rewrite B, toPoint_movedBy, HmoveBy. reflexivity.
    + exact Ho.
Qed.

Lemma drag_diagonal_segment_witness :
  _pointToMoveIndex draggedDiagonal <= -1 /\
  _lineSegmentToMoveIndex draggedDiagonal = 0 /\
  QVector.at_ 0 (lineSegments draggedDiagonal) = Some (mkLine (mkQPoint 0 0) (mkQPoint 4 2)) /\
  isHorizontal (mkLine (mkQPoint 0 0) (mkQPoint 4 2)) = false /\
  isVertical (mkLine (mkQPoint 0 0) (mkQPoint 4 2)) = false /\
  (exists w' signals,
     mouseMoveEvent (mkQPoint 3 3) false draggedDiagonal = Some (accepted, w', signals) /\
     positions (_points w') = positions (_points draggedDiagonal)) /\
  Z.abs (qx (mkQPoint 3 3) - qx (_prevMousePos draggedDiagonal)) <= 2 ^ 23 /\
  Z.abs (qy (mkQPoint 3 3) - qy (_prevMousePos draggedDiagonal)) <= 2 ^ 23 /\
  (exists w' signals,
     mouseMoveEvent (mkQPoint 3 3) true draggedDiagonal = Some (accepted, w', signals) /\
     toPoint (pointAt 0 w') = mkQPoint 1 2 /\
     toPoint (pointAt 1 w') = mkQPoint 5 4).
Proof.
  assert (H1 : _pointToMoveIndex draggedDiagonal <= -1) by (cbn; lia).
  assert (H2 : _lineSegmentToMoveIndex draggedDiagonal = 0) by reflexivity.
  assert (H3 : QVector.at_ 0 (lineSegments draggedDiagonal)
               = Some (mkLine (mkQPoint 0 0) (mkQPoint 4 2))) by reflexivity.
  assert (H4 : isHorizontal (mkLine (mkQPoint 0 0) (mkQPoint 4 2)) = false) by reflexivity.
  assert (H5 : isVertical (mkLine (mkQPoint 0 0) (mkQPoint 4 2)) = false) by reflexivity.
  assert (H6 : Z.abs (qx (mkQPoint 3 3) - qx (_prevMousePos draggedDiagonal)) <= 2 ^ 23)
    by (cbn; lia).
  assert (H7 : Z.abs (qy (mkQPoint 3 3) - qy (_prevMousePos draggedDiagonal)) <= 2 ^ 23)
    by (cbn; lia).
  repeat (split; [assumption|]). split.
  - destruct (drag_diagonal_segment draggedDiagonal 0 _ (mkQPoint 3 3) false H1 H2 H3 H4 H5)
      as (w' & signals & E & A & _).
    exists w', signals. split; [exact E | exact (A eq_refl)].
  - split; [exact H6|]. split; [exact H7|].
    destruct (drag_diagonal_segment draggedDiagonal 0 _ (mkQPoint 3 3) true H1 H2 H3 H4 H5)
      as (w' & signals & E & _ & B).
    destruct (B eq_refl H6 H7) as (B1 & B2 & _).
    exists w', signals. repeat split; assumption.
Defined.

(** Absolute positions after a stored point is replaced by the relative form
    of an absolute position. *)
Lemma points_assign_relative (w : Wire) (i : Z) (p : QPoint) :
  points (withPoints (QVector.assign i (WirePoint_of_QPoint (QPoint_sub p (gridPoint w)))
                                     (_points w)) w)
  = QVector.assign i p (points w).
Proof.
  rewrite points_withPoints. unfold points. rewrite map_assign, QPoint_add_sub. reflexivity.
Qed.

(** The run of [mouseMoveEvent] while a point is grabbed. *)
Lemma mouseMoveEvent_point (w : Wire) (i : Z) (curPos : QPoint) (ctrlPressed : bool) :
  _pointToMoveIndex w = i -> 0 <= i < QVector.size (_points w) ->
  exists signals,
    mouseMoveEvent curPos ctrlPressed w
    = Some (accepted,
            set_prevMousePos curPos
              (withPoints (QVector.assign i (WirePoint_of_QPoint
                                               (QPoint_sub curPos (gridPoint w)))
                                          (_points w)) w),
            signals) /\
    length signals = 1%nat.
Proof.
  intros Hp Hi.
  pose proof (movePointTo_in_range w i curPos Hi) as E. cbv zeta in E.
  eexists. split.
  - unfold mouseMoveEvent. unfold bind at 1. unfold this.
    replace (_pointToMoveIndex w >? -1) with true
      by (symmetry; rewrite Z.gtb_ltb; apply Z.ltb_lt; lia).
    rewrite Hp. unfold bind, ret, modify. rewrite E. reflexivity.
  - reflexivity.
Qed.

(** X19.  While the point at index [i] is being dragged, a mouse move puts
    that point at the grid position of the mouse, in absolute coordinates,
    whatever the segment index says; the other points stay, one signal is
    emitted and the drag goes on. *)
Theorem drag_point (w : Wire) (i : Z) (curPos : QPoint) (ctrlPressed : bool) :
  _pointToMoveIndex w = i -> 0 <= i < QVector.size (_points w) ->
  exists w' signals,
    mouseMoveEvent curPos ctrlPressed w = Some (accepted, w', signals) /\
    length signals = 1%nat /\
    points w' = QVector.assign i curPos (points w) /\
    _prevMousePos w' = curPos /\
    _pointToMoveIndex w' = i.
Proof.
  intros Hp Hi.
  destruct (mouseMoveEvent_point w i curPos ctrlPressed Hp Hi) as (signals & E & Hs).
  eexists. exists signals. split; [exact E|]. split; [exact Hs|].
  split; [|split].
  - match goal with |- points (set_prevMousePos _ ?x) = _ =>
      change (points (set_prevMousePos curPos x)) with (points x) end.
    apply points_assign_relative.
  - reflexivity.
  - exact Hp.
Qed.

Lemma drag_point_witness :
  _pointToMoveIndex draggedPoint = 1 /\
  0 <= 1 < QVector.size (_points draggedPoint) /\
  exists w' signals,
    mouseMoveEvent (mkQPoint 7 7) false draggedPoint = Some (accepted, w', signals) /\
    points w' = QVector.assign 1 (mkQPoint 7 7) (points draggedPoint).
Proof.
  assert (H1 : _pointToMoveIndex draggedPoint = 1) by reflexivity.
  assert (H2 : 0 <= 1 < QVector.size (_points draggedPoint))
    by (unfold QVector.size; cbn; lia).
  split; [exact H1|]. split; [exact H2|].
  destruct (drag_point draggedPoint 1 (mkQPoint 7 7) false H1 H2)
    as (w' & signals & E & _ & A & _).
  exists w', signals. split; assumption.
Defined.

Lemma movePointTo_returns (w : Wire) (index : Z) (moveTo : QPoint) :
  exists w' signals,
    movePointTo index moveTo w = Some (tt, w', signals) /\
    _prevMousePos w' = _prevMousePos w.
Proof.
  destruct (Z_lt_ge_dec index 0) as [Hneg|Hpos].
  - exists w, []. rewrite movePointTo_out_of_range by (left; exact Hneg). split; reflexivity.
  - destruct (Z_lt_ge_dec index (QVector.size (_points w))) as [Hlt|Hge].
    + eexists. eexists. rewrite movePointTo_in_range by lia. split; reflexivity.
    + exists w, []. rewrite movePointTo_out_of_range by (right; exact Hge).
      split; reflexivity.
Qed.

Lemma at_None {T} (i : Z) (l : list T) :
  0 <= i -> (QVector.at_ i l = None <-> QVector.size l <= i).
Proof.
  intros H. unfold QVector.at_, QVector.size.
  replace (i <? 0) with false by (symmetry; apply Z.ltb_ge; lia).
  rewrite nth_error_None. lia.
Qed.

(** X20.  [mouseMoveEvent] reads [lineSegments().at(_lineSegmentToMoveIndex)]
    without a check: it is undefined exactly when no point is being dragged
    and the segment index is not below the number of segments.  Whenever it
    returns, the grid position of the mouse has become the previous one. *)
Theorem mouseMoveEvent_defined (w : Wire) (curPos : QPoint) (ctrlPressed : bool) :
  (mouseMoveEvent curPos ctrlPressed w = None <->
   _pointToMoveIndex w <= -1 /\ QVector.size (lineSegments w) <= _lineSegmentToMoveIndex w) /\
  (forall r w' signals,
     mouseMoveEvent curPos ctrlPressed w = Some (r, w', signals) ->
     _prevMousePos w' = curPos).
Proof.
  pose proof (size_nonneg (lineSegments w)) as Hsz.
  destruct (Z_le_gt_dec (_pointToMoveIndex w) (-1)) as [Hp|Hp].
  - destruct (Z_le_gt_dec (_lineSegmentToMoveIndex w) (-1)) as [Hs|Hs].
    + assert (E : mouseMoveEvent curPos ctrlPressed w
                  = Some (passedToItem, set_prevMousePos curPos w, [])).
      { unfold mouseMoveEvent. unfold bind at 1. unfold this.
        replace (_pointToMoveIndex w >? -1) with false
          by (symmetry; rewrite Z.gtb_ltb; apply Z.ltb_ge; lia).
        replace (_lineSegmentToMoveIndex w >? -1) with false
          by (symmetry; rewrite Z.gtb_ltb; apply Z.ltb_ge; lia).
        reflexivity. }
      rewrite E. split.
      * split; [discriminate | intros [_ H]; lia].
      * intros r w' s H. injection H as <- <- <-. reflexivity.
    + destruct (QVector.at_ (_lineSegmentToMoveIndex w) (lineSegments w)) as [line|] eqn:Hat.
      * destruct (mouseMoveEvent_segment w _ line curPos ctrlPressed Hp eq_refl Hat)
          as (w' & s & E & _ & _ & _ & _ & _ & Hprev).
        rewrite E. split.
        -- split; [discriminate|]. intros [_ H].
           apply (at_None (_lineSegmentToMoveIndex w) (lineSegments w) ltac:(lia)) in H. congruence.
        -- intros r w'' s' H. injection H as <- <- <-. exact Hprev.
      * assert (E : mouseMoveEvent curPos ctrlPressed w = None).
        { unfold mouseMoveEvent. unfold bind at 1. unfold this.
          replace (_pointToMoveIndex w >? -1) with false
            by (symmetry; rewrite Z.gtb_ltb; apply Z.ltb_ge; lia).
          replace (_lineSegmentToMoveIndex w >? -1) with true
            by (symmetry; rewrite Z.gtb_ltb; apply Z.ltb_lt; lia).
          unfold bind, lift. rewrite Hat. reflexivity. }
        rewrite E. split.
        -- split; [|reflexivity]. intros _. split; [exact Hp|].
           apply (at_None (_lineSegmentToMoveIndex w) (lineSegments w) ltac:(lia)). exact Hat.
        -- intros r w' s H. discriminate.
  - destruct (movePointTo_returns w (_pointToMoveIndex w) curPos) as (w1 & s1 & E1 & _).
    assert (E : mouseMoveEvent curPos ctrlPressed w
                = Some (accepted, set_prevMousePos curPos w1, s1 ++ [] ++ [] ++ [])).
    { unfold mouseMoveEvent. unfold bind at 1. unfold this.
      replace (_pointToMoveIndex w >? -1) with true
        by (symmetry; rewrite Z.gtb_ltb; apply Z.ltb_lt; lia).
      unfold bind, ret, modify. rewrite E1. cbn [app]. rewrite !app_nil_r. reflexivity. }
    rewrite E. split.
    + split; [discriminate | intros [H _]; lia].
    + intros r w' s H. injection H as <- <- <-. reflexivity.
Qed.

(** Moves without a drag. *)
Lemma mouseMoveEvent_idle (w : Wire) (curPos : QPoint) (ctrlPressed : bool) :
  (_pointToMoveIndex w <= -1 -> _lineSegmentToMoveIndex w <= -1 ->
   mouseMoveEvent curPos ctrlPressed w
   = Some (passedToItem, set_prevMousePos curPos w, [])) /\
  (QVector.size (_points w) <= _pointToMoveIndex w ->
   mouseMoveEvent curPos ctrlPressed w
   = Some (accepted, set_prevMousePos curPos w, [])).
Proof.
  split.
  - intros Hp Hs. unfold mouseMoveEvent. unfold bind at 1. unfold this.
    replace (_pointToMoveIndex w >? -1) with false
      by (symmetry; rewrite Z.gtb_ltb; apply Z.ltb_ge; lia).
    replace (_lineSegmentToMoveIndex w >? -1) with false
      by (symmetry; rewrite Z.gtb_ltb; apply Z.ltb_ge; lia).
    reflexivity.
  - intros Hp. pose proof (size_nonneg (_points w)) as Hsz.
    unfold mouseMoveEvent. unfold bind at 1. unfold this.
    replace (_pointToMoveIndex w >? -1) with true
      by (symmetry; rewrite Z.gtb_ltb; apply Z.ltb_lt; lia).
    unfold bind, ret, modify.
    rewrite movePointTo_out_of_range by (right; lia). reflexivity.
Qed.

(** ** Mouse press, release and hover *)

Lemma Qlt_bool_iff (a b : Q) : Qlt_bool a b = true <-> (a < b)%Q.
Proof.
  unfold Qlt_bool. rewrite negb_true_iff. split.
  - intros H. apply Qnot_le_lt. intros Hle. apply Qle_bool_iff in Hle. congruence.
  - intros H. destruct (Qle_bool b a) eqn:E; [|reflexivity].
    apply Qle_bool_iff in E. exfalso. apply (Qlt_not_le _ _ H). exact E.
Qed.

Lemma Qlt_bool_false_iff (a b : Q) : Qlt_bool a b = false <-> (b <= a)%Q.
Proof.
  unfold Qlt_bool. rewrite negb_false_iff. apply Qle_bool_iff.
Qed.

(** X21.  The handle of a point, as [mousePressEvent] and [hoverMoveEvent]
    test it: a scene position is on the handle exactly when it is within
    [HANDLE_SIZE] of the scene position of the point along both axes, the
    border included. *)
Theorem handle_holds (c : QPoint) (p : QPointF) :
  SceneRect_contains (handleRect c) p = true <->
  (inject_Z (qx c) - HANDLE_SIZE <= fx p <= inject_Z (qx c) + HANDLE_SIZE /\
   inject_Z (qy c) - HANDLE_SIZE <= fy p <= inject_Z (qy c) + HANDLE_SIZE)%Q.
Proof.
  unfold SceneRect_contains, handleRect, HANDLE_SIZE. cbn [sx sy sw sh].
  assert (Hw : Qlt_bool (2 * (3 # 1)) 0 = false) by reflexivity.
  rewrite Hw.
  assert (Hx : Qeq_bool (inject_Z (qx c) - (3 # 1)) (inject_Z (qx c) - (3 # 1) + 2 * (3 # 1))
               = false).
  { match goal with |- ?t = false => destruct t eqn:E end; [|reflexivity].
    apply Qeq_bool_iff in E. lra. }
  assert (Hy : Qeq_bool (inject_Z (qy c) - (3 # 1)) (inject_Z (qy c) - (3 # 1) + 2 * (3 # 1))
               = false).
  { match goal with |- ?t = false => destruct t eqn:E end; [|reflexivity].
    apply Qeq_bool_iff in E. lra. }
  rewrite Hx, Hy.
  destruct (Qlt_bool (fx p) _) eqn:E1; cbn [orb].
  { apply Qlt_bool_iff in E1. split; [discriminate|]. intros H. lra. }
  apply Qlt_bool_false_iff in E1.
  destruct (Qlt_bool _ (fx p)) eqn:E2.
  { apply Qlt_bool_iff in E2. split; [discriminate|]. intros H. lra. }
  apply Qlt_bool_false_iff in E2.
  destruct (Qlt_bool (fy p) _) eqn:E3; cbn [orb].
  { apply Qlt_bool_iff in E3. split; [discriminate|]. intros H. lra. }
  apply Qlt_bool_false_iff in E3.
  destruct (Qlt_bool _ (fy p)) eqn:E4.
  { apply Qlt_bool_iff in E4. split; [discriminate|]. intros H. lra. }
  apply Qlt_bool_false_iff in E4.
  split; [intros _; lra | reflexivity].
Qed.

Lemma set_pointToMoveIndex_same (w : Wire) : set_pointToMoveIndex (_pointToMoveIndex w) w = w.
Proof. destruct w; reflexivity. Qed.

Lemma set_lineSegmentToMoveIndex_same (w : Wire) :
  set_lineSegmentToMoveIndex (_lineSegmentToMoveIndex w) w = w.
Proof. destruct w; reflexivity. Qed.

Lemma hoverHandles_false (pos : QPointF) (pts : list QPoint) :
  hoverHandles pos pts = false <->
  Forall (fun q => SceneRect_contains (handleRect q) pos = false) pts.
Proof.
  induction pts as [|q pts IH]; cbn [hoverHandles].
  - split; [constructor | reflexivity].
  - destruct (SceneRect_contains (handleRect q) pos) eqn:E.
    + split; [discriminate|]. intros H. inversion H; congruence.
    + rewrite IH. split; [intros H; constructor; assumption | intros H; inversion H; assumption].
Qed.

Lemma hoverHandles_true (pos : QPointF) (pts : list QPoint) :
  hoverHandles pos pts = true ->
  exists front c back,
    pts = front ++ c :: back /\
    Forall (fun q => SceneRect_contains (handleRect q) pos = false) front /\
    SceneRect_contains (handleRect c) pos = true.
Proof.
  induction pts as [|q pts IH]; cbn [hoverHandles]; [discriminate|].
  destruct (SceneRect_contains (handleRect q) pos) eqn:E.
  - intros _. exists [], q, pts. repeat split; [constructor | exact E].
  - intros H. destruct (IH H) as (front & c & back & -> & HF & Hc).
    exists (q :: front), c, back. repeat split; [constructor; assumption | exact Hc].
Qed.

Lemma pressHandles_hit (pos : QPointF) (front back : list QPoint) (c : QPoint) :
  Forall (fun q => SceneRect_contains (handleRect q) pos = false) front ->
  SceneRect_contains (handleRect c) pos = true ->
  forall i w,
    pressHandles pos (front ++ c :: back) i w
    = Some (true, set_pointToMoveIndex (i + Z.of_nat (length front)) w, []).
Proof.
  intros HF Hc. induction HF as [|q front Hq HF IH]; intros i w; cbn [app pressHandles length].
  - rewrite Hc. unfold bind, modify, ret. rewrite Z.add_0_r. reflexivity.
  - rewrite Hq. unfold bind at 1. unfold modify at 1. rewrite IH.
    replace (i + 1 + Z.of_nat (length front)) with (i + Z.of_nat (S (length front))) by lia.
    reflexivity.
Qed.

Lemma pressHandles_miss (pos : QPointF) (pts : list QPoint) :
  Forall (fun q => SceneRect_contains (handleRect q) pos = false) pts ->
  forall i w,
    pressHandles pos pts i w
    = Some (false, match pts with [] => w | _ => set_pointToMoveIndex (-1) w end, []).
Proof.
  intros HF. induction HF as [|q pts Hq HF IH]; intros i w; cbn [pressHandles].
  - reflexivity.
  - rewrite Hq. unfold bind at 1. unfold modify at 1. rewrite IH.
    destruct pts; reflexivity.
Qed.

Section HostFacts.
Variable toScenePoint : Z -> QPoint -> QPoint.
Variable toGridPoint : Z -> QPointF -> QPoint.
Variable containsPoint : Line -> QPoint -> Z -> bool.

Lemma hoverLines_None (gp : QPoint) (ctrl : bool) (lines : list Line) :
  hoverLines containsPoint gp ctrl lines = None <->
  Forall (fun l => containsPoint l gp 1 = false) lines.
Proof.
  induction lines as [|l lines IH]; cbn [hoverLines].
  - split; [constructor | reflexivity].
  - destruct (containsPoint l gp 1) eqn:E.
    + split; [discriminate|]. intros H. inversion H; congruence.
    + rewrite IH. split; [intros H; constructor; assumption | intros H; inversion H; assumption].
Qed.

Lemma hoverLines_Some (gp : QPoint) (ctrl : bool) (lines : list Line) (change : CursorChange) :
  hoverLines containsPoint gp ctrl lines = Some change ->
  exists front line back,
    lines = front ++ line :: back /\
    Forall (fun l => containsPoint l gp 1 = false) front /\
    containsPoint line gp 1 = true /\
    change = (if isHorizontal line then setCursor SizeVerCursor
              else if isVertical line then setCursor SizeHorCursor
              else if ctrl then setCursor SizeAllCursor
              else cursorKept).
Proof.
  induction lines as [|l lines IH]; cbn [hoverLines]; [discriminate|].
  destruct (containsPoint l gp 1) eqn:E.
  - intros H. injection H as <-. exists [], l, lines.
    repeat split; [constructor | exact E].
  - intros H. destruct (IH H) as (front & line & back & -> & HF & Hc & Hch).
    exists (l :: front), line, back. repeat split; [constructor; assumption | exact Hc | exact Hch].
Qed.

Lemma pressLines_hit (gp : QPoint) (front back : list Line) (line : Line) :
  Forall (fun l => containsPoint l gp 1 = false) front ->
  containsPoint line gp 1 = true ->
  forall i w,
    pressLines containsPoint gp (front ++ line :: back) i w
    = Some (true, set_lineSegmentToMoveIndex (i + Z.of_nat (length front)) w, []).
Proof.
  intros HF Hc. induction HF as [|q front Hq HF IH]; intros i w; cbn [app pressLines length].
  - rewrite Hc. unfold bind, modify, ret. rewrite Z.add_0_r. reflexivity.
  - rewrite Hq. unfold bind at 1. unfold modify at 1. rewrite IH.
    replace (i + 1 + Z.of_nat (length front)) with (i + Z.of_nat (S (length front))) by lia.
    reflexivity.
Qed.

Lemma pressLines_miss (gp : QPoint) (lines : list Line) :
  Forall (fun l => containsPoint l gp 1 = false) lines ->
  forall i w,
    pressLines containsPoint gp lines i w
    = Some (false, match lines with [] => w | _ => set_lineSegmentToMoveIndex (-1) w end, []).
Proof.
  intros HF. induction HF as [|q pts Hq HF IH]; intros i w; cbn [pressLines].
  - reflexivity.
  - rewrite Hq. unfold bind at 1. unfold modify at 1. rewrite IH.
    destruct pts; reflexivity.
Qed.

(** The outcomes of a press on a selected wire, by what is under the
    pointer. *)
Lemma mousePressEvent_handle (w : Wire) (pos : QPointF) (front back : list QPoint) (c : QPoint) :
  scenePointsAbsolute toScenePoint w = front ++ c :: back ->
  Forall (fun q => SceneRect_contains (handleRect q) pos = false) front ->
  SceneRect_contains (handleRect c) pos = true ->
  mousePressEvent toScenePoint toGridPoint containsPoint true pos w
  = Some (false,
          set_pointToMoveIndex (Z.of_nat (length front))
            (set_prevMousePos (toGridPoint (gridSize w) pos) w), []).
Proof.
  intros Hpts HF Hc. unfold mousePressEvent.
  unfold bind at 1. unfold modify at 1. unfold bind at 1. unfold this at 1.
  unfold bind at 1.
  change (scenePointsAbsolute toScenePoint (set_prevMousePos _ w))
    with (scenePointsAbsolute toScenePoint w).
  rewrite Hpts, (pressHandles_hit pos front back c HF Hc). reflexivity.
Qed.

Lemma mousePressEvent_no_handle (w : Wire) (pos : QPointF) :
  Forall (fun q => SceneRect_contains (handleRect q) pos = false)
         (scenePointsAbsolute toScenePoint w) ->
  let gp := toGridPoint (gridSize w) pos in
  let w1 := match _points w with
            | [] => set_prevMousePos gp w
            | _ => set_pointToMoveIndex (-1) (set_prevMousePos gp w)
            end in
  mousePressEvent toScenePoint toGridPoint containsPoint true pos w
  = match pressLines containsPoint gp (lineSegments w) 0 w1 with
    | Some (_, w2, _) => Some (false, w2, [])
    | None => None
    end.
Proof.
  intros HF gp w1. unfold mousePressEvent.
  unfold bind at 1. unfold modify at 1. unfold bind at 1. unfold this at 1.
  unfold bind at 1.
  change (scenePointsAbsolute toScenePoint (set_prevMousePos _ w))
    with (scenePointsAbsolute toScenePoint w).
  rewrite (pressHandles_miss pos _ HF).
  assert (Hw1 : match scenePointsAbsolute toScenePoint w with
                | [] => set_prevMousePos (toGridPoint (gridSize w) pos) w
                | _ :: _ => set_pointToMoveIndex (-1)
                              (set_prevMousePos (toGridPoint (gridSize w) pos) w)
                end = w1).
  { unfold w1, gp, scenePointsAbsolute. destruct (_points w); reflexivity. }
  rewrite Hw1. unfold bind at 1. unfold this at 1. unfold bind at 1.
  assert (Hg : gridSize w1 = gridSize w) by (unfold w1; destruct (_points w); reflexivity).
  assert (Hl : lineSegments w1 = lineSegments w) by (unfold w1; destruct (_points w); reflexivity).
  rewrite Hg, Hl. fold gp.
  destruct (pressLines containsPoint gp (lineSegments w) 0 w1) as [[[b w2] s]|] eqn:E;
    [|reflexivity].
  unfold ret.
  assert (s = []).
  { destruct (hoverLines containsPoint gp false (lineSegments w)) as [ch|] eqn:Eh.
    - apply hoverLines_Some in Eh. destruct Eh as (f & l & bk & Hd & HFl & Hl1 & _).
      rewrite Hd, (pressLines_hit gp f bk l HFl Hl1) in E. congruence.
    - apply hoverLines_None in Eh. rewrite (pressLines_miss gp _ Eh) in E. congruence. }
  subst s. reflexivity.
Qed.


Lemma at_app_middle {T} (front back : list T) (x : T) :
  QVector.at_ (Z.of_nat (length front)) (front ++ x :: back) = Some x.
Proof.
  unfold QVector.at_.
  replace (Z.of_nat (length front) <? 0) with false by (symmetry; apply Z.ltb_ge; lia).
  rewrite Nat2Z.id, nth_error_app2 by lia. rewrite Nat.sub_diag. reflexivity.
Qed.

Lemma lineSegments_nonempty (w : Wire) :
  lineSegments w <> [] <-> 2 <= QVector.size (_points w).
Proof.
  unfold lineSegments. destruct (QVector.size (_points w) <? 2) eqn:E.
  - apply Z.ltb_lt in E. split; [congruence | lia].
  - apply Z.ltb_ge in E. split; [intros _; exact E|]. intros _.
    destruct (Z.to_nat (QVector.size (_points w) - 1)) eqn:En; [lia|].
    cbn [seq map]. discriminate.
Qed.

Lemma size_scenePointsAbsolute (w : Wire) :
  QVector.size (scenePointsAbsolute toScenePoint w) = QVector.size (_points w).
Proof. unfold QVector.size, scenePointsAbsolute. rewrite length_map. reflexivity. Qed.

Lemma points_nonempty (w : Wire) :
  2 <= QVector.size (_points w) -> exists p rest, _points w = p :: rest.
Proof.
  intros H2. destruct (_points w) eqn:Ep; [unfold QVector.size in H2; cbn in H2; lia | eauto].
Qed.

Lemma mousePressEvent_segment
      (w : Wire) (pos : QPointF) (front back : list Line) (line : Line) :
  Forall (fun q => SceneRect_contains (handleRect q) pos = false)
         (scenePointsAbsolute toScenePoint w) ->
  lineSegments w = front ++ line :: back ->
  Forall (fun l => containsPoint l (toGridPoint (gridSize w) pos) 1 = false) front ->
  containsPoint line (toGridPoint (gridSize w) pos) 1 = true ->
  mousePressEvent toScenePoint toGridPoint containsPoint true pos w
  = Some (false,
          set_lineSegmentToMoveIndex (Z.of_nat (length front))
            (set_pointToMoveIndex (-1) (set_prevMousePos (toGridPoint (gridSize w) pos) w)),
          []).
Proof.
  intros HF Hd HFl Hl.
  assert (H2 : 2 <= QVector.size (_points w)).
  { apply lineSegments_nonempty. rewrite Hd. destruct front; discriminate. }
  destruct (points_nonempty w H2) as (p & rest & Ep).
  rewrite (mousePressEvent_no_handle w pos HF).
  rewrite Hd, (pressLines_hit _ front back line HFl Hl).
  rewrite Ep. reflexivity.
Qed.

Lemma mousePressEvent_beside (w : Wire) (pos : QPointF) :
  2 <= QVector.size (_points w) ->
  Forall (fun q => SceneRect_contains (handleRect q) pos = false)
         (scenePointsAbsolute toScenePoint w) ->
  Forall (fun l => containsPoint l (toGridPoint (gridSize w) pos) 1 = false)
         (lineSegments w) ->
  mousePressEvent toScenePoint toGridPoint containsPoint true pos w
  = Some (false,
          set_lineSegmentToMoveIndex (-1)
            (set_pointToMoveIndex (-1) (set_prevMousePos (toGridPoint (gridSize w) pos) w)),
          []).
Proof.
  intros H2 HF HFl.
  destruct (points_nonempty w H2) as (p & rest & Ep).
  rewrite (mousePressEvent_no_handle w pos HF).
  rewrite (pressLines_miss _ _ HFl).
  apply lineSegments_nonempty in H2.
  destruct (lineSegments w); [congruence|].
  rewrite Ep. reflexivity.
Qed.

(** X22.  [mousePressEvent] always returns and fires no signal.  It leaves
    the points, the stored rectangle, the anchor and the cell size as they
    were and remembers the grid position of the press.  The event goes on to
    [Item::mousePressEvent] exactly when the wire is not selected, and then
    nothing is grabbed: both drag indices stay what they were. *)
Theorem mousePressEvent_frame (selected : bool) (pos : QPointF) (w : Wire) :
  exists pointIndex segmentIndex,
    mousePressEvent toScenePoint toGridPoint containsPoint selected pos w
    = Some (negb selected,
            mkWire (_points w) (_rect w) pointIndex segmentIndex
                   (toGridPoint (gridSize w) pos) (gridPoint w) (gridSize w), []) /\
    (selected = false ->
     pointIndex = _pointToMoveIndex w /\ segmentIndex = _lineSegmentToMoveIndex w).
Proof.
  destruct selected.
  - destruct (hoverHandles pos (scenePointsAbsolute toScenePoint w)) eqn:Eh.
    + apply hoverHandles_true in Eh. destruct Eh as (front & c & back & Hd & HF & Hc).
      exists (Z.of_nat (length front)), (_lineSegmentToMoveIndex w).
      rewrite (mousePressEvent_handle w pos front back c Hd HF Hc).
      split; [reflexivity | discriminate].
    + apply hoverHandles_false in Eh. rewrite (mousePressEvent_no_handle w pos Eh).
      set (gp := toGridPoint (gridSize w) pos).
      set (w1 := match _points w with
                 | [] => set_prevMousePos gp w
                 | _ => set_pointToMoveIndex (-1) (set_prevMousePos gp w)
                 end).
      assert (Hw1 : exists k, w1 = mkWire (_points w) (_rect w) k (_lineSegmentToMoveIndex w)
                                          gp (gridPoint w) (gridSize w)).
      { unfold w1. destruct (_points w) eqn:E.
        - exists (_pointToMoveIndex w). unfold set_prevMousePos. rewrite E. reflexivity.
        - exists (-1). unfold set_pointToMoveIndex, set_prevMousePos. cbn. rewrite E.
          reflexivity. }
      destruct Hw1 as (k & Hw1).
      destruct (hoverLines containsPoint gp false (lineSegments w)) as [ch|] eqn:El.
      * apply hoverLines_Some in El. destruct El as (f & l & bk & Hd & HFl & Hl1 & _).
        rewrite Hd, (pressLines_hit gp f bk l HFl Hl1).
        exists k, (0 + Z.of_nat (length f)). rewrite Hw1.
        split; [reflexivity | discriminate].
      * apply hoverLines_None in El. rewrite (pressLines_miss gp _ El).
        destruct (lineSegments w).
        -- exists k, (_lineSegmentToMoveIndex w). rewrite Hw1.
           split; [reflexivity | discriminate].
        -- exists k, (-1). rewrite Hw1. split; [reflexivity | discriminate].
  - exists (_pointToMoveIndex w), (_lineSegmentToMoveIndex w).
    split; [reflexivity | intros _; split; reflexivity].
Qed.

(** X23.  A press on a handle grabs that point.  When the press position
    lies in the handle of the point at index [i] and in no handle before
    it, [mousePressEvent] on a selected wire sets [_pointToMoveIndex] to [i]
    and does not look at the segments; every mouse move that follows is
    accepted and puts point [i] at the grid position of the pointer, leaving
    the other points where they were. *)
Theorem press_on_handle_then_move
        (w : Wire) (pos : QPointF) (front back : list QPoint) (c : QPoint) :
  scenePointsAbsolute toScenePoint w = front ++ c :: back ->
  Forall (fun q => SceneRect_contains (handleRect q) pos = false) front ->
  SceneRect_contains (handleRect c) pos = true ->
  let i := Z.of_nat (length front) in
  let pressed := wireAfter (mousePressEvent toScenePoint toGridPoint containsPoint true pos) w in
  resultOf (mousePressEvent toScenePoint toGridPoint containsPoint true pos) w = Some false /\
  _pointToMoveIndex pressed = i /\
  _lineSegmentToMoveIndex pressed = _lineSegmentToMoveIndex w /\
  forall curPos ctrlPressed, exists w' signals,
    mouseMoveEvent curPos ctrlPressed pressed = Some (accepted, w', signals) /\
    points w' = QVector.assign i curPos (points w).
Proof.
  intros Hd HF Hc i pressed.
  pose proof (mousePressEvent_handle w pos front back c Hd HF Hc) as E.
  unfold pressed, resultOf, wireAfter. rewrite E.
  repeat split.
  intros curPos ctrlPressed.
  assert (Hi : 0 <= i < QVector.size (_points w)).
  { rewrite <- size_scenePointsAbsolute, Hd. unfold i, QVector.size.
    rewrite length_app. cbn [length]. lia. }
  destruct (mouseMoveEvent_point
              (set_pointToMoveIndex i (set_prevMousePos (toGridPoint (gridSize w) pos) w))
              i curPos ctrlPressed eq_refl Hi)
    as (signals & Em & _).
  eexists. exists signals. split; [exact Em|].
  exact (points_assign_relative w i curPos).
Qed.

(** X24.  A press on a segment grabs that segment.  When the press position
    lies in no handle, and its grid position lies on the segment at index
    [i] (within tolerance 1) and on no segment before it, [mousePressEvent]
    on a selected wire grabs no point and sets [_lineSegmentToMoveIndex] to
    [i]; a mouse move that follows, to a grid position within 2^23 of the
    press position along both axes, is accepted and moves both ends of that
    segment by the grid vector [mouseMoveEvent] derives from the press
    position, leaving the other points where they were. *)
Theorem press_on_segment_then_move
        (w : Wire) (pos : QPointF) (front back : list Line) (line : Line) :
  let gp := toGridPoint (gridSize w) pos in
  Forall (fun q => SceneRect_contains (handleRect q) pos = false)
         (scenePointsAbsolute toScenePoint w) ->
  lineSegments w = front ++ line :: back ->
  Forall (fun l => containsPoint l gp 1 = false) front ->
  containsPoint line gp 1 = true ->
  let i := Z.of_nat (length front) in
  let pressed := wireAfter (mousePressEvent toScenePoint toGridPoint containsPoint true pos) w in
  resultOf (mousePressEvent toScenePoint toGridPoint containsPoint true pos) w = Some false /\
  _pointToMoveIndex pressed = -1 /\
  _lineSegmentToMoveIndex pressed = i /\
  forall curPos ctrlPressed,
    Z.abs (qx curPos - qx gp) <= 2 ^ 23 -> Z.abs (qy curPos - qy gp) <= 2 ^ 23 ->
    let delta := dragDelta line curPos gp ctrlPressed in
    exists w' signals,
      mouseMoveEvent curPos ctrlPressed pressed = Some (accepted, w', signals) /\
      pointAt i w' = WirePoint_of_QPoint (QPoint_add (toPoint (pointAt i w)) delta) /\
      pointAt (i + 1) w'
      = WirePoint_of_QPoint (QPoint_add (toPoint (pointAt (i + 1) w)) delta) /\
      (forall j, 0 <= j -> j <> i -> j <> i + 1 -> pointAt j w' = pointAt j w).
Proof.
  intros gp HF Hd HFl Hl i pressed.
  pose proof (mousePressEvent_segment w pos front back line HF Hd HFl Hl) as E.
  fold gp in E. fold i in E.
  unfold pressed, resultOf, wireAfter. rewrite E.
  repeat match goal with |- _ /\ _ => split end; try reflexivity.
  intros curPos ctrlPressed Hdx Hdy.
  set (w0 := set_lineSegmentToMoveIndex i (set_pointToMoveIndex (-1) (set_prevMousePos gp w))).
  assert (Hat : QVector.at_ i (lineSegments w0) = Some line).
  { change (lineSegments w0) with (lineSegments w). rewrite Hd. apply at_app_middle. }
  destruct (mouseMoveEvent_segment w0 i line curPos ctrlPressed
              ltac:(cbn; lia) eq_refl Hat)
    as (w' & signals & Em & _ & A & B & C & _).
  change (_prevMousePos w0) with gp in A, B.
  unfold movedBy in A, B. rewrite (toPoint2D_moveLineByOf line curPos gp ctrlPressed Hdx Hdy) in A, B.
  exists w', signals. repeat match goal with |- _ /\ _ => split end.
  - exact Em.
  - exact A.
  - exact B.
  - exact C.
Qed.

(** X25.  A press beside the wire grabs nothing.  When a selected wire of
    two or more points is pressed at a position that lies in no handle and
    whose grid position lies on no segment, [mousePressEvent] resets both
    drag indices to -1 (and still keeps the event from
    [Item::mousePressEvent]); the mouse move that follows is handed to
    [Item::mouseMoveEvent] and moves no point. *)
Theorem press_beside_wire_then_move (w : Wire) (pos : QPointF) :
  let gp := toGridPoint (gridSize w) pos in
  2 <= QVector.size (_points w) ->
  Forall (fun q => SceneRect_contains (handleRect q) pos = false)
         (scenePointsAbsolute toScenePoint w) ->
  Forall (fun l => containsPoint l gp 1 = false) (lineSegments w) ->
  let pressed := set_lineSegmentToMoveIndex (-1)
                   (set_pointToMoveIndex (-1) (set_prevMousePos gp w)) in
  mousePressEvent toScenePoint toGridPoint containsPoint true pos w
  = Some (false, pressed, []) /\
  forall curPos ctrlPressed,
    mouseMoveEvent curPos ctrlPressed pressed
    = Some (passedToItem, set_prevMousePos curPos pressed, []).
Proof.
  intros gp H2 HF HFl pressed. split.
  - exact (mousePressEvent_beside w pos H2 HF HFl).
  - intros curPos ctrlPressed.
    apply (proj1 (mouseMoveEvent_idle pressed curPos ctrlPressed)); cbn; lia.
Qed.

(** X26.  After a press on a selected wire of two or more points the mouse
    move that follows is always defined: whatever lies under the pointer,
    [mouseMoveEvent] does not read [lineSegments().at(i)] out of range. *)
Theorem press_then_move_is_defined
        (w : Wire) (pos : QPointF) (curPos : QPoint) (ctrlPressed : bool) :
  2 <= QVector.size (_points w) ->
  exists r w' signals,
    (mousePressEvent toScenePoint toGridPoint containsPoint true pos ;;
     mouseMoveEvent curPos ctrlPressed) w = Some (r, w', signals).
Proof.
  intros H2. unfold bind.
  destruct (hoverHandles pos (scenePointsAbsolute toScenePoint w)) eqn:Eh.
  - apply hoverHandles_true in Eh. destruct Eh as (front & c & back & Hd & HF & Hc).
    rewrite (mousePressEvent_handle w pos front back c Hd HF Hc).
    assert (Hi : 0 <= Z.of_nat (length front) < QVector.size (_points w)).
    { rewrite <- size_scenePointsAbsolute, Hd. unfold QVector.size.
      rewrite length_app. cbn [length]. lia. }
    destruct (mouseMoveEvent_point
                (set_pointToMoveIndex (Z.of_nat (length front))
                   (set_prevMousePos (toGridPoint (gridSize w) pos) w))
                _ curPos ctrlPressed eq_refl Hi)
      as (signals & Em & _).
    rewrite Em. eauto.
  - apply hoverHandles_false in Eh.
    set (gp := toGridPoint (gridSize w) pos).
    destruct (hoverLines containsPoint gp false (lineSegments w)) as [ch|] eqn:El.
    + apply hoverLines_Some in El. destruct El as (f & l & bk & Hd & HFl & Hl1 & _).
      rewrite (mousePressEvent_segment w pos f bk l Eh Hd HFl Hl1).
      match goal with |- context [mouseMoveEvent curPos ctrlPressed ?x] => set (w0 := x) end.
      assert (Hat : QVector.at_ (Z.of_nat (length f)) (lineSegments w0) = Some l).
      { change (lineSegments w0) with (lineSegments w). rewrite Hd. apply at_app_middle. }
      destruct (mouseMoveEvent_segment w0 _ l curPos ctrlPressed
                  ltac:(cbn; lia) eq_refl Hat)
        as (w' & signals & Em & _).
      rewrite Em. eauto.
    + apply hoverLines_None in El.
      rewrite (mousePressEvent_beside w pos H2 Eh El).
      match goal with |- context [mouseMoveEvent curPos ctrlPressed ?x] =>
        rewrite (proj1 (mouseMoveEvent_idle x curPos ctrlPressed)) by (cbn; lia) end.
      eauto.
Qed.

(** X27.  [mouseReleaseEvent] ends every drag: whatever was grabbed, after
    the release a mouse move is handed to [Item::mouseMoveEvent], fires no
    signal and leaves the points and the stored rectangle as they were
    before the release. *)
Theorem release_ends_drag (w : Wire) (pos : QPointF) (curPos : QPoint) (ctrlPressed : bool) :
  (mouseReleaseEvent toGridPoint pos ;; mouseMoveEvent curPos ctrlPressed) w
  = Some (passedToItem,
          mkWire (_points w) (_rect w) (-1) (-1) curPos (gridPoint w) (gridSize w), []).
Proof.
  unfold bind at 1.
  assert (E : mouseReleaseEvent toGridPoint pos w
              = Some (tt, mkWire (_points w) (_rect w) (-1) (-1)
                                 (toGridPoint (gridSize w) pos) (gridPoint w) (gridSize w), []))
    by reflexivity.
  rewrite E.
  rewrite (proj1 (mouseMoveEvent_idle _ curPos ctrlPressed)) by (cbn; lia).
  reflexivity.
Qed.

(** X28.  The cursor [hoverMoveEvent] shows over a selected wire tells what
    a press at the same position would grab.  The four-way arrow: a point,
    or, with the control key, a segment that is neither horizontal nor
    vertical.  The vertical arrow: a horizontal segment.  The horizontal
    arrow: a vertical segment that is not horizontal.  No change of the
    cursor: a segment neither horizontal nor vertical, without the control
    key.  The cursor of the parent: nothing. *)
Theorem hover_cursor_announces_grab (w : Wire) (ctrlPressed : bool) (pos : QPointF) :
  let pressed := wireAfter (mousePressEvent toScenePoint toGridPoint containsPoint true pos) w in
  let grabsSegment (holds : Line -> Prop) :=
    _pointToMoveIndex pressed = -1 /\
    exists line,
      QVector.at_ (_lineSegmentToMoveIndex pressed) (lineSegments w) = Some line /\
      holds line in
  match hoverMoveEvent toScenePoint toGridPoint containsPoint true ctrlPressed pos w with
  | setCursor SizeAllCursor =>
      0 <= _pointToMoveIndex pressed < QVector.size (_points w) \/
      (ctrlPressed = true /\
       grabsSegment (fun line => isHorizontal line = false /\ isVertical line = false))
  | setCursor SizeVerCursor => grabsSegment (fun line => isHorizontal line = true)
  | setCursor SizeHorCursor =>
      grabsSegment (fun line => isHorizontal line = false /\ isVertical line = true)
  | cursorKept =>
      ctrlPressed = false /\
      grabsSegment (fun line => isHorizontal line = false /\ isVertical line = false)
  | unsetCursor =>
      (_points w <> [] -> _pointToMoveIndex pressed = -1) /\
      (lineSegments w <> [] -> _lineSegmentToMoveIndex pressed = -1)
  end.
Proof.
  intros pressed grabsSegment. unfold hoverMoveEvent. cbn [negb].
  destruct (hoverHandles pos (scenePointsAbsolute toScenePoint w)) eqn:Eh.
  - apply hoverHandles_true in Eh. destruct Eh as (front & c & back & Hd & HF & Hc).
    left. unfold pressed, wireAfter.
    rewrite (mousePressEvent_handle w pos front back c Hd HF Hc). cbn.
    rewrite <- size_scenePointsAbsolute, Hd. unfold QVector.size.
    rewrite length_app. cbn [length]. lia.
  - apply hoverHandles_false in Eh.
    destruct (hoverLines containsPoint (toGridPoint (gridSize w) pos) ctrlPressed
                         (lineSegments w)) as [ch|] eqn:El.
    + apply hoverLines_Some in El. destruct El as (f & l & bk & Hd & HFl & Hl1 & Hch).
      assert (G : forall holds : Line -> Prop, holds l -> grabsSegment holds).
      { intros holds Hh. unfold grabsSegment, pressed, wireAfter.
        rewrite (mousePressEvent_segment w pos f bk l Eh Hd HFl Hl1).
        split; [reflexivity|]. exists l. split; [|exact Hh].
        cbn. rewrite Hd. apply at_app_middle. }
      subst ch. destruct (isHorizontal l) eqn:E1.
      { apply G. exact E1. }
      destruct (isVertical l) eqn:E2.
      { apply G. split; [exact E1 | exact E2]. }
      destruct ctrlPressed.
      * right. split; [reflexivity|]. apply G. split; assumption.
      * split; [reflexivity|]. apply G. split; assumption.
    + apply hoverLines_None in El. unfold pressed, wireAfter.
      rewrite (mousePressEvent_no_handle w pos Eh).
      rewrite (pressLines_miss _ _ El).
      destruct (_points w) eqn:Ep, (lineSegments w) eqn:Es; cbn;
        split; intros H; try reflexivity; congruence.
Qed.

(** X29.  [pointIsOnWire(p)] holds exactly when one of the segments between
    two consecutive points, taken in absolute grid coordinates, contains [p]
    with tolerance 0.  A wire with fewer than two points has no such segment
    and contains no point. *)
Theorem pointIsOnWire_segments (w : Wire) (p : QPoint) :
  pointIsOnWire containsPoint p w = true <->
  exists i,
    0 <= i <= QVector.size (_points w) - 2 /\
    containsPoint (mkLine (QPoint_add (gridPoint w) (toPoint (pointAt i w)))
                          (QPoint_add (gridPoint w) (toPoint (pointAt (i + 1) w)))) p 0
    = true.
Proof.
  unfold pointIsOnWire. rewrite existsb_exists. unfold lineSegments.
  destruct (QVector.size (_points w) <? 2) eqn:E.
  - apply Z.ltb_lt in E. split.
    + intros (line & [] & _).
    + intros (i & Hi & _). lia.
  - apply Z.ltb_ge in E. split.
    + intros (line & Hin & Hc). apply in_map_iff in Hin.
      destruct Hin as (k & <- & Hk). apply in_seq in Hk.
      exists (Z.of_nat k). split; [lia | exact Hc].
    + intros (i & Hi & Hc).
      eexists. split; [|exact Hc]. apply in_map_iff.
      exists (Z.to_nat i). rewrite Z2Nat.id by lia. split; [reflexivity|].
      apply in_seq. lia.
Qed.

(** X30.  The three lists of scene points agree with one another and with
    [points]: [scenePointsAbsolute] is [points] taken to the scene,
    [sceneWirePointsRelative] has the positions of [scenePointsRelative] and
    the junction flags of the stored points. *)
Theorem scene_point_lists (w : Wire) :
  scenePointsAbsolute toScenePoint w = map (toScenePoint (gridSize w)) (points w) /\
  positions (sceneWirePointsRelative toScenePoint w) = scenePointsRelative toScenePoint w /\
  map isJunction (sceneWirePointsRelative toScenePoint w) = map isJunction (_points w).
Proof.
  unfold scenePointsAbsolute, points, positions, sceneWirePointsRelative, scenePointsRelative.
  rewrite !map_map. split; [|split].
  - apply map_ext. intros a. f_equal. unfold QPoint_add. f_equal; lia.
  - apply map_ext. intros a. unfold toPoint, setIsJunction, WirePoint_of_QPoint. cbn.
    destruct (toScenePoint (gridSize w) _). reflexivity.
  - apply map_ext. intros a. reflexivity.
Qed.

End HostFacts.

Lemma press_on_handle_then_move_witness :
  scenePointsAbsolute scaleToScene cornerWire
  = [mkQPoint 0 0] ++ mkQPoint 100 0 :: [mkQPoint 100 100] /\
  Forall (fun q => SceneRect_contains (handleRect q) nearSecondHandle = false) [mkQPoint 0 0] /\
  SceneRect_contains (handleRect (mkQPoint 100 0)) nearSecondHandle = true /\
  _pointToMoveIndex
    (wireAfter (mousePressEvent scaleToScene floorToGrid withinSpan true nearSecondHandle)
               cornerWire) = 1 /\
  exists w' signals,
    mouseMoveEvent (mkQPoint 7 7) false
      (wireAfter (mousePressEvent scaleToScene floorToGrid withinSpan true nearSecondHandle)
                 cornerWire)
    = Some (accepted, w', signals) /\
    points w' = [mkQPoint 0 0; mkQPoint 7 7; mkQPoint 5 5].
Proof.
  assert (H1 : scenePointsAbsolute scaleToScene cornerWire
               = [mkQPoint 0 0] ++ mkQPoint 100 0 :: [mkQPoint 100 100]) by reflexivity.
  assert (H2 : Forall (fun q => SceneRect_contains (handleRect q) nearSecondHandle = false)
                      [mkQPoint 0 0]).
  { apply Forall_cons; [reflexivity | apply Forall_nil]. }
  assert (H3 : SceneRect_contains (handleRect (mkQPoint 100 0)) nearSecondHandle = true)
    by reflexivity.
  split; [exact H1|]. split; [exact H2|]. split; [exact H3|].
  destruct (press_on_handle_then_move scaleToScene floorToGrid withinSpan
              cornerWire nearSecondHandle _ _ _ H1 H2 H3) as (_ & A & _ & B).
  split; [exact A|].
  destruct (B (mkQPoint 7 7) false) as (w' & signals & E & P).
  exists w', signals. split; [exact E | rewrite P; reflexivity].
Defined.

Lemma press_on_segment_then_move_witness :
  Forall (fun q => SceneRect_contains (handleRect q) onSecondSegment = false)
         (scenePointsAbsolute scaleToScene cornerWire) /\
  lineSegments cornerWire
  = [mkLine (mkQPoint 0 0) (mkQPoint 5 0)] ++ mkLine (mkQPoint 5 0) (mkQPoint 5 5) :: [] /\
  Forall (fun l => withinSpan l (floorToGrid (gridSize cornerWire) onSecondSegment) 1 = false)
         [mkLine (mkQPoint 0 0) (mkQPoint 5 0)] /\
  withinSpan (mkLine (mkQPoint 5 0) (mkQPoint 5 5))
             (floorToGrid (gridSize cornerWire) onSecondSegment) 1 = true /\
  _lineSegmentToMoveIndex
    (wireAfter (mousePressEvent scaleToScene floorToGrid withinSpan true onSecondSegment)
               cornerWire) = 1 /\
  Z.abs (qx (mkQPoint 8 4) - qx (floorToGrid (gridSize cornerWire) onSecondSegment)) <= 2 ^ 23 /\
  Z.abs (qy (mkQPoint 8 4) - qy (floorToGrid (gridSize cornerWire) onSecondSegment)) <= 2 ^ 23 /\
  exists w' signals,
    mouseMoveEvent (mkQPoint 8 4) false
      (wireAfter (mousePressEvent scaleToScene floorToGrid withinSpan true onSecondSegment)
                 cornerWire)
    = Some (accepted, w', signals) /\
    toPoint (pointAt 0 w') = mkQPoint 0 0 /\
    toPoint (pointAt 1 w') = mkQPoint 8 0 /\
    toPoint (pointAt 2 w') = mkQPoint 8 5.
Proof.
  assert (H1 : Forall (fun q => SceneRect_contains (handleRect q) onSecondSegment = false)
                      (scenePointsAbsolute scaleToScene cornerWire)).
  { repeat (apply Forall_cons; [reflexivity|]). apply Forall_nil. }
  assert (H2 : lineSegments cornerWire
               = [mkLine (mkQPoint 0 0) (mkQPoint 5 0)]
                   ++ mkLine (mkQPoint 5 0) (mkQPoint 5 5) :: []) by reflexivity.
  assert (H3 : Forall (fun l => withinSpan l (floorToGrid (gridSize cornerWire) onSecondSegment) 1
                                = false)
                      [mkLine (mkQPoint 0 0) (mkQPoint 5 0)]).
  { apply Forall_cons; [reflexivity | apply Forall_nil]. }
  assert (H4 : withinSpan (mkLine (mkQPoint 5 0) (mkQPoint 5 5))
                          (floorToGrid (gridSize cornerWire) onSecondSegment) 1 = true)
    by reflexivity.
  split; [exact H1|]. split; [exact H2|]. split; [exact H3|]. split; [exact H4|].
  destruct (press_on_segment_then_move scaleToScene floorToGrid withinSpan
              cornerWire onSecondSegment _ _ _ H1 H2 H3 H4) as (_ & _ & A & B).
  split; [exact A|].
  assert (H5 : Z.abs (qx (mkQPoint 8 4) - qx (floorToGrid (gridSize cornerWire) onSecondSegment))
               <= 2 ^ 23) by (vm_compute; discriminate).
  assert (H6 : Z.abs (qy (mkQPoint 8 4) - qy (floorToGrid (gridSize cornerWire) onSecondSegment))
               <= 2 ^ 23) by (vm_compute; discriminate).
  split; [exact H5|]. split; [exact H6|].
  destruct (B (mkQPoint 8 4) false H5 H6) as (w' & signals & E & P0 & P1 & P2).
  exists w', signals. split; [exact E|].
  rewrite (P2 0 ltac:(lia) ltac:(cbn; lia) ltac:(cbn; lia)).
  change (pointAt 1 w') with (pointAt (Z.of_nat (length [mkLine (mkQPoint 0 0) (mkQPoint 5 0)])) w').
  rewrite P0.
  change (pointAt 2 w')
    with (pointAt (Z.of_nat (length [mkLine (mkQPoint 0 0) (mkQPoint 5 0)]) + 1) w').
  rewrite P1. repeat split.
Defined.

Lemma press_beside_wire_then_move_witness :
  2 <= QVector.size (_points cornerWire) /\
  Forall (fun q => SceneRect_contains (handleRect q) awayFromWire = false)
         (scenePointsAbsolute scaleToScene cornerWire) /\
  Forall (fun l => withinSpan l (floorToGrid (gridSize cornerWire) awayFromWire) 1 = false)
         (lineSegments cornerWire) /\
  resultOf (mousePressEvent scaleToScene floorToGrid withinSpan true awayFromWire ;;
            mouseMoveEvent (mkQPoint 1 1) true) cornerWire = Some passedToItem.
Proof.
  assert (H1 : 2 <= QVector.size (_points cornerWire)) by (unfold QVector.size; cbn; lia).
  assert (H2 : Forall (fun q => SceneRect_contains (handleRect q) awayFromWire = false)
                      (scenePointsAbsolute scaleToScene cornerWire)).
  { repeat (apply Forall_cons; [reflexivity|]). apply Forall_nil. }
  assert (H3 : Forall (fun l => withinSpan l (floorToGrid (gridSize cornerWire) awayFromWire) 1
                                = false)
                      (lineSegments cornerWire)).
  { repeat (apply Forall_cons; [reflexivity|]). apply Forall_nil. }
  split; [exact H1|]. split; [exact H2|]. split; [exact H3|].
  destruct (press_beside_wire_then_move scaleToScene floorToGrid withinSpan
              cornerWire awayFromWire H1 H2 H3) as (A & B).
  unfold resultOf, bind. rewrite A, (B (mkQPoint 1 1) true). reflexivity.
Defined.

Lemma press_then_move_is_defined_witness :
  2 <= QVector.size (_points cornerWire) /\
  exists r w' signals,
    (mousePressEvent scaleToScene floorToGrid withinSpan true onSecondSegment ;;
     mouseMoveEvent (mkQPoint 8 4) false) cornerWire = Some (r, w', signals).
Proof.
  assert (H1 : 2 <= QVector.size (_points cornerWire)) by (unfold QVector.size; cbn; lia).
  split; [exact H1|].
  exact (press_then_move_is_defined scaleToScene floorToGrid withinSpan
           cornerWire onSecondSegment (mkQPoint 8 4) false H1).
Defined.
